(** * Expected-Consensus simulator ([long_sim]): a shallow embedding

    The Go program simulates rational miners extending every non-slashable
    fork of a tipset chain.  This development embeds the later of the two
    evolution stages of the simulator (the one with [ParentWeight],
    [setHead] and the [crypto/rand] genesis tickets).

    Conventions of the embedding.
    - Go's [int] and [int64] are 64-bit two's complement integers and
      [uint64] is a 64-bit natural; they are carried as [Z] and every
      addition of the source wraps explicitly ([int_add], [uint64_add]).
    - [float64] is Rocq's primitive IEEE-754 binary64 [float].
    - A pointer to an object that is never updated after its allocation is
      carried as the value it points to; a pointer that may be [nil] is an
      [option].  The only fields written after allocation are [InHead] and
      [WasHead]; [setHead] writes them while the round's blocks are
      referenced from the round's block slice only, and returns that slice
      updated.
    - A panic is a value of [panic]; a function that may panic returns a
      [result].  The process-wide [uniqueID], the [*rand.Rand] shared by the
      miners of a trial and the stream read from [crypto/rand] form the
      [world] threaded by the monad [M].
    - Go's standard library is not part of the repository.  [sort.Slice],
      [math/rand] and the iteration order of [range] over a map enter as
      Section variables with the properties their documentation states. *)

From Stdlib Require Import ZArith List Lia Bool PrimFloat Uint63.
From Stdlib Require Import Sorting.Sorted Sorting.Permutation.
From stdpp Require Import gmap strings list fin_maps pretty sorting.

Open Scope Z_scope.

(** ** Machine integers *)

Definition int_max : Z := 2 ^ 63 - 1.
Definition int_min : Z := - 2 ^ 63.

(** The value of a 64-bit two's complement word holding [z] modulo 2^64. *)
Definition wrap_int (z : Z) : Z := (z + 2 ^ 63) mod 2 ^ 64 - 2 ^ 63.

(** The value of a [uint64] holding [z] modulo 2^64; also the conversion
    [uint64(x)] of a signed [x]. *)
Definition wrap_uint64 (z : Z) : Z := z mod 2 ^ 64.

Definition int_add (a b : Z) : Z := wrap_int (a + b).
Definition int_sub (a b : Z) : Z := wrap_int (a - b).
Definition int_mul (a b : Z) : Z := wrap_int (a * b).
Definition uint64_add (a b : Z) : Z := wrap_uint64 (a + b).

Definition in_int (z : Z) : Prop := int_min <= z <= int_max.

(** [const bigOlNum = 100000] *)
Definition bigOlNum : Z := 100000.

(** ** float64 *)

(** [float64(x)] for a [uint64] [x]: exact below 2^63 up to the rounding of
    [of_uint63]; above, the usual halving with a sticky low bit, which
    rounds as the direct conversion does. *)
Definition float64_of_uint64 (z : Z) : float :=
  if z <? 2 ^ 63 then PrimFloat.of_uint63 (Uint63.of_Z z)
  else PrimFloat.mul
         (PrimFloat.of_uint63 (Uint63.of_Z (Z.lor (Z.shiftr z 1) (Z.land z 1))))
         2%float.

(** [float64(x)] for an [int] [x]. *)
Definition float64_of_int (z : Z) : float :=
  if z <? 0 then PrimFloat.opp (float64_of_uint64 (- z))
  else float64_of_uint64 z.

(** [isWinningTicket]: [float64(ticket) < float64(bigOlNum)*power]. *)
Definition isWinningTicket (ticket : Z) (power : float) : bool :=
  PrimFloat.ltb (float64_of_uint64 ticket)
                (PrimFloat.mul (float64_of_int bigOlNum) power).

(** ** Panics *)

Inductive panic : Type :=
| PanicMsg (msg : string)      (* panic("...") of the program itself *)
| NilDereference               (* field access through a nil pointer *)
| IndexOutOfRange              (* s[i] with i >= len(s) *)
| CryptoRandArgument           (* crypto/rand.Int with max <= 0 *)
| MakeSliceLen.                (* make([]T, n) with n < 0 *)

Inductive result (A : Type) : Type :=
| Ok (a : A)
| Panicked (p : panic).
Arguments Ok {A} a.
Arguments Panicked {A} p.

Definition rbind {A B} (r : result A) (k : A -> result B) : result B :=
  match r with
  | Ok a => k a
  | Panicked p => Panicked p
  end.

#[global] Instance result_ret : MRet result := @Ok.
#[global] Instance result_bind : MBind result := fun A B k r => rbind r k.

Definition is_ok {A} (r : result A) : bool :=
  match r with Ok _ => true | Panicked _ => false end.

Definition is_Some_bool {A} (o : option A) : bool :=
  match o with Some _ => true | None => false end.

(** [P] holds of the value a computation returns, and it returns one. *)
Definition holdsOn {A} (r : result A) (P : A -> Prop) : Prop :=
  match r with
  | Ok a => P a
  | Panicked _ => False
  end.

(** ** Structs *)

Inductive Block : Type := mkBlock {
  Nonce : Z;
  Parents : option Tipset;
  Owner : Z;
  Height : Z;
  Null : bool;
  ParentWeight : Z;
  Seed : Z;
  InHead : bool }
with Tipset : Type := mkTipset {
  Blocks : list Block;
  Name : string;
  MinTicket : Z;
  WasHead : bool;
  Weight : Z }.

Record RationalMiner : Type := mkRationalMiner {
  Power : float;
  PrivateForks : gmap string Tipset;
  ID : Z;
  TotalMiners : Z }.

Record chainTracker : Type := mkChainTracker {
  liveBlocksByHeight : gmap Z (list Block);
  allBlocks : gmap Z Block;
  maxHeight : Z;
  head : option Tipset;
  miners : list RationalMiner }.

(** ** Utils *)

(** [strconv.Itoa] *)
Definition Itoa (n : Z) : string := pretty n.

(** [stringifyBlocks]: the nonces in slice order, joined by ['-']. *)
Fixpoint stringifyBlocks (blocks : list Block) : string :=
  match blocks with
  | [] => ""
  | blk :: rest =>
      match rest with
      | [] => Itoa (Nonce blk)
      | _ :: _ => String.append (Itoa (Nonce blk)) (String.append "-" (stringifyBlocks rest))
      end
  end.

(** The loop of [NewTipset] that lowers [minTicket] over the blocks. *)
Definition minTicketOf (start : Z) (blocks : list Block) : Z :=
  fold_left (fun minTicket block =>
               if Seed block <? minTicket then Seed block else minTicket)
            blocks start.

Definition seed_le (b1 b2 : Block) : Prop := Seed b1 <= Seed b2.

(** A stable insertion sort on [Seed]: the instance of [sort.Slice] at which
    the development is evaluated. *)
Fixpoint insertBySeed (b : Block) (l : list Block) : list Block :=
  match l with
  | [] => [b]
  | x :: rest => if Seed b <=? Seed x then b :: x :: rest else x :: insertBySeed b rest
  end.

Fixpoint insertionSort (l : list Block) : list Block :=
  match l with
  | [] => []
  | x :: rest => insertBySeed x (insertionSort rest)
  end.

(** ** Instances for evaluation *)

(** A generator to run the simulator with: the state is a number, [Seed]
    stores the seed, [Int63n] scrambles the state into [0, n). *)
Definition demoSeed (seed : Z) : Z := seed.
Definition demoInt63n (r n : Z) : Z * Z := ((r * 7919 + 13) mod n, r + 1).

(** The order of [range] that follows the list of the map's entries. *)
Definition demoOrder (l : list (string * Tipset)) : list (string * Tipset) := l.

(** A genesis block and its tipset, and blocks mined on it. *)
Definition genesis0 : Block :=
  {| Nonce := 0; Parents := None; Owner := -1; Height := 0; Null := false;
     ParentWeight := 0; Seed := 4242; InHead := true |}.

Definition genesisT : Tipset :=
  {| Blocks := [genesis0]; Name := "0"; MinTicket := 4242; WasHead := false;
     Weight := 1 |}.

Definition blkA : Block :=
  {| Nonce := 1; Parents := Some genesisT; Owner := 0; Height := 1; Null := false;
     ParentWeight := 1; Seed := 5; InHead := false |}.

Definition blkB : Block :=
  {| Nonce := 2; Parents := Some genesisT; Owner := 1; Height := 1; Null := false;
     ParentWeight := 1; Seed := 9; InHead := false |}.

(** A third block of the same height and parents, with the least seed. *)
Definition blkLow : Block :=
  {| Nonce := 3; Parents := Some genesisT; Owner := 2; Height := 1; Null := false;
     ParentWeight := 1; Seed := 1; InHead := false |}.

(** A null block of the same height and parents, with the least seed. *)
Definition blkNull : Block :=
  {| Nonce := 4; Parents := Some genesisT; Owner := 3; Height := 1; Null := true;
     ParentWeight := 1; Seed := 1; InHead := false |}.

(** A block of another height and without parents. *)
Definition blkStray : Block :=
  {| Nonce := 7; Parents := None; Owner := 3; Height := 5; Null := false;
     ParentWeight := 0; Seed := 2; InHead := false |}.

(** A miner of power one eighth, whose ticket on [genesisT] loses. *)
Definition minerLosing : RationalMiner :=
  {| Power := 0.125%float; PrivateForks := ∅; ID := 3; TotalMiners := 10 |}.

(** ** The world: process-wide and trial-wide mutable state *)

Section Simulator.

(** [math/rand]: the state of a [*rand.Rand]; [Seed] (and [NewSource])
    determine the whole state from the seed, [Int63n] steps it. *)
Variable rng : Type.
Variable rand_Seed : Z -> rng.
Variable rand_Int63n : rng -> Z -> Z * rng.
Hypothesis rand_Int63n_range :
  forall r n, 0 < n -> 0 <= fst (rand_Int63n r n) < n.

(** [sort.Slice(blocks, func(i, j) bool { return blocks[i].Seed < blocks[j].Seed })]:
    some rearrangement of the slice that is ascending in [Seed]; the order
    of blocks of equal seed is not specified. *)
Variable sortBlocks : list Block -> list Block.
Hypothesis sortBlocks_perm : forall l, Permutation (sortBlocks l) l.
Hypothesis sortBlocks_sorted : forall l, StronglySorted seed_le (sortBlocks l).

Record world : Type := mkWorld {
  uniqueID : Z;            (* var uniqueID int *)
  trialRand : rng;         (* the *rand.Rand every miner of the trial holds *)
  crandStream : nat -> Z;  (* what crypto/rand.Reader will deliver *)
  crandPos : nat }.        (* how much of it was read *)

Definition M (A : Type) : Type := world -> result (A * world).

#[global] Instance M_ret : MRet M := fun A a w => Ok (a, w).
#[global] Instance M_bind : MBind M := fun A B k m w =>
  match m w with
  | Ok (a, w') => k a w'
  | Panicked p => Panicked p
  end.

Definition lift {A} (r : result A) : M A := fun w =>
  match r with
  | Ok a => Ok (a, w)
  | Panicked p => Panicked p
  end.

(** [getUniqueID] *)
Definition getUniqueID : M Z := fun w =>
  let w' := mkWorld (int_add (uniqueID w) 1) (trialRand w) (crandStream w) (crandPos w) in
  Ok (int_sub (uniqueID w') 1, w').

(** [randInt]: [crypto/rand.Int] panics on a limit that is not positive and
    otherwise delivers a value of [0, limit). *)
Definition randInt (limit : Z) : M Z := fun w =>
  if limit <=? 0 then Panicked CryptoRandArgument
  else Ok (crandStream w (crandPos w) mod limit,
           mkWorld (uniqueID w) (trialRand w) (crandStream w) (S (crandPos w))).

(** ** Tipset helpers *)

(** [sortBlocks] then the body of [NewTipset]. *)
Definition NewTipset (blocks : list Block) : result Tipset :=
  match blocks with
  | [] => Panicked (PanicMsg "Don't call weight on no parents")
  | _ :: _ =>
      let blocks := sortBlocks blocks in
      match blocks with
      | [] => Panicked IndexOutOfRange
      | b0 :: _ =>
          let minTicket := minTicketOf (Seed b0) blocks in
          let tsWeight :=
            if negb (Null b0)
            then int_add (ParentWeight b0) (Z.of_nat (length blocks))
            else ParentWeight b0 in
          Ok {| Blocks := blocks;
                Name := stringifyBlocks blocks;
                MinTicket := minTicket;
                WasHead := false;
                Weight := tsWeight |}
      end
  end.

(** [getHeight], a method of [Tipset] *)
Definition getHeight (ts : Tipset) : result Z :=
  match Blocks ts with
  | [] => Panicked (PanicMsg "Don't call height on no parents")
  | b0 :: _ => Ok (Height b0)
  end.

(** [getParents], a method of [Tipset] *)
Definition getParents (ts : Tipset) : result (option Tipset) :=
  match Blocks ts with
  | [] => Panicked (PanicMsg "Don't call parents on nil blocks")
  | b0 :: _ => Ok (Parents b0)
  end.

(** The loop of [liveParents], entered with [parents]: walk back
    while the first block of the tipset is null. *)
Fixpoint liveParentsFrom (parents : Tipset) : result Tipset :=
  match parents with
  | mkTipset [] _ _ _ _ => Panicked IndexOutOfRange
  | mkTipset (mkBlock _ up _ _ null _ _ _ :: _) _ _ _ _ =>
      if null then
        match up with
        | None => Panicked NilDereference
        | Some p => liveParentsFrom p
        end
      else Ok parents
  end.

(** [liveParents], a method of [Block] *)
Definition liveParents (bl : Block) : result Tipset :=
  match Parents bl with
  | None => Panicked NilDereference
  | Some parents => liveParentsFrom parents
  end.

(** ** Helpers *)

(** [makeGen]: the loop, [n] iterations left, then [gen.Blocks[0]]. *)
Fixpoint makeGenLoop (n : nat) (gen : option Tipset) (totalMiners : Z)
  : M (option Tipset) :=
  match n with
  | O => mret gen
  | S n' =>
      nonce ← getUniqueID;
      seed ← randInt (wrap_int (int_mul bigOlNum totalMiners));
      ts ← lift (NewTipset [ {| InHead := true;
                                Nonce := nonce;
                                Parents := gen;
                                Owner := -1;
                                Height := 0;
                                Null := false;
                                ParentWeight := 0;
                                Seed := wrap_uint64 seed |} ]);
      makeGenLoop n' (Some ts) totalMiners
  end.

Definition makeGen (lbp totalMiners : Z) : M Block :=
  gen ← makeGenLoop (Z.to_nat lbp) None totalMiners;
  lift (match gen with
        | None => Panicked NilDereference
        | Some g =>
            match Blocks g with
            | [] => Panicked IndexOutOfRange
            | b0 :: _ => Ok b0
            end
        end).

(** The test of [allTipsets]:
    [blk1.Height == blk2.Height && blk1.Parents.Name == blk2.Parents.Name]. *)
Definition sameTipset (blk1 blk2 : Block) : result bool :=
  if Height blk1 =? Height blk2 then
    match Parents blk1, Parents blk2 with
    | Some p1, Some p2 => Ok (String.eqb (Name p1) (Name p2))
    | _, _ => Panicked NilDereference
    end
  else Ok false.

(** The inner loop of [allTipsets] over [blks[i+1:]]; [tipset] is the slice
    built so far. *)
Fixpoint collectTipset (blk1 : Block) (later : list Block) (tipset : list Block)
  : result (list Block) :=
  match later with
  | [] => Ok tipset
  | blk2 :: rest =>
      same ← sameTipset blk1 blk2;
      collectTipset blk1 rest (if (same : bool) then tipset ++ [blk2] else tipset)
  end.

(** [allTipsets] *)
Fixpoint allTipsets (blks : list Block) : result (list Tipset) :=
  match blks with
  | [] => Ok []
  | blk1 :: later =>
      tipset ← collectTipset blk1 later [blk1];
      ts ← NewTipset tipset;
      tipsets ← allTipsets later;
      Ok (ts :: tipsets)
  end.

(** The loop of [forksFromTipset] from index [i] on, [blocks] being
    [ts.Blocks[i:]]. *)
Fixpoint forksFromBlocks (blocks : list Block) : result (list Tipset) :=
  match blocks with
  | [] => Ok []
  | _ :: rest =>
      fork ← NewTipset blocks;
      forks ← forksFromBlocks rest;
      Ok (fork :: forks)
  end.

(** [forksFromTipset] *)
Definition forksFromTipset (ts : Tipset) : result (list Tipset) :=
  forksFromBlocks (Blocks ts).

(** ** Chain tracker *)

(** [NewChainTracker] *)
Definition NewChainTracker (miners : list RationalMiner) : chainTracker :=
  {| liveBlocksByHeight := ∅;
     allBlocks := ∅;
     maxHeight := -1;
     head := None;
     miners := miners |}.

(** The two tests of the loop of [setHead]: does [ts] replace
    [candidateHead]? *)
Definition replacesHead (candidateHead ts : Tipset) : bool :=
  if Weight candidateHead <? Weight ts then true
  else if Weight ts =? Weight candidateHead
       then MinTicket ts <? MinTicket candidateHead
       else false.

(** The loop of [setHead].  [moved] holds whether [candidateHead] was
    assigned in the loop: every tipset of [allTipsets] is a fresh object, so
    this is the pointer test [candidateHead != ct.head] after the loop. *)
Fixpoint setHeadLoop (tipsets : list Tipset) (candidateHead : option Tipset)
         (moved : bool) : result (option Tipset * bool) :=
  match tipsets with
  | [] => Ok (candidateHead, moved)
  | ts :: rest =>
      match candidateHead with
      | None => Panicked NilDereference
      | Some c =>
          if replacesHead c ts then setHeadLoop rest (Some ts) true
          else setHeadLoop rest candidateHead moved
      end
  end.

Definition markInHead (blk : Block) : Block :=
  {| Nonce := Nonce blk; Parents := Parents blk; Owner := Owner blk;
     Height := Height blk; Null := Null blk; ParentWeight := ParentWeight blk;
     Seed := Seed blk; InHead := true |}.

Definition markWasHead (ts : Tipset) : Tipset :=
  {| Blocks := map markInHead (Blocks ts); Name := Name ts;
     MinTicket := MinTicket ts; WasHead := true; Weight := Weight ts |}.

(** The blocks of the round's slice after [blk.InHead = true] was written
    through the new head: a block of the slice is a block of the head when
    it carries the nonce of one (a nonce names one allocation). *)
Definition markBlocks (headBlocks blocks : list Block) : list Block :=
  map (fun blk =>
         if existsb (fun h => Nonce h =? Nonce blk) headBlocks
         then markInHead blk else blk) blocks.

Definition withHead (ct : chainTracker) (h : option Tipset) : chainTracker :=
  {| liveBlocksByHeight := liveBlocksByHeight ct; allBlocks := allBlocks ct;
     maxHeight := maxHeight ct; head := h; miners := miners ct |}.

(** [setHead]; returns the tracker and the block slice as the writes leave
    them. *)
Definition setHead (ct : chainTracker) (blocks : list Block)
  : result (chainTracker * list Block) :=
  tipsets ← allTipsets blocks;
  picked ← setHeadLoop tipsets (head ct) false;
  match picked with
  | (Some c, true) => Ok (withHead ct (Some (markWasHead c)), markBlocks (Blocks c) blocks)
  | (_, _) => Ok (ct, blocks)
  end.

(** ** Miner helpers *)

(** [NewRationalMiner]; the [rng] argument is the trial's [*rand.Rand],
    which lives in the [world]. *)
Definition NewRationalMiner (id : Z) (power : float) (totalMiners : Z)
  : RationalMiner :=
  {| Power := power; PrivateForks := ∅; ID := id; TotalMiners := totalMiners |}.

(** [generateTicket]: seed the shared generator with
    [minTicket + uint64(m.ID)], then draw below [bigOlNum]. *)
Definition generateTicket (m : RationalMiner) (minTicket : Z) : M Z := fun w =>
  let seed := uint64_add minTicket (wrap_uint64 (ID m)) in
  let r := rand_Seed (wrap_int seed) in
  let drawn := rand_Int63n r (wrap_int bigOlNum) in
  Ok (wrap_uint64 (fst drawn),
      mkWorld (uniqueID w) (snd drawn) (crandStream w) (crandPos w)).

(** [ConsiderAllForks] *)
Definition ConsiderAllForks (m : RationalMiner) (atsforks : list (list Tipset))
  : RationalMiner :=
  {| Power := Power m;
     PrivateForks :=
       fold_left (fun pforks forks =>
                    fold_left (fun pforks ts => <[Name ts := ts]> pforks) forks pforks)
                 atsforks (PrivateForks m);
     ID := ID m;
     TotalMiners := TotalMiners m |}.

(** The loop of [lookbackTipset], [n] iterations left. *)
Fixpoint lookbackSteps (n : nat) (tipset : option Tipset) : result (option Tipset) :=
  match n with
  | O => Ok tipset
  | S n' =>
      match tipset with
      | None => Panicked NilDereference
      | Some ts =>
          up ← getParents ts;
          lookbackSteps n' up
      end
  end.

(** [lookbackTipset] *)
Definition lookbackTipset (tipset : option Tipset) (lbp : Z) : result (option Tipset) :=
  lookbackSteps (Z.to_nat (int_sub lbp 1)) tipset.

(** [t.MinTicket] through a pointer. *)
Definition minTicketAt (tipset : option Tipset) : result Z :=
  match tipset with
  | None => Panicked NilDereference
  | Some ts => Ok (MinTicket ts)
  end.

(** The tipset whose weight a block on [parents] inherits. *)
Definition liveParentsOfTipset (parents : Tipset) : result Tipset :=
  match Blocks parents with
  | [] => Panicked IndexOutOfRange
  | b0 :: _ => if Null b0 then liveParents b0 else Ok parents
  end.

(** [generateBlock] *)
Definition generateBlock (m : RationalMiner) (parents : Tipset) (lbp : Z) : M Block :=
  lotteryTicket ← lift (lb ← lookbackTipset (Some parents) lbp; minTicketAt lb);
  lastTicket ← lift (lb ← lookbackTipset (Some parents) 1; minTicketAt lb);
  liveParents ← lift (liveParentsOfTipset parents);
  t ← generateTicket m lastTicket;
  nonce ← getUniqueID;
  h ← lift (getHeight parents);
  electionProof ← generateTicket m lotteryTicket;
  mret {| Nonce := nonce;
          Parents := Some parents;
          Owner := ID m;
          Height := int_add h 1;
          Null := negb (isWinningTicket electionProof (Power m));
          ParentWeight := Weight liveParents;
          Seed := t;
          InHead := false |}.

(** ** Main logic *)

(** The variables the first loop of [Mine] updates. *)
Record mineVars : Type := mkMineVars {
  nullBlocks : list Block;
  maxWeight : Z;
  bestBlock : option Block;
  mineCt : chainTracker }.

Definition recordBlock (ct : chainTracker) (blk : Block) : chainTracker :=
  {| liveBlocksByHeight := liveBlocksByHeight ct;
     allBlocks := <[Nonce blk := blk]> (allBlocks ct);
     maxHeight := maxHeight ct; head := head ct; miners := miners ct |}.

(** The two tests of the loop of [Mine] on the block [blk] just generated. *)
Definition considerBlock (v : mineVars) (blk : Block) : mineVars :=
  if negb (Null blk) && (maxWeight v <? ParentWeight blk) then
    {| nullBlocks := nullBlocks v; maxWeight := ParentWeight blk;
       bestBlock := Some blk; mineCt := mineCt v |}
  else if Null blk && negb (is_Some_bool (bestBlock v)) then
    {| nullBlocks := nullBlocks v ++ [blk]; maxWeight := maxWeight v;
       bestBlock := bestBlock v; mineCt := recordBlock (mineCt v) blk |}
  else v.

(** One iteration of [for k := range m.PrivateForks], at the entry
    [(k, m.PrivateForks[k])]. *)
Definition mineStep (m : RationalMiner) (lbp : Z) (v : mineVars)
           (entry : string * Tipset) : M mineVars :=
  blk ← generateBlock m (snd entry) lbp;
  mret (considerBlock v blk).

Fixpoint mineLoop (m : RationalMiner) (lbp : Z) (entries : list (string * Tipset))
         (v : mineVars) : M mineVars :=
  match entries with
  | [] => mret v
  | entry :: rest =>
      v' ← mineStep m lbp v entry;
      mineLoop m lbp rest v'
  end.

(** One iteration of [for _, nblk := range nullBlocks]. *)
Definition extendNull (pforks : gmap string Tipset) (nblk : Block)
  : result (gmap string Tipset) :=
  match Parents nblk with
  | None => Panicked NilDereference
  | Some parents =>
      nullTipset ← NewTipset [nblk];
      Ok (<[Name nullTipset := nullTipset]> (delete (Name parents) pforks))
  end.

Fixpoint extendNulls (pforks : gmap string Tipset) (nblks : list Block)
  : result (gmap string Tipset) :=
  match nblks with
  | [] => Ok pforks
  | nblk :: rest =>
      pforks' ← extendNull pforks nblk;
      extendNulls pforks' rest
  end.

Definition withForks (m : RationalMiner) (pforks : gmap string Tipset) : RationalMiner :=
  {| Power := Power m; PrivateForks := pforks; ID := ID m; TotalMiners := TotalMiners m |}.

(** [Mine].  [order] arranges the entries of the map in the order in which
    this execution of [range] visits them.  The result is the returned
    block ([None] for [nil]) with the miner and the tracker as the call
    leaves them. *)
Definition Mine (order : list (string * Tipset) -> list (string * Tipset))
           (m : RationalMiner) (ct : chainTracker)
           (atsforks : list (list Tipset)) (lbp : Z)
  : M (option Block * RationalMiner * chainTracker) :=
  let m := ConsiderAllForks m atsforks in
  v ← mineLoop m lbp (order (map_to_list (PrivateForks m)))
        {| nullBlocks := []; maxWeight := 0; bestBlock := None; mineCt := ct |};
  match bestBlock v with
  | Some _ => mret (bestBlock v, withForks m ∅, mineCt v)
  | None =>
      pforks ← lift (extendNulls (PrivateForks m) (nullBlocks v));
      mret (None, withForks m pforks, mineCt v)
  end.

(** The loop [for _, m := range miners] of a round; [i] is the index of the
    first miner of [ms], [order i] the order in which the [range] of miner
    [i] visits its forks. *)
Fixpoint mineAll (order : nat -> list (string * Tipset) -> list (string * Tipset))
         (i : nat) (ms : list RationalMiner) (ct : chainTracker)
         (atsforks : list (list Tipset)) (lbp : Z)
  : M (list Block * list RationalMiner * chainTracker) :=
  match ms with
  | [] => mret ([], [], ct)
  | m :: rest =>
      mined ← Mine (order i) m ct atsforks lbp;
      let '(blk, m', ct') := mined in
      others ← mineAll order (S i) rest ct' atsforks lbp;
      let '(newBlocks, rest', ct'') := others in
      mret (match blk with
            | Some b => b :: newBlocks
            | None => newBlocks
            end, m' :: rest', ct'')
  end.

(** [for _, v := range ats { atsforks = append(atsforks, forksFromTipset(v)) }] *)
Fixpoint forksOfAll (ats : list Tipset) : result (list (list Tipset)) :=
  match ats with
  | [] => Ok []
  | v :: rest =>
      forks ← forksFromTipset v;
      others ← forksOfAll rest;
      Ok (forks :: others)
  end.

(** What a round of [runSim] reads and writes: the tracker (whose [miners]
    slice is the slice of the miners), the blocks published by the round
    before, and [currentHeight]. *)
Record simState : Type := mkSimState {
  simCt : chainTracker;
  simBlocks : list Block;
  currentHeight : Z }.

Definition withMiners (ct : chainTracker) (ms : list RationalMiner) : chainTracker :=
  {| liveBlocksByHeight := liveBlocksByHeight ct; allBlocks := allBlocks ct;
     maxHeight := maxHeight ct; head := head ct; miners := ms |}.

Definition withLive (ct : chainTracker) (h : Z) (blocks : list Block) : chainTracker :=
  {| liveBlocksByHeight := <[h := blocks]> (liveBlocksByHeight ct);
     allBlocks := allBlocks ct;
     maxHeight := maxHeight ct; head := head ct; miners := miners ct |}.

Definition withMaxHeight (ct : chainTracker) (h : Z) : chainTracker :=
  {| liveBlocksByHeight := liveBlocksByHeight ct; allBlocks := allBlocks ct;
     maxHeight := h; head := head ct; miners := miners ct |}.

Definition heightPanic : panic :=
  PanicMsg "Check your assumptions: all block heights from a round are not equal".

(** The body of the loop [for round := 0; round < roundNum; round++]. *)
Definition simRound (order : nat -> list (string * Tipset) -> list (string * Tipset))
           (lbp : Z) (st : simState) : M simState :=
  updated ← lift (setHead (simCt st) (simBlocks st));
  let '(ct, blocks) := updated in
  let ct := fold_left recordBlock blocks ct in
  let curH := match blocks with
              | [] => currentHeight st
              | b0 :: _ => Height b0
              end in
  let ct := match blocks with
            | [] => ct
            | _ :: _ => withLive ct curH blocks
            end in
  _ ← lift (if forallb (fun blk => curH =? Height blk) blocks
            then Ok tt else Panicked heightPanic);
  ats ← lift (allTipsets blocks);
  atsforks ← lift (forksOfAll ats);
  mined ← mineAll order 0 (miners ct) ct atsforks lbp;
  let '(newBlocks, ms, ct') := mined in
  mret {| simCt := withMiners ct' ms; simBlocks := newBlocks; currentHeight := curH |}.

(** [n] rounds from round number [round] on; [order round i] is the order of
    the [range] of miner [i] in that round. *)
Fixpoint simRounds (order : nat -> nat -> list (string * Tipset) -> list (string * Tipset))
         (lbp : Z) (n round : nat) (st : simState) : M simState :=
  match n with
  | O => mret st
  | S n' =>
      st' ← simRound (order round) lbp st;
      simRounds order lbp n' (S round) st'
  end.

Definition setTrial (seed : Z) : M unit := fun w =>
  Ok (tt, mkWorld 0 (rand_Seed seed) (crandStream w) (crandPos w)).

(** [runSim] up to the loop: the trial's generator, [uniqueID = 0], the
    miners, the tracker, genesis and the first head. *)
Definition simStart (totalMiners lbp : Z) : M simState :=
  seed ← randInt (2 ^ 62);
  _ ← setTrial seed;
  _ ← lift (if totalMiners <? 0 then Panicked MakeSliceLen else Ok tt);
  gen ← makeGen lbp totalMiners;
  hd ← lift (NewTipset [gen]);
  let ms := map (fun m => NewRationalMiner (Z.of_nat m)
                            (PrimFloat.div 1%float (float64_of_int totalMiners))
                            totalMiners)
                (seq 0 (Z.to_nat totalMiners)) in
  mret {| simCt := withHead (NewChainTracker ms) (Some hd);
          simBlocks := [gen];
          currentHeight := 0 |}.

(** [runSim]; the tracker sent on the channel is the result. *)
Definition runSim (order : nat -> nat -> list (string * Tipset) -> list (string * Tipset))
           (totalMiners roundNum lbp : Z) : M chainTracker :=
  st ← simStart totalMiners lbp;
  st' ← simRounds order lbp (Z.to_nat roundNum) 0 st;
  mret (withMaxHeight (simCt st') (int_sub roundNum 1)).

(** The trials of [main], in the schedule in which every [go runSim(...)]
    runs to its end before the next one starts. *)
Fixpoint runTrials
         (order : nat -> nat -> nat -> list (string * Tipset) -> list (string * Tipset))
         (totalMiners roundNum lbp : Z) (n trial : nat) : M (list chainTracker) :=
  match n with
  | O => mret []
  | S n' =>
      ct ← runSim (order trial) totalMiners roundNum lbp;
      cts ← runTrials order totalMiners roundNum lbp n' (S trial);
      mret (ct :: cts)
  end.

Definition trialsPanic : panic :=
  PanicMsg "None of your assumptions have been proven wrong".

(** [main], from the parsed flags to the collected trackers [cts]. *)
Definition main
           (order : nat -> nat -> nat -> list (string * Tipset) -> list (string * Tipset))
           (lbp roundNum totalMiners trials : Z) : M (list chainTracker) :=
  if trials <=? 0 then lift (Panicked trialsPanic)
  else runTrials order totalMiners roundNum lbp (Z.to_nat trials) 0.

(** * Properties *)

(** ** Machine integers and the monads *)

Lemma wrap_int_id (z : Z) : in_int z -> wrap_int z = z.
Proof.
  unfold in_int, int_min, int_max, wrap_int. intros Hz.
  rewrite Z.mod_small; lia.
Qed.

Lemma wrap_uint64_id (z : Z) : 0 <= z < 2 ^ 64 -> wrap_uint64 z = z.
Proof. unfold wrap_uint64. intros Hz. apply Z.mod_small. exact Hz. Qed.

Lemma rbind_Ok {A B} (r : result A) (k : A -> result B) (b : B) :
  (r ≫= k) = Ok b -> exists a, r = Ok a /\ k a = Ok b.
Proof.
  unfold mbind, result_bind, rbind. destruct r as [a|e]; [|discriminate].
  intros Hk. exists a. split; [reflexivity | exact Hk].
Qed.

Lemma Mbind_Ok {A B} (m : M A) (k : A -> M B) (w w' : world) (b : B) :
  (m ≫= k) w = Ok (b, w') ->
  exists a w1, m w = Ok (a, w1) /\ k a w1 = Ok (b, w').
Proof.
  unfold mbind, M_bind. destruct (m w) as [[a w1]|e]; [|discriminate].
  intros Hk. exists a, w1. split; [reflexivity | exact Hk].
Qed.

Lemma lift_Ok {A} (r : result A) (w w' : world) (a : A) :
  lift r w = Ok (a, w') -> r = Ok a /\ w' = w.
Proof.
  unfold lift. destruct r as [x|e]; [|discriminate].
  intros [= -> ->]. split; reflexivity.
Qed.

Lemma mret_Ok {A} (a b : A) (w w' : world) :
  (mret a : M A) w = Ok (b, w') -> b = a /\ w' = w.
Proof. unfold mret, M_ret. intros [= -> ->]. split; reflexivity. Qed.

(** Take apart a successful run of a monadic program, bind by bind. *)
Ltac run_ok H :=
  lazymatch type of H with
  | (_ ≫= _) _ = Ok _ =>
      let a := fresh "a" in let w := fresh "w" in
      let H1 := fresh "Hrun" in
      apply Mbind_Ok in H; destruct H as (a & w & H1 & H)
  | (_ ≫= _) = Ok _ =>
      let a := fresh "a" in let H1 := fresh "Hrun" in
      apply rbind_Ok in H; destruct H as (a & H1 & H)
  | lift _ _ = Ok _ =>
      let E := fresh "Ew" in apply lift_Ok in H; destruct H as [H E]; subst
  | mret _ _ = Ok _ =>
      let E := fresh "Ew" in apply mret_Ok in H; destruct H as [H E]; subst
  end.

(** ** Sorting *)

Lemma sortBlocks_length (l : list Block) : length (sortBlocks l) = length l.
Proof. apply Permutation_length, sortBlocks_perm. Qed.

Lemma sortBlocks_cons (b : Block) (l : list Block) :
  exists b0 rest, sortBlocks (b :: l) = b0 :: rest.
Proof.
  pose proof (sortBlocks_length (b :: l)) as Hlen.
  destruct (sortBlocks (b :: l)) as [|b0 rest]; [discriminate|].
  exists b0, rest. reflexivity.
Qed.

Lemma sortBlocks_singleton (b : Block) : sortBlocks [b] = [b].
Proof.
  apply Permutation_length_1_inv, Permutation_sym, sortBlocks_perm.
Qed.

(** A list ascending in [Seed] that rearranges a list strictly ascending in
    [Seed] is that list. *)
Lemma sorted_perm_strict (l1 l2 : list Block) :
  Permutation l1 l2 ->
  StronglySorted seed_le l1 ->
  StronglySorted (fun a b => Seed a < Seed b) l2 ->
  l1 = l2.
Proof.
  revert l1. induction l2 as [|y l2 IH]; intros l1 Hp H1 H2.
  - apply Permutation_sym, Permutation_nil in Hp. exact Hp.
  - destruct l1 as [|x l1].
    + apply Permutation_nil in Hp. discriminate.
    + apply StronglySorted_inv in H1 as [H1 Hx].
      apply StronglySorted_inv in H2 as [H2 Hy].
      assert (x = y) as ->.
      { assert (In y (x :: l1)) as Hin
          by (eapply Permutation_in; [apply Permutation_sym, Hp | left; reflexivity]).
        assert (In x (y :: l2)) as Hin'
          by (eapply Permutation_in; [apply Hp | left; reflexivity]).
        destruct Hin as [E|Hin]; [exact E|].
        destruct Hin' as [E|Hin']; [symmetry; exact E|].
        rewrite Forall_forall in Hx, Hy.
        apply list_elem_of_In, Hx in Hin. apply list_elem_of_In, Hy in Hin'.
        unfold seed_le in Hin. lia. }
      f_equal. apply IH; [|exact H1|exact H2].
      eapply Permutation_cons_inv. exact Hp.
Qed.

(** ** NewTipset *)

Lemma NewTipset_inv (blocks : list Block) (ts : Tipset) :
  NewTipset blocks = Ok ts ->
  blocks <> [] /\
  exists b0 rest,
    sortBlocks blocks = b0 :: rest /\
    ts = {| Blocks := b0 :: rest;
            Name := stringifyBlocks (b0 :: rest);
            MinTicket := minTicketOf (Seed b0) (b0 :: rest);
            WasHead := false;
            Weight := if negb (Null b0)
                      then int_add (ParentWeight b0) (Z.of_nat (length (b0 :: rest)))
                      else ParentWeight b0 |}.
Proof.
  unfold NewTipset. destruct blocks as [|b l]; [discriminate|].
  destruct (sortBlocks (b :: l)) as [|b0 rest] eqn:Es; [discriminate|].
  intros [= <-]. split; [discriminate|].
  exists b0, rest. split; reflexivity.
Qed.

Lemma NewTipset_cons (b : Block) (l : list Block) :
  exists ts, NewTipset (b :: l) = Ok ts.
Proof.
  unfold NewTipset. destruct (sortBlocks_cons b l) as (b0 & rest & ->).
  eexists. reflexivity.
Qed.

Lemma NewTipset_Blocks (blocks : list Block) (ts : Tipset) :
  NewTipset blocks = Ok ts -> Blocks ts = sortBlocks blocks.
Proof.
  intros H. apply NewTipset_inv in H as (_ & b0 & rest & Es & ->).
  simpl. symmetry. exact Es.
Qed.

Lemma NewTipset_perm (blocks : list Block) (ts : Tipset) :
  NewTipset blocks = Ok ts -> Permutation (Blocks ts) blocks.
Proof.
  intros H. rewrite (NewTipset_Blocks _ _ H). apply sortBlocks_perm.
Qed.

Lemma NewTipset_sorted (blocks : list Block) (ts : Tipset) :
  NewTipset blocks = Ok ts -> StronglySorted seed_le (Blocks ts).
Proof.
  intros H. rewrite (NewTipset_Blocks _ _ H). apply sortBlocks_sorted.
Qed.

Lemma NewTipset_length (blocks : list Block) (ts : Tipset) :
  NewTipset blocks = Ok ts -> length (Blocks ts) = length blocks.
Proof. intros H. apply Permutation_length, NewTipset_perm, H. Qed.

Lemma NewTipset_singleton (b : Block) :
  NewTipset [b] =
  Ok {| Blocks := [b];
        Name := Itoa (Nonce b);
        MinTicket := Seed b;
        WasHead := false;
        Weight := if negb (Null b) then int_add (ParentWeight b) 1 else ParentWeight b |}.
Proof.
  unfold NewTipset. rewrite sortBlocks_singleton. simpl.
  unfold minTicketOf. simpl. rewrite Z.ltb_irrefl. reflexivity.
Qed.


(** The weight the specification gives a tipset: the first block's parent
    weight, plus nothing when every member is null and plus the number of
    members otherwise. *)
Definition specWeight (ts : Tipset) : Z :=
  match Blocks ts with
  | [] => 0
  | b0 :: _ =>
      ParentWeight b0 +
      (if forallb Null (Blocks ts) then 0 else Z.of_nat (length (Blocks ts)))
  end.

Lemma forallb_perm {A} (f : A -> bool) (l1 l2 : list A) :
  Permutation l1 l2 -> forallb f l1 = forallb f l2.
Proof.
  induction 1 as [|x l1 l2 _ IH|x y l|l1 l2 l3 _ IH1 _ IH2]; simpl.
  - reflexivity.
  - rewrite IH. reflexivity.
  - destruct (f x), (f y); reflexivity.
  - rewrite IH1. exact IH2.
Qed.


(** ** forksFromTipset *)

Lemma forksFromBlocks_spec (blocks : list Block) :
  exists forks,
    forksFromBlocks blocks = Ok forks /\
    length forks = length blocks /\
    forall i fork, forks !! i = Some fork -> NewTipset (drop i blocks) = Ok fork.
Proof.
  induction blocks as [|b rest IH].
  - exists []. split; [reflexivity|]. split; [reflexivity|].
    intros i fork Hi. rewrite lookup_nil in Hi. discriminate.
  - destruct IH as (forks & Hforks & Hlen & Hnth).
    destruct (NewTipset_cons b rest) as [fork0 Hfork0].
    exists (fork0 :: forks). split.
    + cbn [forksFromBlocks]. rewrite Hfork0. cbn [mbind result_bind rbind].
      rewrite Hforks. reflexivity.
    + split; [simpl; rewrite Hlen; reflexivity|].
      intros [|i] fork Hi; simpl in Hi.
      * injection Hi as <-. exact Hfork0.
      * simpl drop. apply Hnth. exact Hi.
Qed.

Lemma StronglySorted_drop {A} (R : A -> A -> Prop) (l : list A) (i : nat) :
  StronglySorted R l -> StronglySorted R (drop i l).
Proof.
  intros H. rewrite <- (take_drop i l) in H.
  apply StronglySorted_app in H as (_ & _ & H). exact H.
Qed.

(** C3.  For a tipset of [n] blocks ascending in seed, [forksFromTipset]
    returns [n] forks; fork [i] holds the [n - i] blocks [Blocks[i:]],
    ascending in seed, so each block it leaves out has a seed no greater
    than each block it keeps; it is that very suffix when the seeds are
    distinct, and the last fork is the last block alone. *)
Theorem forksFromTipset_suffixes (ts : Tipset) :
  StronglySorted seed_le (Blocks ts) ->
  exists forks,
    forksFromTipset ts = Ok forks /\
    length forks = length (Blocks ts) /\
    forall i fork, forks !! i = Some fork ->
      Permutation (Blocks fork) (drop i (Blocks ts)) /\
      length (Blocks fork) = (length (Blocks ts) - i)%nat /\
      StronglySorted seed_le (Blocks fork) /\
      (forall a b, In a (take i (Blocks ts)) -> In b (Blocks fork) -> Seed a <= Seed b) /\
      (StronglySorted (fun a b => Seed a < Seed b) (Blocks ts) ->
       Blocks fork = drop i (Blocks ts)) /\
      (forall b, S i = length (Blocks ts) -> Blocks ts !! i = Some b ->
                 Blocks fork = [b]).
Proof.
  intros Hsorted. unfold forksFromTipset.
  destruct (forksFromBlocks_spec (Blocks ts)) as (forks & Hforks & Hlen & Hnth).
  exists forks. split; [exact Hforks|]. split; [exact Hlen|].
  intros i fork Hi. specialize (Hnth i fork Hi).
  pose proof (NewTipset_perm _ _ Hnth) as Hperm.
  split; [exact Hperm|].
  split; [rewrite (Permutation_length Hperm), length_drop; reflexivity|].
  split; [apply NewTipset_sorted in Hnth; exact Hnth|].
  split.
  - intros a b Ha Hb.
    assert (In b (drop i (Blocks ts))) as Hb'
      by (eapply Permutation_in; [exact Hperm | exact Hb]).
    rewrite <- (take_drop i (Blocks ts)) in Hsorted.
    apply list_elem_of_In in Ha. apply list_elem_of_In in Hb'.
    exact (StronglySorted_app_1_elem_of _ _ _ _ _ Hsorted Ha Hb').
  - split.
    + intros Hstrict. apply sorted_perm_strict.
      * exact Hperm.
      * apply NewTipset_sorted in Hnth. exact Hnth.
      * apply StronglySorted_drop. exact Hstrict.
    + intros b Hlast Hb.
      assert (drop i (Blocks ts) = [b]) as Hd.
      { rewrite (drop_S _ _ _ Hb). rewrite drop_ge; [reflexivity|]. lia. }
      rewrite Hd in Hperm. apply Permutation_sym, Permutation_length_1_inv in Hperm.
      exact Hperm.
Qed.

(** ** allTipsets *)

(** The test of [allTipsets] where it does not panic. *)
Definition sameGroup (blk1 blk2 : Block) : bool :=
  match sameTipset blk1 blk2 with
  | Ok same => same
  | Panicked _ => false
  end.

Lemma collectTipset_spec (blk1 : Block) (later tipset members : list Block) :
  collectTipset blk1 later tipset = Ok members ->
  members = tipset ++ filter (fun blk2 => sameGroup blk1 blk2 = true) later.
Proof.
  revert tipset. induction later as [|blk2 rest IH]; intros tipset H.
  - simpl in H. injection H as <-. rewrite app_nil_r. reflexivity.
  - cbn [collectTipset] in H. apply rbind_Ok in H as (same & Hsame & H).
    apply IH in H. subst members.
    assert (sameGroup blk1 blk2 = same) as Hg
      by (unfold sameGroup; rewrite Hsame; reflexivity).
    rewrite filter_cons. destruct same.
    + rewrite decide_True by exact Hg. rewrite <- app_assoc. reflexivity.
    + rewrite decide_False by (rewrite Hg; discriminate). reflexivity.
Qed.

(** What [allTipsets] returns: one tipset for every block of the slice, made
    of that block and the later blocks of its height and parent name. *)
Lemma allTipsets_per_block (blks : list Block) (tipsets : list Tipset) :
  allTipsets blks = Ok tipsets ->
  length tipsets = length blks /\
  forall i ts blk, tipsets !! i = Some ts -> blks !! i = Some blk ->
    Permutation (Blocks ts)
                (blk :: filter (fun blk2 => sameGroup blk blk2 = true) (drop (S i) blks)).
Proof.
  revert tipsets. induction blks as [|blk1 later IH]; intros tipsets H.
  - simpl in H. injection H as <-. split; [reflexivity|].
    intros i ts blk Hi. rewrite lookup_nil in Hi. discriminate.
  - cbn [allTipsets] in H.
    apply rbind_Ok in H as (members & Hmem & H).
    apply rbind_Ok in H as (ts1 & Hts1 & H).
    apply rbind_Ok in H as (others & Hothers & H).
    injection H as <-. destruct (IH _ Hothers) as [Hlen Hnth].
    split; [simpl; rewrite Hlen; reflexivity|].
    intros [|i] ts blk Hi Hb; simpl in Hi, Hb.
    + injection Hi as <-. injection Hb as <-.
      apply collectTipset_spec in Hmem. subst members.
      simpl drop. apply NewTipset_perm in Hts1. exact Hts1.
    + simpl drop. apply (Hnth i ts blk Hi Hb).
Qed.

Lemma allTipsets_members (blks : list Block) (tipsets : list Tipset) :
  allTipsets blks = Ok tipsets ->
  forall ts b, In ts tipsets -> In b (Blocks ts) -> In b blks.
Proof.
  intros H ts b Hts Hb. destruct (allTipsets_per_block _ _ H) as [Hlen Hnth].
  apply list_elem_of_In, list_elem_of_lookup in Hts as [i Hi].
  assert (i < length blks)%nat as Hlt
    by (rewrite <- Hlen; eapply lookup_lt_Some; exact Hi).
  destruct (lookup_lt_is_Some_2 blks i Hlt) as [blk Hblk].
  pose proof (Hnth i ts blk Hi Hblk) as Hperm.
  eapply Permutation_in in Hb; [|exact Hperm].
  destruct Hb as [<-|Hb].
  - apply list_elem_of_In, list_elem_of_lookup. exists i. exact Hblk.
  - apply list_elem_of_In, list_elem_of_filter in Hb as [_ Hb].
    apply list_elem_of_In. eapply subseteq_drop. exact Hb.
Qed.

(** ** setHead *)

(** [c] is a better head than [h]: heavier, or as heavy with a smaller
    least ticket. *)
Definition betterHead (h c : Tipset) : Prop :=
  Weight h < Weight c \/ (Weight c = Weight h /\ MinTicket c < MinTicket h).

(** [c] is at least as good a head as [h]. *)
Definition goodAsHead (h c : Tipset) : Prop :=
  Weight h < Weight c \/ (Weight c = Weight h /\ MinTicket c <= MinTicket h).

Lemma replacesHead_true (h c : Tipset) : replacesHead h c = true <-> betterHead h c.
Proof.
  unfold replacesHead, betterHead.
  destruct (Z.ltb_spec (Weight h) (Weight c)); [intuition lia|].
  destruct (Z.eqb_spec (Weight c) (Weight h)).
  - destruct (Z.ltb_spec (MinTicket c) (MinTicket h)); intuition (try lia; discriminate).
  - intuition (try lia; discriminate).
Qed.

Lemma replacesHead_false (h c : Tipset) : replacesHead h c = false <-> goodAsHead c h.
Proof.
  unfold replacesHead, goodAsHead.
  destruct (Z.ltb_spec (Weight h) (Weight c)); [intuition (try lia; discriminate)|].
  destruct (Z.eqb_spec (Weight c) (Weight h)).
  - destruct (Z.ltb_spec (MinTicket c) (MinTicket h)); intuition (try lia; discriminate).
  - intuition lia.
Qed.

Lemma goodAsHead_refl (h : Tipset) : goodAsHead h h.
Proof. unfold goodAsHead. right. split; [reflexivity | lia]. Qed.

Lemma goodAsHead_trans (a b c : Tipset) :
  goodAsHead a b -> goodAsHead b c -> goodAsHead a c.
Proof. unfold goodAsHead. intuition lia. Qed.

Lemma betterHead_goodAsHead (a b : Tipset) : betterHead a b -> goodAsHead a b.
Proof. unfold betterHead, goodAsHead. intuition lia. Qed.

Lemma goodAsHead_betterHead (a b c : Tipset) :
  goodAsHead a b -> betterHead b c -> betterHead a c.
Proof. unfold betterHead, goodAsHead. intuition lia. Qed.

(** The loop of [setHead] keeps the running best: its candidate is at least
    as good as every tipset seen and as the candidate it started from, and
    it moved exactly when some tipset was better than the start. *)
Lemma setHeadLoop_spec (tipsets : list Tipset) (c : Tipset) (moved : bool)
      (final : option Tipset) (moved' : bool) :
  setHeadLoop tipsets (Some c) moved = Ok (final, moved') ->
  exists c',
    final = Some c' /\
    Forall (fun ts => goodAsHead ts c') tipsets /\
    ((c' = c /\ moved' = moved /\ Forall (fun ts => replacesHead c ts = false) tipsets) \/
     (In c' tipsets /\ moved' = true /\ betterHead c c')).
Proof.
  revert c moved. induction tipsets as [|ts rest IH]; intros c moved H.
  - simpl in H. injection H as <- <-. exists c.
    split; [reflexivity|]. split; [constructor|].
    left. split; [reflexivity|]. split; [reflexivity | constructor].
  - cbn [setHeadLoop] in H. destruct (replacesHead c ts) eqn:Er.
    + apply IH in H as (c' & -> & Hall & Hcase). exists c'.
      split; [reflexivity|].
      apply replacesHead_true in Er.
      assert (goodAsHead ts c') as Hts.
      { destruct Hcase as [(-> & _ & _)|(_ & _ & Hb)].
        - apply goodAsHead_refl.
        - apply betterHead_goodAsHead. exact Hb. }
      split; [constructor; assumption|].
      right. destruct Hcase as [(-> & -> & _)|(Hin & -> & Hb)].
      * split; [left; reflexivity|]. split; [reflexivity | exact Er].
      * split; [right; exact Hin|]. split; [reflexivity|].
        eapply goodAsHead_betterHead; [apply betterHead_goodAsHead; exact Er | exact Hb].
    + apply IH in H as (c' & -> & Hall & Hcase). exists c'.
      split; [reflexivity|].
      assert (goodAsHead c c') as Hcc.
      { destruct Hcase as [(-> & _ & _)|(_ & _ & Hb)].
        - apply goodAsHead_refl.
        - apply betterHead_goodAsHead. exact Hb. }
      split.
      * constructor; [|exact Hall].
        apply replacesHead_false in Er. eapply goodAsHead_trans; eassumption.
      * destruct Hcase as [(-> & -> & Hnone)|(Hin & -> & Hb)].
        -- left. split; [reflexivity|]. split; [reflexivity|].
           constructor; assumption.
        -- right. split; [right; exact Hin|]. split; [reflexivity | exact Hb].
Qed.

(** [setHead] on a tracker with a head: either no tipset of the round is
    better than the head and nothing changes, or the head becomes the
    tipset of the round that is better than the old head and at least as
    good as every tipset of the round. *)
Lemma setHead_spec (ct ct' : chainTracker) (blocks blocks' : list Block) (h : Tipset) :
  setHead ct blocks = Ok (ct', blocks') ->
  head ct = Some h ->
  exists tipsets,
    allTipsets blocks = Ok tipsets /\
    ((Forall (fun ts => replacesHead h ts = false) tipsets /\
      ct' = ct /\ blocks' = blocks) \/
     (exists c, In c tipsets /\ betterHead h c /\
                Forall (fun ts => goodAsHead ts c) tipsets /\
                ct' = withHead ct (Some (markWasHead c)) /\
                blocks' = markBlocks (Blocks c) blocks)).
Proof.
  unfold setHead. intros H Hh.
  apply rbind_Ok in H as (tipsets & Hts & H).
  apply rbind_Ok in H as ([final moved] & Hloop & H).
  exists tipsets. split; [exact Hts|].
  rewrite Hh in Hloop. apply setHeadLoop_spec in Hloop as (c' & -> & Hall & Hcase).
  destruct Hcase as [(-> & -> & Hnone)|(Hin & -> & Hb)].
  - injection H as <- <-. left. repeat split; assumption.
  - injection H as <- <-. right. exists c'. repeat split; assumption.
Qed.

(** ** generateBlock and Mine: what they read and write *)

Lemma getUniqueID_spec (w w' : world) (n : Z) :
  getUniqueID w = Ok (n, w') ->
  n = int_sub (int_add (uniqueID w) 1) 1 /\
  uniqueID w' = int_add (uniqueID w) 1 /\
  trialRand w' = trialRand w /\
  crandStream w' = crandStream w /\ crandPos w' = crandPos w.
Proof. unfold getUniqueID. intros [= <- <-]. simpl. repeat split. Qed.

Lemma int_sub_add_1 (u : Z) : in_int u -> int_sub (int_add u 1) 1 = u.
Proof.
  unfold in_int, int_min, int_max, int_sub, int_add, wrap_int. intros Hu.
  destruct (Z.eq_dec u (2 ^ 63 - 1)) as [->|Hne]; [reflexivity|].
  rewrite (Z.mod_small (u + 1 + 2 ^ 63)) by lia.
  rewrite Z.mod_small by lia. lia.
Qed.

Lemma generateTicket_spec (m : RationalMiner) (minTicket : Z) (w w' : world) (t : Z) :
  generateTicket m minTicket w = Ok (t, w') ->
  t = wrap_uint64
        (fst (rand_Int63n
                (rand_Seed (wrap_int (uint64_add minTicket (wrap_uint64 (ID m)))))
                (wrap_int bigOlNum))) /\
  uniqueID w' = uniqueID w /\
  crandStream w' = crandStream w /\ crandPos w' = crandPos w.
Proof. unfold generateTicket. intros [= <- <-]. simpl. repeat split. Qed.

(** A ticket is below [bigOlNum]. *)
Lemma generateTicket_range (m : RationalMiner) (minTicket : Z) (w w' : world) (t : Z) :
  generateTicket m minTicket w = Ok (t, w') -> 0 <= t < bigOlNum.
Proof.
  intros H. apply generateTicket_spec in H as (-> & _).
  match goal with |- context [rand_Int63n ?r ?n] =>
    pose proof (rand_Int63n_range r n) as Hr end.
  change (wrap_int bigOlNum) with 100000 in *. unfold bigOlNum.
  rewrite wrap_uint64_id; lia.
Qed.

(** The ticket a miner draws from a least ticket: a function of the two. *)
Definition ticketOf (m : RationalMiner) (minTicket : Z) : Z :=
  wrap_uint64
    (fst (rand_Int63n
            (rand_Seed (wrap_int (uint64_add minTicket (wrap_uint64 (ID m)))))
            (wrap_int bigOlNum))).

Lemma generateBlock_spec (m : RationalMiner) (parents : Tipset) (lbp : Z)
      (w w' : world) (blk : Block) :
  generateBlock m parents lbp w = Ok (blk, w') ->
  exists lb lb1 lp h,
    lookbackTipset (Some parents) lbp = Ok (Some lb) /\
    lookbackTipset (Some parents) 1 = Ok (Some lb1) /\
    liveParentsOfTipset parents = Ok lp /\
    getHeight parents = Ok h /\
    blk = {| Nonce := int_sub (int_add (uniqueID w) 1) 1;
             Parents := Some parents;
             Owner := ID m;
             Height := int_add h 1;
             Null := negb (isWinningTicket (ticketOf m (MinTicket lb)) (Power m));
             ParentWeight := Weight lp;
             Seed := ticketOf m (MinTicket lb1);
             InHead := false |} /\
    uniqueID w' = int_add (uniqueID w) 1 /\
    crandStream w' = crandStream w /\ crandPos w' = crandPos w.
Proof.
  unfold generateBlock. intros H.
  apply Mbind_Ok in H as (lottery & w1 & H1 & H). apply lift_Ok in H1 as [H1 ->].
  apply rbind_Ok in H1 as (lb & Hlb & H1).
  destruct lb as [lb|]; [|discriminate]. injection H1 as <-.
  apply Mbind_Ok in H as (lastT & w1 & H2 & H). apply lift_Ok in H2 as [H2 ->].
  apply rbind_Ok in H2 as (lb1 & Hlb1 & H2).
  destruct lb1 as [lb1|]; [|discriminate]. injection H2 as <-.
  apply Mbind_Ok in H as (lp & w1 & H3 & H). apply lift_Ok in H3 as [H3 ->].
  apply Mbind_Ok in H as (t & w1 & H4 & H).
  apply generateTicket_spec in H4 as (-> & Hu1 & Hs1 & Hp1).
  apply Mbind_Ok in H as (nonce & w2 & H5 & H).
  apply getUniqueID_spec in H5 as (-> & Hu2 & _ & Hs2 & Hp2).
  apply Mbind_Ok in H as (h & w3 & H6 & H). apply lift_Ok in H6 as [H6 ->].
  apply Mbind_Ok in H as (proof & w3 & H7 & H).
  apply generateTicket_spec in H7 as (-> & Hu3 & Hs3 & Hp3).
  apply mret_Ok in H as [-> ->].
  exists lb, lb1, lp, h. rewrite Hu1. fold (ticketOf m (MinTicket lb)).
  fold (ticketOf m (MinTicket lb1)).
  repeat split; try assumption; congruence.
Qed.

Lemma recordBlock_head (ct : chainTracker) (blk : Block) :
  head (recordBlock ct blk) = head ct.
Proof. reflexivity. Qed.

Lemma fold_recordBlock_head (blocks : list Block) (ct : chainTracker) :
  head (fold_left recordBlock blocks ct) = head ct.
Proof.
  revert ct. induction blocks as [|b l IH]; intros ct; [reflexivity|].
  simpl. rewrite IH. reflexivity.
Qed.

Lemma considerBlock_head (v : mineVars) (blk : Block) :
  head (mineCt (considerBlock v blk)) = head (mineCt v).
Proof.
  unfold considerBlock.
  destruct (negb (Null blk) && (maxWeight v <? ParentWeight blk)); [reflexivity|].
  destruct (Null blk && negb (is_Some_bool (bestBlock v))); reflexivity.
Qed.

Lemma mineStep_spec (m : RationalMiner) (lbp : Z) (v v' : mineVars)
      (entry : string * Tipset) (w w' : world) :
  mineStep m lbp v entry w = Ok (v', w') ->
  exists blk,
    generateBlock m (snd entry) lbp w = Ok (blk, w') /\ v' = considerBlock v blk.
Proof.
  unfold mineStep. intros H.
  apply Mbind_Ok in H as (blk & w1 & Hgen & H). exists blk.
  apply mret_Ok in H as [-> ->]. split; [exact Hgen | reflexivity].
Qed.

Lemma mineStep_head (m : RationalMiner) (lbp : Z) (v v' : mineVars)
      (entry : string * Tipset) (w w' : world) :
  mineStep m lbp v entry w = Ok (v', w') -> head (mineCt v') = head (mineCt v).
Proof.
  intros H. apply mineStep_spec in H as (blk & _ & ->). apply considerBlock_head.
Qed.

Lemma mineLoop_head (m : RationalMiner) (lbp : Z) (entries : list (string * Tipset))
      (v v' : mineVars) (w w' : world) :
  mineLoop m lbp entries v w = Ok (v', w') -> head (mineCt v') = head (mineCt v).
Proof.
  revert v w. induction entries as [|e rest IH]; intros v w H.
  - apply mret_Ok in H as [-> _]. reflexivity.
  - cbn [mineLoop] in H. apply Mbind_Ok in H as (v1 & w1 & H1 & H).
    apply IH in H. apply mineStep_head in H1. congruence.
Qed.

Lemma Mine_head order (m m' : RationalMiner) (ct ct' : chainTracker)
      (atsforks : list (list Tipset)) (lbp : Z) (blk : option Block) (w w' : world) :
  Mine order m ct atsforks lbp w = Ok (blk, m', ct', w') -> head ct' = head ct.
Proof.
  unfold Mine. intros H. apply Mbind_Ok in H as (v & w1 & Hloop & H).
  apply mineLoop_head in Hloop. simpl in Hloop.
  destruct (bestBlock v).
  - apply mret_Ok in H as [[= _ _ ->] _]. exact Hloop.
  - apply Mbind_Ok in H as (pf & w2 & _ & H).
    apply mret_Ok in H as [[= _ _ ->] _]. exact Hloop.
Qed.

Lemma mineAll_head order (i : nat) (ms ms' : list RationalMiner) (ct ct' : chainTracker)
      (atsforks : list (list Tipset)) (lbp : Z) (newBlocks : list Block) (w w' : world) :
  mineAll order i ms ct atsforks lbp w = Ok (newBlocks, ms', ct', w') ->
  head ct' = head ct.
Proof.
  revert i ct newBlocks ms' ct' w. induction ms as [|m rest IH];
    intros i ct newBlocks ms' ct' w H.
  - apply mret_Ok in H as [[= _ _ ->] _]. reflexivity.
  - cbn [mineAll] in H. apply Mbind_Ok in H as ([[blk m1] ct1] & w1 & Hm & H).
    apply Mbind_Ok in H as ([[nb rest1] ct2] & w2 & Hrest & H).
    apply mret_Ok in H as [[= _ _ ->] ->].
    apply IH in Hrest. apply Mine_head in Hm. congruence.
Qed.

(** ** A round *)

(** [currentHeight] after the round read [blocks]. *)
Definition roundHeight (st : simState) (blocks : list Block) : Z :=
  match blocks with
  | [] => currentHeight st
  | b0 :: _ => Height b0
  end.

(** The tracker after the round recorded [blocks]. *)
Definition roundRecord (ct : chainTracker) (h : Z) (blocks : list Block) : chainTracker :=
  match blocks with
  | [] => fold_left recordBlock blocks ct
  | _ :: _ => withLive (fold_left recordBlock blocks ct) h blocks
  end.

Lemma roundRecord_head (ct : chainTracker) (h : Z) (blocks : list Block) :
  head (roundRecord ct h blocks) = head ct.
Proof.
  unfold roundRecord. destruct blocks as [|b l]; [reflexivity|].
  unfold withLive. cbn [head]. apply fold_recordBlock_head.
Qed.

Lemma simRound_spec order (lbp : Z) (st st' : simState) (w w' : world) :
  simRound order lbp st w = Ok (st', w') ->
  exists ct1 blocks1 ats atsforks newBlocks ms ct2,
    setHead (simCt st) (simBlocks st) = Ok (ct1, blocks1) /\
    forallb (fun blk => roundHeight st blocks1 =? Height blk) blocks1 = true /\
    allTipsets blocks1 = Ok ats /\
    forksOfAll ats = Ok atsforks /\
    mineAll order 0 (miners (roundRecord ct1 (roundHeight st blocks1) blocks1))
            (roundRecord ct1 (roundHeight st blocks1) blocks1) atsforks lbp w
    = Ok (newBlocks, ms, ct2, w') /\
    st' = {| simCt := withMiners ct2 ms;
             simBlocks := newBlocks;
             currentHeight := roundHeight st blocks1 |}.
Proof.
  unfold simRound. intros H.
  apply Mbind_Ok in H as ([ct1 blocks1] & w1 & H1 & H). apply lift_Ok in H1 as [H1 ->].
  apply Mbind_Ok in H as ([] & w1 & H2 & H). apply lift_Ok in H2 as [H2 ->].
  apply Mbind_Ok in H as (ats & w1 & H3 & H). apply lift_Ok in H3 as [H3 ->].
  apply Mbind_Ok in H as (atsforks & w1 & H4 & H). apply lift_Ok in H4 as [H4 ->].
  apply Mbind_Ok in H as ([[newBlocks ms] ct2] & w1 & H5 & H).
  apply mret_Ok in H as [-> ->].
  exists ct1, blocks1, ats, atsforks, newBlocks, ms, ct2.
  split; [exact H1|]. split.
  { unfold roundHeight.
    destruct (forallb _ blocks1) eqn:E in H2; [|discriminate].
    destruct blocks1; exact E. }
  split; [exact H3|]. split; [exact H4|]. split.
  - unfold roundRecord, roundHeight. destruct blocks1; exact H5.
  - unfold roundHeight. destruct blocks1; reflexivity.
Qed.

Lemma simRound_head order (lbp : Z) (st st' : simState) (w w' : world) :
  simRound order lbp st w = Ok (st', w') ->
  exists ct1 blocks1,
    setHead (simCt st) (simBlocks st) = Ok (ct1, blocks1) /\
    head (simCt st') = head ct1.
Proof.
  intros H. apply simRound_spec in H
    as (ct1 & blocks1 & ats & atsforks & newBlocks & ms & ct2 & H1 & _ & _ & _ & H5 & ->).
  exists ct1, blocks1. split; [exact H1|].
  apply mineAll_head in H5. cbn [simCt withMiners head].
  rewrite H5. apply roundRecord_head.
Qed.

(** The head after [setHead] is the old head or a better one. *)
Lemma setHead_head (ct ct' : chainTracker) (blocks blocks' : list Block) (h : Tipset) :
  setHead ct blocks = Ok (ct', blocks') ->
  head ct = Some h ->
  exists h', head ct' = Some h' /\ (h' = h \/ betterHead h h').
Proof.
  intros H Hh. destruct (setHead_spec _ _ _ _ _ H Hh) as (tipsets & _ & Hcase).
  destruct Hcase as [(_ & -> & _)|(c & _ & Hb & _ & -> & _)].
  - exists h. split; [exact Hh | left; reflexivity].
  - exists (markWasHead c). split; [reflexivity|]. right. exact Hb.
Qed.

Lemma betterHead_trans (a b c : Tipset) : betterHead a b -> betterHead b c -> betterHead a c.
Proof. unfold betterHead. intuition lia. Qed.

(** C2.  [setHead] leaves the tracker and the blocks alone when no tipset
    of the round's blocks is heavier than the head, or as heavy with a
    smaller least ticket (so also in a round without blocks); otherwise the
    new head is such a tipset, one that no tipset of the round beats.  Over
    any number of rounds the head is therefore the head the rounds started
    with or a better one, and its weight never decreases. *)
Theorem head_weight_monotone :
  (forall ct ct' blocks blocks' h,
     setHead ct blocks = Ok (ct', blocks') ->
     head ct = Some h ->
     exists tipsets,
       allTipsets blocks = Ok tipsets /\
       ((Forall (fun ts => replacesHead h ts = false) tipsets /\
         ct' = ct /\ blocks' = blocks) \/
        (exists c, In c tipsets /\ betterHead h c /\
                   Forall (fun ts => goodAsHead ts c) tipsets /\
                   ct' = withHead ct (Some (markWasHead c)) /\
                   blocks' = markBlocks (Blocks c) blocks))) /\
  (forall ct, setHead ct [] = Ok (ct, [])) /\
  (forall order lbp n round st st' w w' h,
     simRounds order lbp n round st w = Ok (st', w') ->
     head (simCt st) = Some h ->
     exists h',
       head (simCt st') = Some h' /\
       Weight h <= Weight h' /\
       (h' = h \/ betterHead h h')).
Proof.
  split; [exact setHead_spec|]. split.
  { intros ct. unfold setHead. simpl. destruct (head ct); reflexivity. }
  intros order lbp n. induction n as [|n IH]; intros round st st' w w' h H Hh.
  - apply mret_Ok in H as [-> _]. exists h.
    split; [exact Hh|]. split; [lia | left; reflexivity].
  - cbn [simRounds] in H. apply Mbind_Ok in H as (st1 & w1 & Hround & H).
    apply simRound_head in Hround as (ct1 & blocks1 & Hset & Hhead).
    destruct (setHead_head _ _ _ _ _ Hset Hh) as (h1 & Hh1 & Hcase).
    rewrite <- Hhead in Hh1.
    destruct (IH _ _ _ _ _ _ H Hh1) as (h' & Hh' & Hw & Hcase').
    exists h'. split; [exact Hh'|].
    assert (h' = h \/ betterHead h h') as Hfinal.
    { destruct Hcase as [->|Hb]; [exact Hcase'|].
      right. destruct Hcase' as [->|Hb']; [exact Hb|].
      eapply betterHead_trans; eassumption. }
    split; [|exact Hfinal].
    destruct Hfinal as [->|Hb]; [lia|]. unfold betterHead in Hb. lia.
Qed.

(** ** Genesis *)

(** A tipset of the chain [makeGen] builds: one block of owner [-1] and
    height [0], on nothing or on another such tipset. *)
Inductive genesisTipset : Tipset -> Prop :=
| genesisTipset_intro (ts : Tipset) (b : Block) :
    Blocks ts = [b] ->
    Name ts = Itoa (Nonce b) ->
    MinTicket ts = Seed b ->
    Weight ts = 1 ->
    Owner b = -1 ->
    Height b = 0 ->
    Null b = false ->
    ParentWeight b = 0 ->
    (forall p, Parents b = Some p -> genesisTipset p) ->
    genesisTipset ts.

Definition genesisChain (gen : option Tipset) : Prop :=
  forall ts, gen = Some ts -> genesisTipset ts.

Lemma randInt_spec (limit : Z) (w w' : world) (n : Z) :
  randInt limit w = Ok (n, w') ->
  0 < limit /\ n = crandStream w (crandPos w) mod limit /\
  uniqueID w' = uniqueID w /\ trialRand w' = trialRand w /\
  crandStream w' = crandStream w /\ crandPos w' = S (crandPos w).
Proof.
  unfold randInt. destruct (Z.leb_spec limit 0); [discriminate|].
  intros [= <- <-]. simpl. repeat split. exact H.
Qed.

Lemma makeGenLoop_spec (totalMiners : Z) (n : nat) (gen g : option Tipset) (w w' : world) :
  makeGenLoop n gen totalMiners w = Ok (g, w') ->
  genesisChain gen ->
  genesisChain g /\ (n <> O -> g <> None) /\ (n = O -> g = gen).
Proof.
  revert gen w. induction n as [|n IH]; intros gen w H Hgen.
  - apply mret_Ok in H as [-> _]. repeat split; [exact Hgen | congruence].
  - cbn [makeGenLoop] in H.
    apply Mbind_Ok in H as (nonce & w1 & _ & H).
    apply Mbind_Ok in H as (seed & w2 & _ & H).
    apply Mbind_Ok in H as (ts & w3 & Hts & H). apply lift_Ok in Hts as [Hts ->].
    rewrite NewTipset_singleton in Hts. injection Hts as <-.
    apply IH in H as (Hg & Hne & H0).
    + split; [exact Hg|]. split; [|discriminate].
      intros _. destruct n; [rewrite H0 by reflexivity; discriminate|].
      apply Hne. discriminate.
    + intros ts [= <-]. eapply genesisTipset_intro; simpl; try reflexivity.
      intros p Hp. simpl in Hp. apply Hgen. exact Hp.
Qed.

Lemma makeGenLoop_ok (totalMiners : Z) (n : nat) (gen : option Tipset) (w : world) :
  0 < wrap_int (int_mul bigOlNum totalMiners) ->
  exists g w', makeGenLoop n gen totalMiners w = Ok (g, w').
Proof.
  intros Hlimit. revert gen w. induction n as [|n IH]; intros gen w.
  - exists gen, w. reflexivity.
  - cbn [makeGenLoop]. unfold mbind at 1, M_bind. cbn [getUniqueID].
    unfold mbind at 1, M_bind. unfold randInt.
    destruct (Z.leb_spec (wrap_int (int_mul bigOlNum totalMiners)) 0); [lia|].
    unfold mbind at 1, M_bind. rewrite NewTipset_singleton. cbn [lift].
    apply IH.
Qed.

Lemma makeGen_spec (lbp totalMiners : Z) (w w' : world) (gen : Block) :
  makeGen lbp totalMiners w = Ok (gen, w') ->
  0 < lbp /\
  exists ts, genesisTipset ts /\ Blocks ts = [gen].
Proof.
  unfold makeGen. intros H.
  apply Mbind_Ok in H as (g & w1 & Hloop & H). apply lift_Ok in H as [H ->].
  destruct g as [ts|]; [|discriminate].
  apply makeGenLoop_spec in Hloop as (Hg & _ & H0); [|intros ? [=]].
  split.
  - destruct (Z.to_nat lbp) eqn:E; [|lia].
    specialize (H0 eq_refl). discriminate.
  - exists ts. specialize (Hg ts eq_refl). split; [exact Hg|].
    inversion Hg as [? b Hb]. rewrite Hb in H |- *. injection H as ->. reflexivity.
Qed.

Lemma makeGen_ok (lbp totalMiners : Z) (w : world) :
  0 < lbp ->
  0 < wrap_int (int_mul bigOlNum totalMiners) ->
  exists gen w', makeGen lbp totalMiners w = Ok (gen, w').
Proof.
  intros Hlbp Hlimit. unfold makeGen.
  destruct (makeGenLoop_ok totalMiners (Z.to_nat lbp) None w Hlimit) as (g & w' & Hloop).
  pose proof Hloop as Hloop'.
  apply makeGenLoop_spec in Hloop' as (Hg & Hne & _); [|intros ? [=]].
  destruct g as [ts|]; [|exfalso; apply Hne; [lia | reflexivity]].
  specialize (Hg ts eq_refl). inversion Hg as [? b Hb].
  exists b, w'. unfold mbind, M_bind. rewrite Hloop. rewrite Hb. reflexivity.
Qed.

(** The miners [runSim] creates. *)
Definition newMiners (totalMiners : Z) : list RationalMiner :=
  map (fun m => NewRationalMiner (Z.of_nat m)
                  (PrimFloat.div 1%float (float64_of_int totalMiners))
                  totalMiners)
      (seq 0 (Z.to_nat totalMiners)).

Lemma simStart_spec (totalMiners lbp : Z) (w w' : world) (st : simState) :
  simStart totalMiners lbp w = Ok (st, w') ->
  0 < lbp /\ 0 <= totalMiners /\
  exists gen hd,
    genesisTipset hd /\ Blocks hd = [gen] /\ NewTipset [gen] = Ok hd /\
    st = {| simCt := withHead (NewChainTracker (newMiners totalMiners)) (Some hd);
            simBlocks := [gen];
            currentHeight := 0 |}.
Proof.
  unfold simStart. intros H.
  apply Mbind_Ok in H as (seed & w1 & _ & H).
  apply Mbind_Ok in H as ([] & w2 & _ & H).
  apply Mbind_Ok in H as ([] & w3 & Hm & H). apply lift_Ok in Hm as [Hm ->].
  apply Mbind_Ok in H as (gen & w3 & Hgen & H).
  apply Mbind_Ok in H as (hd & w4 & Hhd & H). apply lift_Ok in Hhd as [Hhd ->].
  apply mret_Ok in H as [-> ->].
  apply makeGen_spec in Hgen as (Hlbp & ts & Hts & Hb).
  split; [exact Hlbp|]. split.
  { destruct (Z.ltb_spec totalMiners 0); [discriminate | assumption]. }
  exists gen, hd. split; [|split; [|split; [exact Hhd | reflexivity]]].
  - inversion Hts as [? b Hb' Hname Hmin Hw Ho Hh Hn Hpw Hp]. subst.
    rewrite Hb in Hb'. injection Hb' as <-.
    rewrite NewTipset_singleton in Hhd. injection Hhd as <-.
    eapply genesisTipset_intro; simpl; try reflexivity; try assumption.
    rewrite Hn. simpl. rewrite Hpw. reflexivity.
  - rewrite NewTipset_singleton in Hhd. injection Hhd as <-. reflexivity.
Qed.

Lemma simStart_ok (totalMiners lbp : Z) (w : world) :
  0 < lbp -> 0 <= totalMiners ->
  0 < wrap_int (int_mul bigOlNum totalMiners) ->
  exists st w', simStart totalMiners lbp w = Ok (st, w').
Proof.
  intros Hlbp Hm Hlimit. unfold simStart.
  unfold mbind at 1, M_bind. unfold randInt at 1. cbn [Z.leb Z.compare Z.pow Z.pow_pos].
  change (2 ^ 62 <=? 0) with false. cbv iota.
  unfold mbind at 1, M_bind. cbn [setTrial].
  unfold mbind at 1, M_bind.
  destruct (Z.ltb_spec totalMiners 0); [lia|]. cbn [lift].
  unfold mbind at 1, M_bind.
  match goal with |- context [makeGen lbp totalMiners ?w0] =>
    destruct (makeGen_ok lbp totalMiners w0 Hlbp Hlimit) as (gen & w' & ->) end.
  unfold mbind at 1, M_bind. rewrite NewTipset_singleton. cbn [lift].
  eexists _, _. reflexivity.
Qed.

(** ** main *)

Lemma runSim_no_rounds order (totalMiners roundNum lbp : Z) (w : world) :
  roundNum <= 0 ->
  runSim order totalMiners roundNum lbp w =
  (st ← simStart totalMiners lbp;
   mret (withMaxHeight (simCt st) (int_sub roundNum 1))) w.
Proof.
  intros Hr. unfold runSim. replace (Z.to_nat roundNum) with O by lia.
  unfold mbind, M_bind. destruct (simStart totalMiners lbp w) as [[st w']|]; reflexivity.
Qed.

Lemma runTrials_no_rounds order (totalMiners roundNum lbp : Z) (n trial : nat) (w : world) :
  roundNum <= 0 -> 0 < lbp -> 0 <= totalMiners ->
  0 < wrap_int (int_mul bigOlNum totalMiners) ->
  exists cts w',
    runTrials order totalMiners roundNum lbp n trial w = Ok (cts, w') /\
    length cts = n /\
    Forall (fun ct => maxHeight ct = int_sub roundNum 1 /\
                      allBlocks ct = ∅ /\ liveBlocksByHeight ct = ∅ /\
                      exists hd, head ct = Some hd /\ genesisTipset hd) cts.
Proof.
  intros Hr Hlbp Hm Hlimit. revert trial w.
  induction n as [|n IH]; intros trial w.
  - exists [], w. repeat split. constructor.
  - cbn [runTrials]. unfold mbind at 1, M_bind.
    rewrite runSim_no_rounds by exact Hr.
    destruct (simStart_ok totalMiners lbp w Hlbp Hm Hlimit) as (st & w1 & Hst).
    unfold mbind at 1, M_bind. rewrite Hst. cbn [mret M_ret].
    destruct (IH (S trial) w1) as (cts & w' & Hcts & Hlen & Hall).
    unfold mbind, M_bind. rewrite Hcts. cbn [mret M_ret].
    eexists _, _. split; [reflexivity|]. split; [simpl; rewrite Hlen; reflexivity|].
    constructor; [|exact Hall].
    apply simStart_spec in Hst as (_ & _ & gen & hd & Hhd & _ & _ & ->).
    cbn. repeat split. exists hd. split; [reflexivity | exact Hhd].
Qed.


(** ** One miner of power 1.0 *)

Lemma lookbackTipset_1 (tipset : option Tipset) : lookbackTipset tipset 1 = Ok tipset.
Proof. reflexivity. Qed.

Lemma ticketOf_range (m : RationalMiner) (minTicket : Z) :
  0 <= ticketOf m minTicket < bigOlNum.
Proof.
  unfold ticketOf.
  match goal with |- context [rand_Int63n ?r ?n] =>
    pose proof (rand_Int63n_range r n) as Hr end.
  change (wrap_int bigOlNum) with 100000 in *. unfold bigOlNum.
  rewrite wrap_uint64_id; lia.
Qed.

(** [generateBlock] succeeds where its reads succeed. *)
Lemma generateBlock_ok (m : RationalMiner) (parents lb lb1 lp : Tipset) (lbp h : Z)
      (w : world) :
  lookbackTipset (Some parents) lbp = Ok (Some lb) ->
  lookbackTipset (Some parents) 1 = Ok (Some lb1) ->
  liveParentsOfTipset parents = Ok lp ->
  getHeight parents = Ok h ->
  generateBlock m parents lbp w =
  Ok ({| Nonce := int_sub (int_add (uniqueID w) 1) 1;
         Parents := Some parents;
         Owner := ID m;
         Height := int_add h 1;
         Null := negb (isWinningTicket (ticketOf m (MinTicket lb)) (Power m));
         ParentWeight := Weight lp;
         Seed := ticketOf m (MinTicket lb1);
         InHead := false |},
      mkWorld (int_add (uniqueID w) 1)
              (snd (rand_Int63n
                      (rand_Seed (wrap_int (uint64_add (MinTicket lb) (wrap_uint64 (ID m)))))
                      (wrap_int bigOlNum)))
              (crandStream w) (crandPos w)).
Proof.
  intros Hlb Hlb1 Hlp Hh. unfold generateBlock.
  unfold mbind at 1, M_bind. rewrite Hlb. cbn [mbind result_bind rbind minTicketAt lift].
  unfold mbind at 1, M_bind. rewrite Hlb1. cbn [mbind result_bind rbind minTicketAt lift].
  unfold mbind at 1, M_bind. rewrite Hlp. cbn [lift].
  unfold mbind at 1, M_bind. cbn [generateTicket].
  unfold mbind at 1, M_bind. cbn [getUniqueID uniqueID trialRand crandStream crandPos].
  unfold mbind at 1, M_bind. rewrite Hh. cbn [lift].
  unfold mbind at 1, M_bind. cbn [generateTicket uniqueID trialRand crandStream crandPos].
  reflexivity.
Qed.

(** Do the [n] tickets from [t] on all win at [power]? *)
Fixpoint allWin (power : float) (n : nat) (t : Z) : bool :=
  match n with
  | O => true
  | S n' => isWinningTicket t power && allWin power n' (t + 1)
  end.

Lemma allWin_spec (power : float) (n : nat) (t0 t : Z) :
  allWin power n t0 = true ->
  t0 <= t < t0 + Z.of_nat n ->
  isWinningTicket t power = true.
Proof.
  revert t0. induction n as [|n IH]; intros t0 Hall Ht; [lia|].
  cbn [allWin] in Hall. apply andb_prop in Hall as [Hhere Hrest].
  destruct (Z.eq_dec t t0) as [->|Hne]; [exact Hhere|].
  apply (IH (t0 + 1)); [exact Hrest | lia].
Qed.

(** Every ticket wins for a miner of power [1.0/float64(1)]: checked on each
    of the [bigOlNum] tickets. *)
Lemma power_one_wins (t : Z) :
  0 <= t < bigOlNum ->
  isWinningTicket t (PrimFloat.div 1%float (float64_of_int 1)) = true.
Proof.
  intros Ht.
  apply (allWin_spec _ (Z.to_nat bigOlNum) 0).
  - vm_compute. reflexivity.
  - rewrite Z2Nat.id by (unfold bigOlNum; lia). lia.
Qed.

(** The tipset of one block. *)
Definition tipsetOf (b : Block) : Tipset :=
  {| Blocks := [b];
     Name := Itoa (Nonce b);
     MinTicket := Seed b;
     WasHead := false;
     Weight := if negb (Null b) then int_add (ParentWeight b) 1 else ParentWeight b |}.

Lemma allTipsets_singleton (b : Block) : allTipsets [b] = Ok [tipsetOf b].
Proof.
  cbn [allTipsets collectTipset mbind result_bind rbind].
  rewrite NewTipset_singleton. reflexivity.
Qed.

Lemma forksFromTipset_singleton (b : Block) :
  forksFromTipset (tipsetOf b) = Ok [tipsetOf b].
Proof.
  unfold forksFromTipset. cbn [tipsetOf Blocks forksFromBlocks].
  rewrite NewTipset_singleton. reflexivity.
Qed.

Lemma replacesHead_irrefl (ts : Tipset) : replacesHead ts ts = false.
Proof.
  unfold replacesHead. rewrite !Z.ltb_irrefl, Z.eqb_refl. reflexivity.
Qed.

Lemma Mbind_run {A B} (c : M A) (k : A -> M B) (w w1 : world) (a : A) :
  c w = Ok (a, w1) -> (c ≫= k) w = k a w1.
Proof. intros H. unfold mbind, M_bind. rewrite H. reflexivity. Qed.

Lemma lift_run {A} (r : result A) (a : A) (w : world) :
  r = Ok a -> lift r w = Ok (a, w).
Proof. intros ->. reflexivity. Qed.

Lemma setHead_same (ct : chainTracker) (gen : Block) :
  head ct = Some (tipsetOf gen) -> setHead ct [gen] = Ok (ct, [gen]).
Proof.
  intros Hhead. unfold setHead. rewrite allTipsets_singleton.
  cbn [mbind result_bind rbind]. rewrite Hhead. cbn [setHeadLoop].
  rewrite replacesHead_irrefl. reflexivity.
Qed.

(** [Mine] of a miner of power 1.0 without private forks, offered the
    tipset of one block that is not null: the block on that tipset. *)
Lemma Mine_single_fork order (gen : Block) (ct : chainTracker) (m : RationalMiner)
      (w : world) :
  (forall l, Permutation (order l) l) ->
  PrivateForks m = ∅ ->
  Power m = PrimFloat.div 1%float (float64_of_int 1) ->
  Null gen = false ->
  0 < Weight (tipsetOf gen) ->
  exists blk w',
    Mine order m ct [[tipsetOf gen]] 1 w = Ok (Some blk, withForks m ∅, ct, w') /\
    generateBlock m (tipsetOf gen) 1 w = Ok (blk, w') /\
    Null blk = false /\
    Parents blk = Some (tipsetOf gen) /\
    ParentWeight blk = Weight (tipsetOf gen) /\
    Owner blk = ID m /\
    Height blk = int_add (Height gen) 1.
Proof.
  intros Horder Hpf Hpower Hnull Hweight.
  pose (m1 := ConsiderAllForks m [[tipsetOf gen]]).
  assert (PrivateForks m1 = {[ (Name (tipsetOf gen)) := tipsetOf gen ]}) as Hpf1.
  { unfold m1, ConsiderAllForks. cbn [PrivateForks fold_left].
    rewrite Hpf. apply insert_empty. }
  assert (order (map_to_list (PrivateForks m1)) = [(Name (tipsetOf gen), tipsetOf gen)])
    as Hentries.
  { apply Permutation_length_1_inv, Permutation_sym.
    rewrite <- (map_to_list_singleton (Name (tipsetOf gen)) (tipsetOf gen)), <- Hpf1.
    apply Horder. }
  assert (liveParentsOfTipset (tipsetOf gen) = Ok (tipsetOf gen)) as Hlive.
  { unfold liveParentsOfTipset. cbn [tipsetOf Blocks]. rewrite Hnull. reflexivity. }
  pose proof (generateBlock_ok m1 (tipsetOf gen) (tipsetOf gen) (tipsetOf gen)
                (tipsetOf gen) 1 (Height gen) w
                (lookbackTipset_1 _) (lookbackTipset_1 _) Hlive eq_refl) as Hgen.
  match type of Hgen with _ = Ok (?b, ?w1) => set (blk := b) in *; set (w' := w1) in * end.
  assert (Null blk = false) as Hblk.
  { unfold blk. cbn [Null]. unfold m1 at 2. cbn [Power ConsiderAllForks].
    rewrite Hpower, power_one_wins by apply ticketOf_range. reflexivity. }
  exists blk, w'. split; [|split; [exact Hgen|]].
  - unfold Mine. fold m1. rewrite Hentries.
    erewrite Mbind_run.
    2:{ cbn [mineLoop]. erewrite Mbind_run.
        2:{ unfold mineStep. erewrite Mbind_run by exact Hgen. reflexivity. }
        reflexivity. }
    unfold considerBlock. rewrite Hblk. cbn [negb andb maxWeight].
    assert ((0 <? ParentWeight blk) = true) as -> by (apply Z.ltb_lt; exact Hweight).
    cbn [bestBlock mineCt]. unfold m1, withForks, ConsiderAllForks. reflexivity.
  - repeat split; try reflexivity. exact Hblk.
Qed.

(** The round of a tracker whose head is the tipset of the one block [gen]
    published, with one miner of power 1.0 and no private fork: the miner
    publishes a block on that tipset, and the head stays. *)
Lemma simRound_single_miner order (gen : Block) (ct : chainTracker) (m : RationalMiner)
      (h0 : Z) (w : world) :
  (forall l, Permutation (order 0%nat l) l) ->
  head ct = Some (tipsetOf gen) ->
  miners ct = [m] ->
  PrivateForks m = ∅ ->
  Power m = PrimFloat.div 1%float (float64_of_int 1) ->
  Null gen = false ->
  0 < Weight (tipsetOf gen) ->
  exists blk ct' w',
    simRound order 1 {| simCt := ct; simBlocks := [gen]; currentHeight := h0 |} w
    = Ok ({| simCt := ct'; simBlocks := [blk]; currentHeight := Height gen |}, w') /\
    head ct' = Some (tipsetOf gen) /\
    miners ct' = [withForks m ∅] /\
    allBlocks ct' = <[Nonce gen := gen]> (allBlocks ct) /\
    liveBlocksByHeight ct' = <[Height gen := [gen]]> (liveBlocksByHeight ct) /\
    Null blk = false /\
    Parents blk = Some (tipsetOf gen) /\
    ParentWeight blk = Weight (tipsetOf gen) /\
    Owner blk = ID m /\
    Height blk = int_add (Height gen) 1.
Proof.
  intros Horder Hhead Hms Hpf Hpower Hnull Hweight.
  set (ctR := withLive (recordBlock ct gen) (Height gen) [gen]).
  destruct (Mine_single_fork (order 0%nat) gen ctR m w Horder Hpf Hpower Hnull Hweight)
    as (blk & w' & Hmine & _ & Hfacts).
  exists blk, (withMiners ctR [withForks m ∅]), w'. split.
  - unfold simRound. cbn [simCt simBlocks currentHeight].
    erewrite Mbind_run by (apply lift_run, setHead_same, Hhead).
    cbn [fold_left forallb]. rewrite Z.eqb_refl. cbn [andb].
    erewrite Mbind_run by (apply lift_run; reflexivity).
    erewrite Mbind_run by (apply lift_run, allTipsets_singleton).
    erewrite Mbind_run.
    2:{ apply lift_run. cbn [forksOfAll mbind result_bind rbind].
        rewrite forksFromTipset_singleton. reflexivity. }
    fold ctR. erewrite Mbind_run.
    2:{ replace (miners ctR) with [m] by (symmetry; exact Hms).
        cbn [mineAll]. erewrite Mbind_run by exact Hmine.
        cbn [mineAll]. reflexivity. }
    reflexivity.
  - split; [exact Hhead|]. split; [reflexivity|]. split; [reflexivity|].
    split; [reflexivity|]. exact Hfacts.
Qed.

(** C6.  With [lbp = 1], one round and one miner, a trial starts and its
    round 0 runs without a panic; the miner has power 1.0; the round
    publishes exactly one block, which is not null, has the genesis tipset
    (the head) as its parents, inherits that tipset's weight 1 as its
    [ParentWeight], and has height 1; the tipset of that block alone
    weighs 2. *)
Theorem single_miner_round_zero
        (order : nat -> nat -> list (string * Tipset) -> list (string * Tipset))
        (w : world) :
  (forall l, Permutation (order 0%nat 0%nat l) l) ->
  exists st w1 st' w' gen blk,
    simStart 1 1 w = Ok (st, w1) /\
    simBlocks st = [gen] /\
    head (simCt st) = Some (tipsetOf gen) /\
    Parents gen = None /\ Owner gen = -1 /\ Height gen = 0 /\ Null gen = false /\
    (exists m, miners (simCt st) = [m] /\ Power m = 1%float) /\
    simRounds order 1 1 0 st w1 = Ok (st', w') /\
    runSim order 1 1 1 w = Ok (withMaxHeight (simCt st') 0, w') /\
    simBlocks st' = [blk] /\
    Null blk = false /\
    Parents blk = Some (tipsetOf gen) /\
    ParentWeight blk = 1 /\
    Owner blk = 0 /\
    Height blk = 1 /\
    head (simCt st') = Some (tipsetOf gen) /\
    Weight (tipsetOf gen) = 1 /\
    NewTipset [blk] = Ok (tipsetOf blk) /\ Weight (tipsetOf blk) = 2.
Proof.
  intros Horder.
  destruct (simStart_ok 1 1 w) as (st & w1 & Hstart); [lia | lia | reflexivity |].
  pose proof Hstart as Hspec.
  apply simStart_spec in Hspec as (_ & _ & gen & hd & Hgt & Hb & Hhd & Hst).
  rewrite NewTipset_singleton in Hhd. injection Hhd as <-.
  fold (tipsetOf gen) in Hgt, Hb, Hst.
  inversion Hgt as [? b Hb' _ _ Hw Ho Hh Hn Hpw Hp]. subst ts.
  cbn [tipsetOf Blocks] in Hb'. injection Hb' as <-.
  assert (Parents gen = None) as Hroot.
  { unfold simStart in Hstart.
    apply Mbind_Ok in Hstart as (seed & w2 & _ & Hstart).
    apply Mbind_Ok in Hstart as ([] & w3 & _ & Hstart).
    apply Mbind_Ok in Hstart as ([] & w4 & _ & Hstart).
    apply Mbind_Ok in Hstart as (g & w5 & Hgen & Hstart).
    apply Mbind_Ok in Hstart as (hd & w6 & _ & Hstart).
    apply mret_Ok in Hstart as [Hst' _]. rewrite Hst in Hst'.
    injection Hst' as _ <-.
    unfold makeGen in Hgen. apply Mbind_Ok in Hgen as (g0 & w7 & Hloop & Hgen).
    change (Z.to_nat 1) with 1%nat in Hloop. cbn [makeGenLoop] in Hloop.
    apply Mbind_Ok in Hloop as (nonce & w8 & _ & Hloop).
    apply Mbind_Ok in Hloop as (sd & w9 & _ & Hloop).
    apply Mbind_Ok in Hloop as (ts & w10 & Hts & Hloop).
    apply lift_Ok in Hts as [Hts ->]. rewrite NewTipset_singleton in Hts.
    injection Hts as <-. apply mret_Ok in Hloop as [-> ->].
    apply lift_Ok in Hgen as [Hgen _]. cbn [Blocks] in Hgen.
    injection Hgen as <-. reflexivity. }
  set (m := NewRationalMiner 0 (PrimFloat.div 1%float (float64_of_int 1)) 1).
  assert (miners (simCt st) = [m]) as Hms by (rewrite Hst; reflexivity).
  assert (head (simCt st) = Some (tipsetOf gen)) as Hhead by (rewrite Hst; reflexivity).
  destruct (simRound_single_miner (order 0%nat) gen (simCt st) m 0 w1
              Horder Hhead Hms eq_refl eq_refl Hn ltac:(rewrite Hw; lia))
    as (blk & ct' & w' & Hround & Hhead' & _ & _ & _ & Hnb & Hpb & Hwb & Hob & Hhb).
  assert (simRounds order 1 1 0 st w1
          = Ok ({| simCt := ct'; simBlocks := [blk]; currentHeight := Height gen |}, w'))
    as Hrounds.
  { cbn [simRounds]. erewrite Mbind_run; [reflexivity|].
    rewrite Hst at 1. rewrite Hst in Hround. exact Hround. }
  eexists st, w1, _, w', gen, blk.
  split; [exact Hstart|]. split; [rewrite Hst; reflexivity|].
  split; [exact Hhead|]. split; [exact Hroot|]. split; [exact Ho|].
  split; [exact Hh|]. split; [exact Hn|].
  split; [exists m; split; [exact Hms | reflexivity]|].
  split; [exact Hrounds|]. split.
  { unfold runSim. erewrite Mbind_run by exact Hstart.
    change (Z.to_nat 1) with 1%nat. erewrite Mbind_run by exact Hrounds. reflexivity. }
  cbn [simBlocks simCt].
  split; [reflexivity|]. split; [exact Hnb|]. split; [exact Hpb|].
  split; [rewrite Hwb; exact Hw|]. split; [exact Hob|].
  split; [rewrite Hhb, Hh; reflexivity|]. split; [exact Hhead'|].
  split; [exact Hw|]. split; [apply NewTipset_singleton|].
  cbn [tipsetOf Weight]. rewrite Hnb, Hwb, Hw. reflexivity.
Qed.

(** ** Where the forks, the blocks and the table of a round come from *)

Lemma ConsiderAllForks_entries (m : RationalMiner) (atsforks : list (list Tipset))
      (k : string) (ts : Tipset) :
  PrivateForks (ConsiderAllForks m atsforks) !! k = Some ts ->
  PrivateForks m !! k = Some ts \/
  (k = Name ts /\ exists forks, In forks atsforks /\ In ts forks).
Proof.
  unfold ConsiderAllForks. cbn [PrivateForks].
  generalize (PrivateForks m) as pf. induction atsforks as [|forks rest IH]; intros pf H.
  - left. exact H.
  - cbn [fold_left] in H. apply IH in H as [H|(Hk & fs & Hfs & Hts)].
    + assert (pf !! k = Some ts \/ (k = Name ts /\ In ts forks)) as [Hold|[Hk Hin]].
      { clear IH. revert pf H. induction forks as [|f fs IHf]; intros pf H.
        - left. exact H.
        - cbn [fold_left] in H. apply IHf in H as [H|[Hk Hin]].
          + destruct (decide (Name f = k)) as [<-|Hne].
            * rewrite lookup_insert_eq in H. injection H as ->.
              right. split; [reflexivity | left; reflexivity].
            * rewrite lookup_insert_ne in H by exact Hne. left. exact H.
          + right. split; [exact Hk | right; exact Hin]. }
      * left. exact Hold.
      * right. split; [exact Hk|]. exists forks. split; [left; reflexivity | exact Hin].
    + right. split; [exact Hk|]. exists fs. split; [right; exact Hfs | exact Hts].
Qed.

Lemma extendNulls_entries (nblks : list Block) (pforks pforks' : gmap string Tipset)
      (k : string) (ts : Tipset) :
  extendNulls pforks nblks = Ok pforks' ->
  pforks' !! k = Some ts ->
  pforks !! k = Some ts \/ exists nb, In nb nblks /\ ts = tipsetOf nb /\ k = Name ts.
Proof.
  revert pforks. induction nblks as [|nb rest IH]; intros pforks H Hk.
  - injection H as ->. left. exact Hk.
  - cbn [extendNulls] in H. apply rbind_Ok in H as (pf1 & Hone & H).
    destruct (IH _ H Hk) as [Hold|(nb' & Hin & Hts)].
    + unfold extendNull in Hone. destruct (Parents nb) as [parents|]; [|discriminate].
      rewrite NewTipset_singleton in Hone. cbn [mbind result_bind rbind] in Hone.
      injection Hone as <-. fold (tipsetOf nb) in Hold.
      destruct (decide (Name (tipsetOf nb) = k)) as [<-|Hne].
      * rewrite lookup_insert_eq in Hold. injection Hold as <-.
        right. exists nb. split; [left; reflexivity|]. split; reflexivity.
      * rewrite lookup_insert_ne in Hold by exact Hne.
        apply lookup_delete_Some in Hold as [_ Hold]. left. exact Hold.
    + right. exists nb'. split; [right; exact Hin | exact Hts].
Qed.

(** What the variables of the loop of [Mine] hold, for a property [P] of
    the blocks generated and a property [R] of the blocks of the table. *)
Definition varsHold (P R : Block -> Prop) (v : mineVars) : Prop :=
  Forall (fun b => P b /\ Null b = true) (nullBlocks v) /\
  (forall b, bestBlock v = Some b -> P b /\ Null b = false) /\
  (forall n b, allBlocks (mineCt v) !! n = Some b -> R b).

Lemma considerBlock_holds (P R : Block -> Prop) (v : mineVars) (blk : Block) :
  (forall b, P b -> R b) ->
  P blk -> varsHold P R v -> varsHold P R (considerBlock v blk).
Proof.
  intros HPR Hblk (Hnull & Hbest & Htable). unfold considerBlock.
  destruct (Null blk) eqn:En; cbn [negb andb].
  - destruct (bestBlock v) as [b|] eqn:Eb; cbn [is_Some_bool negb].
    + split; [exact Hnull|]. split; [rewrite Eb; exact Hbest | exact Htable].
    + split; [|split].
      * cbn [nullBlocks]. apply Forall_app. split; [exact Hnull|].
        constructor; [split; assumption | constructor].
      * cbn [bestBlock]. intros b [=].
      * cbn [mineCt recordBlock allBlocks]. intros n b Hn.
        destruct (decide (Nonce blk = n)) as [<-|Hne].
        -- rewrite lookup_insert_eq in Hn. injection Hn as <-. apply HPR, Hblk.
        -- rewrite lookup_insert_ne in Hn by exact Hne. eapply Htable, Hn.
  - destruct (maxWeight v <? ParentWeight blk).
    + split; [exact Hnull|]. split; [|exact Htable].
      cbn [bestBlock]. intros b [= <-]. split; assumption.
    + split; [exact Hnull|]. split; [exact Hbest | exact Htable].
Qed.

Lemma mineLoop_holds (P R : Block -> Prop) (Q : Tipset -> Prop)
      (m : RationalMiner) (lbp : Z) (entries : list (string * Tipset))
      (v v' : mineVars) (w w' : world) :
  (forall b, P b -> R b) ->
  (forall ts blk w0 w1, Q ts -> generateBlock m ts lbp w0 = Ok (blk, w1) -> P blk) ->
  Forall (fun e => Q (snd e)) entries ->
  mineLoop m lbp entries v w = Ok (v', w') ->
  varsHold P R v -> varsHold P R v'.
Proof.
  intros HPR Hgen. revert v w. induction entries as [|e rest IH]; intros v w HQ H Hv.
  - apply mret_Ok in H as [-> _]. exact Hv.
  - cbn [mineLoop] in H. apply Mbind_Ok in H as (v1 & w1 & Hstep & H).
    apply Forall_cons in HQ as [He Hrest].
    apply mineStep_spec in Hstep as (blk & Hblk & ->).
    eapply IH; [exact Hrest | exact H|].
    apply considerBlock_holds; [exact HPR | | exact Hv].
    eapply Hgen; eassumption.
Qed.

(** [Mine], for a property [Q] of the forks, [P] of the blocks generated on
    forks with [Q], and [R] of the blocks of the table: the block returned
    has [P] and is not null; a fork kept was offered or held before, or is
    the tipset of a null block with [P]; the table keeps [R]. *)
Lemma Mine_holds (P R : Block -> Prop) (Q : Tipset -> Prop) order
      (m m' : RationalMiner) (ct ct' : chainTracker) (atsforks : list (list Tipset))
      (lbp : Z) (res : option Block) (w w' : world) :
  (forall l, Permutation (order l) l) ->
  (forall b, P b -> R b) ->
  (forall ts blk w0 w1, Q ts -> generateBlock m ts lbp w0 = Ok (blk, w1) -> P blk) ->
  (forall k ts, PrivateForks m !! k = Some ts -> Q ts) ->
  Forall (Forall Q) atsforks ->
  (forall n b, allBlocks ct !! n = Some b -> R b) ->
  Mine order m ct atsforks lbp w = Ok (res, m', ct', w') ->
  (forall b, res = Some b -> P b /\ Null b = false) /\
  (forall k ts, PrivateForks m' !! k = Some ts ->
                Q ts \/ exists nb, ts = tipsetOf nb /\ P nb /\ Null nb = true) /\
  (forall n b, allBlocks ct' !! n = Some b -> R b) /\
  Power m' = Power m /\ ID m' = ID m /\ TotalMiners m' = TotalMiners m.
Proof.
  intros Horder HPR Hgen Hpf Hats Htable H. unfold Mine in H.
  apply Mbind_Ok in H as (v & w1 & Hloop & H).
  assert (forall k ts, PrivateForks (ConsiderAllForks m atsforks) !! k = Some ts -> Q ts)
    as Hpf0.
  { intros k ts Hk. apply ConsiderAllForks_entries in Hk as [Hk|(_ & forks & Hf & Hts)].
    - eapply Hpf, Hk.
    - rewrite Forall_forall in Hats. apply list_elem_of_In, Hats in Hf.
      rewrite Forall_forall in Hf. apply Hf, list_elem_of_In, Hts. }
  assert (varsHold P R v) as (Hnull & Hbest & Htable').
  { eapply (mineLoop_holds P R Q); [exact HPR | | | exact Hloop |].
    - intros ts blk w0 w2 HQ Hg. eapply Hgen; [exact HQ|].
      unfold generateBlock in *. exact Hg.
    - apply Forall_forall. intros [k ts] Hin. cbn [snd].
      apply list_elem_of_In in Hin. eapply Permutation_in in Hin; [|apply Horder].
      apply list_elem_of_In, elem_of_map_to_list in Hin. eapply Hpf0, Hin.
    - split; [constructor|]. split; [intros b [=] | exact Htable]. }
  destruct (bestBlock v) as [b|] eqn:Eb.
  - apply mret_Ok in H as [[= -> -> ->] _].
    split; [intros b' [= <-]; apply Hbest; reflexivity|].
    split; [intros k ts Hk; cbn [withForks PrivateForks] in Hk;
            rewrite lookup_empty in Hk; discriminate|].
    split; [exact Htable' | repeat split].
  - apply Mbind_Ok in H as (pforks & w2 & Hext & H). apply lift_Ok in Hext as [Hext ->].
    apply mret_Ok in H as [[= -> -> ->] _].
    split; [intros b' [=]|].
    split; [|split; [exact Htable' | repeat split]].
    intros k ts Hk. cbn [withForks PrivateForks] in Hk.
    destruct (extendNulls_entries _ _ _ _ _ Hext Hk) as [Hold|(nb & Hin & -> & _)].
    + left. eapply Hpf0, Hold.
    + right. exists nb. split; [reflexivity|].
      rewrite Forall_forall in Hnull. apply Hnull, list_elem_of_In, Hin.
Qed.

Lemma mineAll_holds (P R : Block -> Prop) (Q : Tipset -> Prop)
      (order : nat -> list (string * Tipset) -> list (string * Tipset))
      (i : nat) (ms ms' : list RationalMiner) (ct ct' : chainTracker)
      (atsforks : list (list Tipset)) (lbp : Z) (newBlocks : list Block) (w w' : world) :
  (forall j l, Permutation (order j l) l) ->
  (forall b, P b -> R b) ->
  (forall m ts blk w0 w1, Q ts -> generateBlock m ts lbp w0 = Ok (blk, w1) -> P blk) ->
  Forall (fun m => forall k ts, PrivateForks m !! k = Some ts -> Q ts) ms ->
  Forall (Forall Q) atsforks ->
  (forall n b, allBlocks ct !! n = Some b -> R b) ->
  mineAll order i ms ct atsforks lbp w = Ok (newBlocks, ms', ct', w') ->
  Forall (fun b => P b /\ Null b = false) newBlocks /\
  Forall (fun m => forall k ts, PrivateForks m !! k = Some ts ->
                     Q ts \/ exists nb, ts = tipsetOf nb /\ P nb /\ Null nb = true) ms' /\
  (forall n b, allBlocks ct' !! n = Some b -> R b) /\
  Forall2 (fun m m' => Power m' = Power m /\ ID m' = ID m /\
                       TotalMiners m' = TotalMiners m) ms ms'.
Proof.
  intros Horder HPR Hgen Hms Hats. revert i ct newBlocks ms' ct' w.
  induction ms as [|m rest IH]; intros i ct newBlocks ms' ct' w Htable H.
  - apply mret_Ok in H as [[= -> -> ->] _].
    split; [constructor|]. split; [constructor|]. split; [exact Htable | constructor].
  - cbn [mineAll] in H. apply Mbind_Ok in H as ([[res m1] ct1] & w1 & Hm & H).
    apply Mbind_Ok in H as ([[nb rest1] ct2] & w2 & Hrest & H).
    apply mret_Ok in H as [[= -> -> ->] ->].
    apply Forall_cons in Hms as [Hm0 Hms].
    eapply (Mine_holds P R Q) in Hm as (Hres & Hpf & Htable1 & Hsame);
      [|apply Horder | exact HPR | apply Hgen | exact Hm0 | exact Hats | exact Htable].
    apply (IH Hms) in Hrest as (Hnb & Hrest1 & Htable2 & Hsame'); [|exact Htable1].
    split.
    { destruct res as [b|]; [|exact Hnb]. constructor; [|exact Hnb].
      apply Hres. reflexivity. }
    split; [constructor; assumption|]. split; [exact Htable2|].
    constructor; assumption.
Qed.

Lemma NewTipset_nonempty (blocks : list Block) (ts : Tipset) :
  NewTipset blocks = Ok ts -> Blocks ts <> [].
Proof.
  intros H. apply NewTipset_inv in H as (_ & b0 & rest & _ & ->). discriminate.
Qed.

Lemma allTipsets_nonempty (blks : list Block) (tipsets : list Tipset) :
  allTipsets blks = Ok tipsets -> Forall (fun ts => Blocks ts <> []) tipsets.
Proof.
  revert tipsets. induction blks as [|blk1 later IH]; intros tipsets H.
  - injection H as <-. constructor.
  - cbn [allTipsets] in H.
    apply rbind_Ok in H as (members & _ & H).
    apply rbind_Ok in H as (ts1 & Hts1 & H).
    apply rbind_Ok in H as (others & Hothers & H).
    injection H as <-. constructor; [|apply IH, Hothers].
    eapply NewTipset_nonempty, Hts1.
Qed.

(** A tipset built by [NewTipset] from blocks of [blks]. *)
Definition builtFrom (blks : list Block) (ts : Tipset) : Prop :=
  exists bs, NewTipset bs = Ok ts /\ forall b, In b bs -> In b blks.

Lemma builtFrom_members (blks : list Block) (ts : Tipset) :
  builtFrom blks ts -> Blocks ts <> [] /\ forall b, In b (Blocks ts) -> In b blks.
Proof.
  intros (bs & Hts & Hbs). split; [eapply NewTipset_nonempty, Hts|].
  intros b Hb. apply Hbs. eapply Permutation_in; [eapply NewTipset_perm, Hts | exact Hb].
Qed.

Lemma allTipsets_built (blks : list Block) (tipsets : list Tipset) :
  allTipsets blks = Ok tipsets -> Forall (builtFrom blks) tipsets.
Proof.
  revert tipsets. induction blks as [|blk1 later IH]; intros tipsets H.
  - injection H as <-. constructor.
  - cbn [allTipsets] in H.
    apply rbind_Ok in H as (members & Hmem & H).
    apply rbind_Ok in H as (ts1 & Hts1 & H).
    apply rbind_Ok in H as (others & Hothers & H).
    injection H as <-. constructor.
    + exists members. split; [exact Hts1|].
      apply collectTipset_spec in Hmem. subst members.
      intros b [<-|Hb]; [left; reflexivity|]. right.
      apply list_elem_of_In, list_elem_of_filter in Hb as [_ Hb].
      apply list_elem_of_In. exact Hb.
    + eapply Forall_impl; [apply IH, Hothers|].
      intros ts (bs & Hts & Hbs). exists bs. split; [exact Hts|].
      intros b Hb. right. apply Hbs, Hb.
Qed.

Lemma forksFromTipset_built (ts : Tipset) (forks : list Tipset) :
  forksFromTipset ts = Ok forks -> Forall (builtFrom (Blocks ts)) forks.
Proof.
  unfold forksFromTipset. intros H.
  destruct (forksFromBlocks_spec (Blocks ts)) as (forks' & Hforks & _ & Hnth).
  rewrite H in Hforks. injection Hforks as <-.
  apply Forall_forall. intros f Hf.
  apply list_elem_of_lookup in Hf as [i Hi]. specialize (Hnth i f Hi).
  exists (drop i (Blocks ts)). split; [exact Hnth|].
  intros b Hb. apply list_elem_of_In. eapply subseteq_drop. apply list_elem_of_In. exact Hb.
Qed.

(** Every fork offered in a round is built from blocks of the round. *)
Lemma round_forks_built (blks : list Block) (ats : list Tipset)
      (atsforks : list (list Tipset)) :
  allTipsets blks = Ok ats ->
  forksOfAll ats = Ok atsforks ->
  Forall (Forall (builtFrom blks)) atsforks.
Proof.
  intros Hats. apply allTipsets_built in Hats.
  revert atsforks. induction ats as [|ts rest IH]; intros atsforks H.
  - injection H as <-. constructor.
  - cbn [forksOfAll] in H. apply rbind_Ok in H as (forks & Hforks & H).
    apply rbind_Ok in H as (others & Hothers & H). injection H as <-.
    apply Forall_cons in Hats as [Hts Hrest].
    constructor; [|apply IH; assumption].
    apply forksFromTipset_built in Hforks.
    eapply Forall_impl; [exact Hforks|]. intros f (bs & Hf & Hbs).
    exists bs. split; [exact Hf|]. intros b Hb.
    apply (proj2 (builtFrom_members _ _ Hts)), Hbs, Hb.
Qed.

Lemma markBlocks_In (headBlocks blocks : list Block) (b : Block) :
  In b (markBlocks headBlocks blocks) ->
  exists b0, In b0 blocks /\ (b = b0 \/ b = markInHead b0).
Proof.
  unfold markBlocks. intros H. apply in_map_iff in H as (b0 & Hb & Hin).
  exists b0. split; [exact Hin|].
  destruct (existsb _ headBlocks); [right | left]; symmetry; exact Hb.
Qed.

(** The blocks a round works on are the blocks published, some of them
    marked as in the head. *)
Lemma setHead_blocks (ct ct' : chainTracker) (blocks blocks' : list Block) (b : Block) :
  setHead ct blocks = Ok (ct', blocks') ->
  In b blocks' ->
  exists b0, In b0 blocks /\ (b = b0 \/ b = markInHead b0).
Proof.
  unfold setHead. intros H Hb.
  apply rbind_Ok in H as (tipsets & _ & H).
  apply rbind_Ok in H as ([final moved] & _ & H).
  destruct final as [c|]; [destruct moved|]; injection H as <- <-.
  - apply markBlocks_In in Hb. exact Hb.
  - exists b. split; [exact Hb | left; reflexivity].
  - exists b. split; [exact Hb | left; reflexivity].
Qed.

Lemma setHead_frame (ct ct' : chainTracker) (blocks blocks' : list Block) :
  setHead ct blocks = Ok (ct', blocks') ->
  allBlocks ct' = allBlocks ct /\ miners ct' = miners ct /\
  liveBlocksByHeight ct' = liveBlocksByHeight ct /\ maxHeight ct' = maxHeight ct.
Proof.
  unfold setHead. intros H.
  apply rbind_Ok in H as (tipsets & _ & H).
  apply rbind_Ok in H as ([final moved] & _ & H).
  destruct final as [c|]; [destruct moved|]; injection H as <- <-; repeat split.
Qed.

Lemma fold_recordBlock_table (blocks : list Block) (ct : chainTracker) (n : Z) (b : Block) :
  allBlocks (fold_left recordBlock blocks ct) !! n = Some b ->
  allBlocks ct !! n = Some b \/ In b blocks.
Proof.
  revert ct. induction blocks as [|b0 rest IH]; intros ct H.
  - left. exact H.
  - cbn [fold_left] in H. apply IH in H as [H|H]; [|right; right; exact H].
    cbn [recordBlock allBlocks] in H.
    destruct (decide (Nonce b0 = n)) as [<-|Hne].
    + rewrite lookup_insert_eq in H. injection H as <-. right. left. reflexivity.
    + rewrite lookup_insert_ne in H by exact Hne. left. exact H.
Qed.

Lemma fold_recordBlock_miners (blocks : list Block) (ct : chainTracker) :
  miners (fold_left recordBlock blocks ct) = miners ct.
Proof.
  revert ct. induction blocks as [|b l IH]; intros ct; [reflexivity|].
  cbn [fold_left]. rewrite IH. reflexivity.
Qed.

Lemma roundRecord_table (ct : chainTracker) (h : Z) (blocks : list Block) (n : Z) (b : Block) :
  allBlocks (roundRecord ct h blocks) !! n = Some b ->
  allBlocks ct !! n = Some b \/ In b blocks.
Proof.
  unfold roundRecord. destruct blocks as [|b0 rest]; [left; assumption|].
  unfold withLive. cbn [allBlocks]. apply fold_recordBlock_table.
Qed.

Lemma roundRecord_miners (ct : chainTracker) (h : Z) (blocks : list Block) :
  miners (roundRecord ct h blocks) = miners ct.
Proof.
  unfold roundRecord. destruct blocks as [|b0 rest]; [reflexivity|].
  unfold withLive. cbn [miners]. apply fold_recordBlock_miners.
Qed.

(** A round, for a property [B] of the blocks published, [Q] of the forks
    held, [P] of the blocks generated and [R] of the blocks of the table. *)
Lemma simRound_holds (B P R : Block -> Prop) (Q : Tipset -> Prop)
      (order : nat -> list (string * Tipset) -> list (string * Tipset))
      (lbp : Z) (st st' : simState) (w w' : world) :
  (forall j l, Permutation (order j l) l) ->
  (forall b, B b -> B (markInHead b)) ->
  (forall b, B b -> R b) ->
  (forall b, P b -> R b) ->
  (forall bs ts, NewTipset bs = Ok ts -> Forall B bs -> Q ts) ->
  (forall m ts blk w0 w1, Q ts -> generateBlock m ts lbp w0 = Ok (blk, w1) -> P blk) ->
  Forall B (simBlocks st) ->
  Forall (fun m => forall k ts, PrivateForks m !! k = Some ts -> Q ts)
         (miners (simCt st)) ->
  (forall n b, allBlocks (simCt st) !! n = Some b -> R b) ->
  simRound order lbp st w = Ok (st', w') ->
  Forall (fun b => P b /\ Null b = false) (simBlocks st') /\
  Forall (fun m => forall k ts, PrivateForks m !! k = Some ts ->
                     Q ts \/ exists nb, ts = tipsetOf nb /\ P nb /\ Null nb = true)
         (miners (simCt st')) /\
  (forall n b, allBlocks (simCt st') !! n = Some b -> R b) /\
  Forall2 (fun m m' => Power m' = Power m /\ ID m' = ID m /\
                       TotalMiners m' = TotalMiners m)
          (miners (simCt st)) (miners (simCt st')).
Proof.
  intros Horder Hmark HBR HPR HBQ Hgen Hblocks Hms Htable H.
  apply simRound_spec in H
    as (ct1 & blocks1 & ats & atsforks & newBlocks & ms & ct2
        & Hset & _ & Hats & Hforks & Hmine & ->).
  assert (Forall B blocks1) as Hblocks1.
  { apply Forall_forall. intros b Hb. apply list_elem_of_In in Hb.
    destruct (setHead_blocks _ _ _ _ _ Hset Hb) as (b0 & Hb0 & [->| ->]).
    - rewrite Forall_forall in Hblocks. apply Hblocks, list_elem_of_In, Hb0.
    - apply Hmark. rewrite Forall_forall in Hblocks. apply Hblocks, list_elem_of_In, Hb0. }
  destruct (setHead_frame _ _ _ _ Hset) as (Htab1 & Hms1 & _).
  rewrite roundRecord_miners, Hms1 in Hmine.
  eapply (mineAll_holds P R Q) in Hmine as (Hnew & Hms' & Htable' & Hsame);
    [|exact Horder | exact HPR | exact Hgen | exact Hms | |].
  - cbn [simBlocks simCt withMiners miners allBlocks].
    split; [exact Hnew|]. split; [exact Hms'|]. split; [exact Htable' | exact Hsame].
  - eapply Forall_impl; [eapply round_forks_built; eassumption|].
    intros forks Hf. eapply Forall_impl; [exact Hf|].
    intros f (bs & Hts & Hbs). eapply HBQ; [exact Hts|].
    apply Forall_forall. intros b Hb. rewrite Forall_forall in Hblocks1.
    apply Hblocks1, list_elem_of_In, Hbs, list_elem_of_In, Hb.
  - intros n b Hn. apply roundRecord_table in Hn as [Hn|Hn].
    + rewrite Htab1 in Hn. eapply Htable, Hn.
    + apply HBR. rewrite Forall_forall in Hblocks1. apply Hblocks1, list_elem_of_In, Hn.
Qed.

(** ** Heights *)

(** The height of a block against its parents: a block of the genesis chain
    has height [0]; any other block is one above its parent tipset. *)
Definition heightRule (b : Block) : Prop :=
  (Owner b = -1 /\ Height b = 0) \/
  (exists p h, Parents b = Some p /\ getHeight p = Ok h /\ Height b = h + 1).

(** [heightRule] for a block and all its ancestors. *)
#[warnings="-register-all"]
Inductive okBlock : Block -> Prop :=
| okBlock_genesis (b : Block) :
    Owner b = -1 -> Height b = 0 ->
    (forall p, Parents b = Some p -> Forall okBlock (Blocks p)) ->
    okBlock b
| okBlock_mined (b : Block) (p : Tipset) (h : Z) :
    Parents b = Some p -> getHeight p = Ok h -> Height b = h + 1 ->
    Forall okBlock (Blocks p) ->
    okBlock b.

(** The blocks the tracker's table leads to: its entries and the members of
    the parent tipsets of such blocks. *)
Inductive reachable (ct : chainTracker) : Block -> Prop :=
| reachable_table (n : Z) (b : Block) :
    allBlocks ct !! n = Some b -> reachable ct b
| reachable_parent (b : Block) (p : Tipset) (a : Block) :
    reachable ct b -> Parents b = Some p -> In a (Blocks p) -> reachable ct a.

Lemma okBlock_heightRule (b : Block) : okBlock b -> heightRule b.
Proof.
  intros [b' Ho Hh _|b' p h Hp Hg Hh _].
  - left. split; assumption.
  - right. exists p, h. repeat split; assumption.
Qed.

Lemma okBlock_parents (b : Block) (p : Tipset) :
  okBlock b -> Parents b = Some p -> Forall okBlock (Blocks p).
Proof.
  intros [b' _ _ Hup|b' p' h Hp' _ _ Hup] Hp.
  - apply Hup, Hp.
  - rewrite Hp in Hp'. injection Hp' as <-. exact Hup.
Qed.

Lemma okBlock_markInHead (b : Block) : okBlock b -> okBlock (markInHead b).
Proof.
  intros [b' Ho Hh Hup|b' p h Hp Hg Hh Hup].
  - apply okBlock_genesis; assumption.
  - eapply okBlock_mined; eassumption.
Qed.

Lemma genesisTipset_okBlock (ts : Tipset) :
  genesisTipset ts -> Forall (fun b => okBlock b /\ Height b = 0) (Blocks ts).
Proof.
  induction 1 as [ts b Hb _ _ _ Ho Hh _ _ _ IH].
  rewrite Hb. constructor; [|constructor]. split; [|exact Hh].
  apply okBlock_genesis; [exact Ho | exact Hh|].
  intros p Hp. eapply Forall_impl; [apply (IH p Hp)|]. intros a [Ha _]. exact Ha.
Qed.

(** A block with [heightRule] up its ancestry, of height in [0, r]. *)
Definition okUpTo (r : Z) (b : Block) : Prop := okBlock b /\ 0 <= Height b <= r.

(** A fork made of such blocks. *)
Definition okFork (r : Z) (ts : Tipset) : Prop :=
  Blocks ts <> [] /\ Forall (okUpTo r) (Blocks ts).

(** What every round keeps about heights: [r] rounds were run. *)
Definition heightInv (r : Z) (st : simState) : Prop :=
  Forall (okUpTo r) (simBlocks st) /\
  Forall (fun m => forall k ts, PrivateForks m !! k = Some ts -> okFork r ts)
         (miners (simCt st)) /\
  (forall n b, allBlocks (simCt st) !! n = Some b -> okBlock b).

Lemma okUpTo_mono (r r' : Z) (b : Block) : r <= r' -> okUpTo r b -> okUpTo r' b.
Proof. unfold okUpTo. intros Hr [Hok Hh]. split; [exact Hok | lia]. Qed.

Lemma okFork_mono (r r' : Z) (ts : Tipset) : r <= r' -> okFork r ts -> okFork r' ts.
Proof.
  intros Hr [Hne Hall]. split; [exact Hne|].
  eapply Forall_impl; [exact Hall|]. intros b. apply okUpTo_mono, Hr.
Qed.

Lemma generateBlock_okUpTo (r : Z) (m : RationalMiner) (ts : Tipset) (lbp : Z)
      (blk : Block) (w0 w1 : world) :
  0 <= r -> r + 1 <= int_max ->
  okFork r ts ->
  generateBlock m ts lbp w0 = Ok (blk, w1) ->
  okUpTo (r + 1) blk.
Proof.
  intros Hr Hmax [Hne Hall] H.
  apply generateBlock_spec in H as (lb & lb1 & lp & h & _ & _ & _ & Hh & -> & _).
  unfold getHeight in Hh. destruct (Blocks ts) as [|b0 rest] eqn:Eb; [discriminate|].
  injection Hh as <-. apply Forall_cons in Hall as [[Hok0 Hh0] Hrest].
  assert (int_add (Height b0) 1 = Height b0 + 1) as Hadd.
  { apply wrap_int_id. unfold in_int, int_min, int_max in *. lia. }
  split; cbn [Height]; [|lia].
  eapply (okBlock_mined _ ts (Height b0)); cbn [Parents Height].
  - reflexivity.
  - unfold getHeight. rewrite Eb. reflexivity.
  - exact Hadd.
  - rewrite Eb. constructor; [exact Hok0|].
    eapply Forall_impl; [exact Hrest|]. intros a [Ha _]. exact Ha.
Qed.

Lemma simRound_heightInv (r : Z)
      (order : nat -> list (string * Tipset) -> list (string * Tipset))
      (lbp : Z) (st st' : simState) (w w' : world) :
  (forall j l, Permutation (order j l) l) ->
  0 <= r -> r + 1 <= int_max ->
  heightInv r st ->
  simRound order lbp st w = Ok (st', w') ->
  heightInv (r + 1) st'.
Proof.
  intros Horder Hr Hmax (Hblocks & Hms & Htable) H.
  eapply (simRound_holds (okUpTo r) (okUpTo (r + 1)) okBlock (okFork r)) in H
    as (Hnew & Hms' & Htable' & _);
    [|exact Horder | | | | | | exact Hblocks | exact Hms | exact Htable].
  - split; [|split; [|exact Htable']].
    + eapply Forall_impl; [exact Hnew|]. intros b [Hb _]. exact Hb.
    + eapply Forall_impl; [exact Hms'|]. intros m Hm k ts Hk.
      destruct (Hm k ts Hk) as [Hq|(nb & -> & Hnb & _)].
      * eapply okFork_mono; [|exact Hq]. lia.
      * split; [discriminate|]. cbn [tipsetOf Blocks]. constructor; [exact Hnb | constructor].
  - intros b [Hok Hh]. split; [apply okBlock_markInHead, Hok | exact Hh].
  - intros b [Hok _]. exact Hok.
  - intros b [Hok _]. exact Hok.
  - intros bs ts Hts Hbs. split; [eapply NewTipset_nonempty, Hts|].
    eapply Permutation_Forall; [apply Permutation_sym; eapply NewTipset_perm, Hts | exact Hbs].
  - intros m ts blk w0 w1 Hq Hg. eapply generateBlock_okUpTo; eassumption.
Qed.

Lemma simRounds_heightInv
      (order : nat -> nat -> list (string * Tipset) -> list (string * Tipset))
      (lbp : Z) (n round : nat) (st st' : simState) (w w' : world) :
  (forall r j l, Permutation (order r j l) l) ->
  Z.of_nat (round + n) <= int_max ->
  heightInv (Z.of_nat round) st ->
  simRounds order lbp n round st w = Ok (st', w') ->
  heightInv (Z.of_nat (round + n)) st'.
Proof.
  intros Horder. revert round st w. induction n as [|n IH]; intros round st w Hmax Hinv H.
  - apply mret_Ok in H as [-> _]. rewrite Nat.add_0_r. exact Hinv.
  - cbn [simRounds] in H. apply Mbind_Ok in H as (st1 & w1 & Hround & H).
    replace (round + S n)%nat with (S round + n)%nat in * by lia.
    eapply IH; [exact Hmax | | exact H].
    replace (Z.of_nat (S round)) with (Z.of_nat round + 1) by lia.
    eapply simRound_heightInv; [apply Horder | lia | lia | exact Hinv | exact Hround].
Qed.

Lemma newMiners_forks (totalMiners : Z) :
  Forall (fun m => PrivateForks m = ∅) (newMiners totalMiners).
Proof.
  unfold newMiners. apply Forall_forall. intros m Hm.
  apply list_elem_of_In, in_map_iff in Hm as (i & <- & _). reflexivity.
Qed.

Lemma simStart_heightInv (totalMiners lbp : Z) (st : simState) (w w' : world) :
  simStart totalMiners lbp w = Ok (st, w') -> heightInv 0 st.
Proof.
  intros H. apply simStart_spec in H as (_ & _ & gen & hd & Hhd & Hb & _ & ->).
  apply genesisTipset_okBlock in Hhd. rewrite Hb in Hhd.
  apply Forall_cons in Hhd as [[Hok Hh] _].
  split; [|split].
  - cbn [simBlocks]. constructor; [|constructor]. split; [exact Hok | lia].
  - cbn [simCt withHead NewChainTracker miners].
    eapply Forall_impl; [apply newMiners_forks|].
    intros m Hm k ts Hk. rewrite Hm, lookup_empty in Hk. discriminate.
  - cbn [simCt withHead NewChainTracker allBlocks].
    intros n b Hn. rewrite lookup_empty in Hn. discriminate.
Qed.

(** C9 (amended).  In the tracker a trial delivers, every block of the table
    and every block reached from one through parent tipsets is a block of
    the genesis chain, of owner [-1] and height [0] whether it has a parent
    tipset or not, or a block whose height is the height of its parent
    tipset plus 1. *)
Theorem block_heights
        (order : nat -> nat -> list (string * Tipset) -> list (string * Tipset))
        (totalMiners roundNum lbp : Z) (w w' : world) (ct : chainTracker) :
  (forall r j l, Permutation (order r j l) l) ->
  roundNum <= int_max ->
  runSim order totalMiners roundNum lbp w = Ok (ct, w') ->
  forall b, reachable ct b -> heightRule b.
Proof.
  intros Horder Hmax H.
  unfold runSim in H.
  apply Mbind_Ok in H as (st & w1 & Hstart & H).
  apply Mbind_Ok in H as (st' & w2 & Hrounds & H).
  apply mret_Ok in H as [-> _].
  apply simStart_heightInv in Hstart.
  eapply (simRounds_heightInv order lbp _ 0) in Hrounds; [|exact Horder | | exact Hstart].
  2:{ cbn [Nat.add]. destruct (Z.le_gt_cases 0 roundNum).
      - rewrite Z2Nat.id by assumption. exact Hmax.
      - replace (Z.to_nat roundNum) with O by lia. unfold int_max. lia. }
  destruct Hrounds as (_ & _ & Htable).
  assert (forall b, reachable (withMaxHeight (simCt st') (int_sub roundNum 1)) b -> okBlock b)
    as Hreach.
  { induction 1 as [n b Hn|b p a _ IH Hp Ha].
    - eapply Htable. exact Hn.
    - pose proof (okBlock_parents _ _ IH Hp) as Hall.
      rewrite Forall_forall in Hall. apply Hall, list_elem_of_In, Ha. }
  intros b Hb. apply okBlock_heightRule, Hreach, Hb.
Qed.

(** ** Mine and the private forks *)

(** The blocks the loop of [Mine] generates on the entries it visits, in the
    order of the visit, from world to world. *)
Inductive minedOn (m : RationalMiner) (lbp : Z)
  : list (string * Tipset) -> world -> list Block -> world -> Prop :=
| minedOn_nil (w : world) : minedOn m lbp [] w [] w
| minedOn_cons (k : string) (ts : Tipset) (rest : list (string * Tipset))
               (w w1 w' : world) (blk : Block) (blks : list Block) :
    generateBlock m ts lbp w = Ok (blk, w1) ->
    minedOn m lbp rest w1 blks w' ->
    minedOn m lbp ((k, ts) :: rest) w (blk :: blks) w'.

Lemma mineLoop_minedOn (m : RationalMiner) (lbp : Z) (entries : list (string * Tipset))
      (v v' : mineVars) (w w' : world) :
  mineLoop m lbp entries v w = Ok (v', w') ->
  exists blks, minedOn m lbp entries w blks w' /\ v' = fold_left considerBlock blks v.
Proof.
  revert v w. induction entries as [|[k ts] rest IH]; intros v w H.
  - apply mret_Ok in H as [-> ->]. exists []. split; [constructor | reflexivity].
  - cbn [mineLoop] in H. apply Mbind_Ok in H as (v1 & w1 & Hstep & H).
    apply mineStep_spec in Hstep as (blk & Hblk & ->). cbn [snd] in Hblk.
    apply IH in H as (blks & Hblks & ->).
    exists (blk :: blks). split; [econstructor; eassumption | reflexivity].
Qed.

Lemma considerBlock_best_stays (v : mineVars) (blk : Block) :
  bestBlock (considerBlock v blk) = None -> bestBlock v = None.
Proof.
  unfold considerBlock.
  destruct (negb (Null blk) && (maxWeight v <? ParentWeight blk)); [discriminate|].
  destruct (Null blk && negb (is_Some_bool (bestBlock v))); intros H; exact H.
Qed.

Lemma considerBlocks_best_stays (blks : list Block) (v : mineVars) :
  bestBlock (fold_left considerBlock blks v) = None -> bestBlock v = None.
Proof.
  revert v. induction blks as [|blk rest IH]; intros v H; [exact H|].
  cbn [fold_left] in H. apply IH in H. apply considerBlock_best_stays in H. exact H.
Qed.

Lemma considerBlock_none (v : mineVars) (blk : Block) :
  bestBlock (considerBlock v blk) = None ->
  (Null blk = true /\
   considerBlock v blk
   = {| nullBlocks := nullBlocks v ++ [blk]; maxWeight := maxWeight v;
        bestBlock := None; mineCt := recordBlock (mineCt v) blk |}) \/
  (Null blk = false /\ ParentWeight blk <= maxWeight v /\ considerBlock v blk = v).
Proof.
  intros H. pose proof (considerBlock_best_stays _ _ H) as Hv.
  unfold considerBlock in *.
  destruct (Null blk) eqn:En; cbn [negb andb] in *.
  - rewrite Hv. cbn [is_Some_bool negb]. left. split; reflexivity.
  - destruct (Z.ltb_spec (maxWeight v) (ParentWeight blk)); [discriminate|].
    right. repeat split. assumption.
Qed.

(** Without a best block at the end, the loop appended every null block it
    generated, and every other block it generated had no parent weight above
    [maxWeight]. *)
Lemma considerBlocks_none (blks : list Block) (v : mineVars) :
  bestBlock (fold_left considerBlock blks v) = None ->
  nullBlocks (fold_left considerBlock blks v)
  = nullBlocks v ++ filter (fun b => Null b = true) blks /\
  maxWeight (fold_left considerBlock blks v) = maxWeight v /\
  Forall (fun b => Null b = false -> ParentWeight b <= maxWeight v) blks.
Proof.
  revert v. induction blks as [|blk rest IH]; intros v H.
  - cbn. rewrite app_nil_r. repeat split. constructor.
  - cbn [fold_left] in H |- *.
    pose proof (considerBlocks_best_stays _ _ H) as Hb.
    rewrite filter_cons.
    destruct (considerBlock_none _ _ Hb) as [[En E]|(En & Hle & E)]; rewrite E in *.
    + destruct (IH _ H) as (Hn & Hw & Hall). cbn [nullBlocks maxWeight] in *.
      rewrite decide_True by exact En.
      rewrite Hn, <- app_assoc. split; [reflexivity|]. split; [exact Hw|].
      constructor; [rewrite En; discriminate | exact Hall].
    + destruct (IH _ H) as (Hn & Hw & Hall).
      rewrite decide_False by (rewrite En; discriminate).
      split; [exact Hn|]. split; [exact Hw|]. constructor; [intros _; exact Hle | exact Hall].
Qed.

Lemma considerBlocks_holds (P R : Block -> Prop) (blks : list Block) (v : mineVars) :
  (forall b, P b -> R b) ->
  Forall P blks -> varsHold P R v -> varsHold P R (fold_left considerBlock blks v).
Proof.
  intros HPR. revert v. induction blks as [|blk rest IH]; intros v Hall Hv; [exact Hv|].
  apply Forall_cons in Hall as [Hblk Hrest]. cbn [fold_left].
  apply IH; [exact Hrest|]. apply considerBlock_holds; assumption.
Qed.

Lemma considerBlocks_some (blks : list Block) (v : mineVars) (b : Block) :
  bestBlock v = None -> nullBlocks v = [] ->
  bestBlock (fold_left considerBlock blks v) = Some b ->
  In b blks /\ Null b = false.
Proof.
  intros Hv Hn H.
  destruct (considerBlocks_holds (fun x => In x blks) (fun _ => True) blks v)
    as (_ & Hbest & _).
  - intros; exact I.
  - apply Forall_forall. intros x Hx. apply list_elem_of_In, Hx.
  - split; [rewrite Hn; constructor|]. split; [rewrite Hv; intros x [=] | intros; exact I].
  - apply Hbest, H.
Qed.

(** The name under which [extendNull] files the tipset of [nblk], and the
    name it deletes. *)
Definition nullName (nblk : Block) : string := Itoa (Nonce nblk).

Definition parentName (nblk : Block) : string :=
  match Parents nblk with
  | Some parents => Name parents
  | None => ""
  end.

Lemma extendNull_spec (pforks pforks' : gmap string Tipset) (nblk : Block) :
  extendNull pforks nblk = Ok pforks' ->
  pforks' = <[nullName nblk := tipsetOf nblk]> (delete (parentName nblk) pforks).
Proof.
  unfold extendNull, parentName. destruct (Parents nblk) as [parents|]; [|discriminate].
  rewrite NewTipset_singleton. cbn [mbind result_bind rbind]. intros [= <-]. reflexivity.
Qed.

Lemma extendNulls_other (nblks : list Block) (pforks pforks' : gmap string Tipset)
      (x : string) :
  extendNulls pforks nblks = Ok pforks' ->
  Forall (fun nb => x <> nullName nb /\ x <> parentName nb) nblks ->
  pforks' !! x = pforks !! x.
Proof.
  revert pforks. induction nblks as [|nb rest IH]; intros pforks H Hx.
  - injection H as <-. reflexivity.
  - cbn [extendNulls] in H. apply rbind_Ok in H as (pf1 & Hone & H).
    apply Forall_cons in Hx as [[Hn Hp] Hx].
    rewrite (IH _ H Hx). apply extendNull_spec in Hone as ->.
    rewrite lookup_insert_ne by congruence. apply lookup_delete_ne. congruence.
Qed.

(** A name deleted and never given to a null tipset is gone. *)
Lemma extendNulls_deleted (nblks : list Block) (pforks pforks' : gmap string Tipset)
      (x : string) :
  extendNulls pforks nblks = Ok pforks' ->
  Forall (fun nb => x <> nullName nb) nblks ->
  Exists (fun nb => parentName nb = x) nblks ->
  pforks' !! x = None.
Proof.
  revert pforks. induction nblks as [|nb rest IH]; intros pforks H Hx Hex.
  - inversion Hex.
  - cbn [extendNulls] in H. apply rbind_Ok in H as (pf1 & Hone & H).
    apply Forall_cons in Hx as [Hn Hx].
    destruct (decide (Exists (fun nb' => parentName nb' = x) rest)) as [Hin|Hnot].
    + eapply IH; eassumption.
    + apply Exists_cons in Hex as [Hhere|Hin]; [|contradiction].
      rewrite (extendNulls_other _ _ _ _ H).
      * apply extendNull_spec in Hone as ->.
        rewrite lookup_insert_ne by congruence. rewrite Hhere. apply lookup_delete_eq.
      * apply Forall_forall. intros nb' Hnb'. split.
        -- rewrite Forall_forall in Hx. apply Hx, Hnb'.
        -- intros E. apply Hnot, Exists_exists. exists nb'. split; [exact Hnb' | congruence].
Qed.

(** The tipset of a null block is filed under its name, when the names are
    distinct and none is a name deleted. *)
Lemma extendNulls_filed (nblks : list Block) (pforks pforks' : gmap string Tipset)
      (nb : Block) :
  extendNulls pforks nblks = Ok pforks' ->
  NoDup (map nullName nblks) ->
  (forall a b, In a nblks -> In b nblks -> nullName a <> parentName b) ->
  In nb nblks ->
  pforks' !! nullName nb = Some (tipsetOf nb).
Proof.
  revert pforks. induction nblks as [|nb0 rest IH]; intros pforks H Hnd Hnp Hin.
  - destruct Hin.
  - cbn [extendNulls] in H. apply rbind_Ok in H as (pf1 & Hone & H).
    cbn [map] in Hnd. apply NoDup_cons in Hnd as [Hfresh Hnd].
    destruct Hin as [<-|Hin].
    + rewrite (extendNulls_other _ _ _ _ H).
      * apply extendNull_spec in Hone as ->. apply lookup_insert_eq.
      * apply Forall_forall. intros nb' Hnb'. apply list_elem_of_In in Hnb'. split.
        -- intros E. apply Hfresh. rewrite E. apply list_elem_of_In, in_map, Hnb'.
        -- apply Hnp; [left; reflexivity | right; exact Hnb'].
    + eapply IH; [exact H | exact Hnd | | exact Hin].
      intros a b Ha Hb. apply Hnp; right; assumption.
Qed.

Lemma extendNulls_ok (nblks : list Block) (pforks : gmap string Tipset) :
  Forall (fun nb => Parents nb <> None) nblks ->
  exists pforks', extendNulls pforks nblks = Ok pforks'.
Proof.
  revert pforks. induction nblks as [|nb rest IH]; intros pforks Hall.
  - exists pforks. reflexivity.
  - apply Forall_cons in Hall as [Hnb Hrest]. cbn [extendNulls].
    unfold extendNull. destruct (Parents nb) as [parents|]; [|contradiction].
    rewrite NewTipset_singleton. cbn [mbind result_bind rbind]. apply IH, Hrest.
Qed.

(** The nonces the loop of [Mine] gives out: one after another from
    [uniqueID] on, while [uniqueID] stays in the range of [int]. *)
Lemma minedOn_nonces (m : RationalMiner) (lbp : Z) (entries : list (string * Tipset))
      (w w' : world) (blks : list Block) :
  minedOn m lbp entries w blks w' ->
  in_int (uniqueID w) ->
  uniqueID w + Z.of_nat (length entries) <= int_max ->
  uniqueID w' = uniqueID w + Z.of_nat (length entries) /\
  Forall (fun b => uniqueID w <= Nonce b < uniqueID w') blks /\
  NoDup (map Nonce blks).
Proof.
  induction 1 as [w|k ts rest w w1 w' blk blks Hgen _ IH]; intros Hin Hmax.
  - cbn. split; [lia|]. split; constructor.
  - cbn [length] in Hmax. rewrite Nat2Z.inj_succ in Hmax.
    apply generateBlock_spec in Hgen as (lb & lb1 & lp & h & _ & _ & _ & _ & -> & Hu & _).
    assert (int_add (uniqueID w) 1 = uniqueID w + 1) as Hadd.
    { apply wrap_int_id. unfold in_int, int_min, int_max in *. lia. }
    rewrite Hadd in Hu. rewrite (int_sub_add_1 _ Hin).
    destruct IH as (Hu' & Hall & Hnd).
    { rewrite Hu. unfold in_int, int_min, int_max in *. lia. }
    { rewrite Hu. lia. }
    rewrite Hu in Hu', Hall. cbn [length]. rewrite Nat2Z.inj_succ.
    split; [lia|]. split.
    + constructor; [cbn [Nonce]; lia|].
      eapply Forall_impl; [exact Hall|]. intros b Hb. cbn beta in Hb. lia.
    + cbn [map Nonce]. apply NoDup_cons. split; [|exact Hnd].
      intros Hx. apply list_elem_of_In, in_map_iff in Hx as (b & Hb & Hbin).
      rewrite Forall_forall in Hall. apply list_elem_of_In, Hall in Hbin. lia.
Qed.

(** Each block generated stands on the entry it was generated on. *)
Lemma minedOn_sources (m : RationalMiner) (lbp : Z) (entries : list (string * Tipset))
      (w w' : world) (blks : list Block) :
  minedOn m lbp entries w blks w' ->
  Forall2 (fun e blk => Parents blk = Some (snd e) /\ Owner blk = ID m /\
                        exists w0 w1, generateBlock m (snd e) lbp w0 = Ok (blk, w1))
          entries blks.
Proof.
  induction 1 as [w|k ts rest w w1 w' blk blks Hgen _ IH]; constructor; [|exact IH].
  cbn [snd]. pose proof Hgen as Hspec.
  apply generateBlock_spec in Hspec as (lb & lb1 & lp & h & _ & _ & _ & _ & -> & _).
  split; [reflexivity|]. split; [reflexivity|]. exists w, w1. exact Hgen.
Qed.

Lemma Itoa_inj (a b : Z) : Itoa a = Itoa b -> a = b.
Proof. unfold Itoa. apply pretty_Z_inj. Qed.

Lemma NoDup_nullNames (blks : list Block) :
  NoDup (map Nonce blks) ->
  NoDup (map nullName (filter (fun b => Null b = true) blks)).
Proof.
  induction blks as [|b rest IH]; intros Hnd; [constructor|].
  cbn [map] in Hnd. apply NoDup_cons in Hnd as [Hfresh Hnd].
  rewrite filter_cons. destruct (decide (Null b = true)); [|apply IH, Hnd].
  cbn [map]. apply NoDup_cons. split; [|apply IH, Hnd].
  intros Hin. apply Hfresh.
  apply list_elem_of_In, in_map_iff in Hin as (b' & Heq & Hb').
  apply list_elem_of_In, list_elem_of_filter in Hb' as [_ Hb'].
  apply Itoa_inj in Heq. rewrite <- Heq.
  apply list_elem_of_In, in_map, list_elem_of_In, Hb'.
Qed.

Lemma fold_recordBlock_lookup (blocks : list Block) (ct : chainTracker) (b : Block) :
  NoDup (map Nonce blocks) -> In b blocks ->
  allBlocks (fold_left recordBlock blocks ct) !! Nonce b = Some b.
Proof.
  revert ct. induction blocks as [|b0 rest IH]; intros ct Hnd Hin; [destruct Hin|].
  cbn [map] in Hnd. apply NoDup_cons in Hnd as [Hfresh Hnd]. cbn [fold_left].
  destruct Hin as [<-|Hin]; [|apply IH; assumption].
  assert (forall l c, ~ In (Nonce b0) (map Nonce l) ->
                      allBlocks (fold_left recordBlock l c) !! Nonce b0
                      = allBlocks c !! Nonce b0) as Hkeep.
  { induction l as [|x l IHl]; intros c Hx; [reflexivity|].
    cbn [fold_left]. rewrite IHl by (intros Hn; apply Hx; right; exact Hn).
    cbn [recordBlock allBlocks]. apply lookup_insert_ne.
    intros E. apply Hx. left. exact E. }
  rewrite Hkeep by (intros Hn; apply Hfresh, list_elem_of_In, Hn).
  cbn [recordBlock allBlocks]. apply lookup_insert_eq.
Qed.

Lemma considerBlocks_table (blks : list Block) (v : mineVars) :
  bestBlock (fold_left considerBlock blks v) = None ->
  mineCt (fold_left considerBlock blks v)
  = fold_left recordBlock (filter (fun b => Null b = true) blks) (mineCt v).
Proof.
  revert v. induction blks as [|blk rest IH]; intros v H; [reflexivity|].
  cbn [fold_left] in H |- *.
  pose proof (considerBlocks_best_stays _ _ H) as Hb. rewrite filter_cons.
  destruct (considerBlock_none _ _ Hb) as [[En E]|(En & _ & E)]; rewrite E in *.
  - rewrite (IH _ H). rewrite decide_True by exact En. reflexivity.
  - rewrite (IH _ H). rewrite decide_False by (rewrite En; discriminate). reflexivity.
Qed.

(** The forks a miner holds once it has taken in the forks offered. *)
Definition forksConsidered (m : RationalMiner) (atsforks : list (list Tipset))
  : gmap string Tipset :=
  PrivateForks (ConsiderAllForks m atsforks).


(** ** What a trial depends on *)

(** Two worlds that will behave alike: the same [uniqueID] and the same
    values still to come from [crypto/rand].  The states of the generator
    of the trial may differ. *)
Definition sameFuture (w1 w2 : world) : Prop :=
  uniqueID w1 = uniqueID w2 /\
  crandPos w1 = crandPos w2 /\
  forall i, (crandPos w1 <= i)%nat -> crandStream w1 i = crandStream w2 i.

(** Two outcomes that agree: the same panic, or the same value in worlds
    that will behave alike. *)
Definition agree {A} (r1 r2 : result (A * world)) : Prop :=
  match r1, r2 with
  | Ok (a1, w1), Ok (a2, w2) => a1 = a2 /\ sameFuture w1 w2
  | Panicked p1, Panicked p2 => p1 = p2
  | _, _ => False
  end.

(** Two programs whose outcomes agree in worlds that will behave alike. *)
Definition alike {A} (c1 c2 : M A) : Prop :=
  forall w1 w2, sameFuture w1 w2 -> agree (c1 w1) (c2 w2).

Lemma alike_ret {A} (a : A) : alike (mret a) (mret a).
Proof. intros w1 w2 Hw. cbn. split; [reflexivity | exact Hw]. Qed.

Lemma alike_lift {A} (r : result A) : alike (lift r) (lift r).
Proof.
  intros w1 w2 Hw. unfold lift. destruct r; cbn; [|reflexivity].
  split; [reflexivity | exact Hw].
Qed.

Lemma alike_bind {A B} (c1 c2 : M A) (k1 k2 : A -> M B) :
  alike c1 c2 -> (forall a, alike (k1 a) (k2 a)) -> alike (c1 ≫= k1) (c2 ≫= k2).
Proof.
  intros Hc Hk w1 w2 Hw. specialize (Hc w1 w2 Hw).
  unfold mbind, M_bind, agree in *.
  destruct (c1 w1) as [[a1 w1']|p1], (c2 w2) as [[a2 w2']|p2]; try contradiction.
  - destruct Hc as [<- Hw']. apply Hk, Hw'.
  - exact Hc.
Qed.

Lemma alike_getUniqueID : alike getUniqueID getUniqueID.
Proof.
  intros w1 w2 (Hu & Hp & Hs). unfold getUniqueID, agree, sameFuture. cbn.
  rewrite Hu. repeat split; assumption.
Qed.

Lemma alike_randInt (limit : Z) : alike (randInt limit) (randInt limit).
Proof.
  intros w1 w2 (Hu & Hp & Hs). unfold randInt, agree, sameFuture.
  destruct (limit <=? 0); [reflexivity|]. cbn.
  rewrite (Hs (crandPos w1)) by lia. rewrite Hp.
  repeat split; try assumption. intros i Hi. apply Hs. lia.
Qed.

(** A ticket does not depend on the state of the generator: [generateTicket]
    seeds it first. *)
Lemma alike_generateTicket (m : RationalMiner) (minTicket : Z) :
  alike (generateTicket m minTicket) (generateTicket m minTicket).
Proof.
  intros w1 w2 (Hu & Hp & Hs). unfold generateTicket, agree, sameFuture. cbn.
  repeat split; assumption.
Qed.

Lemma alike_setTrial (seed1 seed2 : Z) : alike (setTrial seed1) (setTrial seed2).
Proof.
  intros w1 w2 (Hu & Hp & Hs). unfold setTrial, agree, sameFuture. cbn.
  repeat split; assumption.
Qed.

Lemma alike_generateBlock (m : RationalMiner) (parents : Tipset) (lbp : Z) :
  alike (generateBlock m parents lbp) (generateBlock m parents lbp).
Proof.
  unfold generateBlock.
  repeat (first [ apply alike_bind; [|intros ?]
                | apply alike_lift | apply alike_generateTicket
                | apply alike_getUniqueID | apply alike_ret ]).
Qed.

Lemma alike_mineLoop (m : RationalMiner) (lbp : Z) (entries : list (string * Tipset))
      (v : mineVars) :
  alike (mineLoop m lbp entries v) (mineLoop m lbp entries v).
Proof.
  revert v. induction entries as [|e rest IH]; intros v; cbn [mineLoop].
  - apply alike_ret.
  - apply alike_bind; [|intros v'; apply IH].
    unfold mineStep. apply alike_bind; [apply alike_generateBlock|].
    intros blk. apply alike_ret.
Qed.

Lemma alike_Mine order (m : RationalMiner) (ct : chainTracker)
      (atsforks : list (list Tipset)) (lbp : Z) :
  alike (Mine order m ct atsforks lbp) (Mine order m ct atsforks lbp).
Proof.
  unfold Mine. apply alike_bind; [apply alike_mineLoop|].
  intros v. destruct (bestBlock v); [apply alike_ret|].
  apply alike_bind; [apply alike_lift|]. intros pf. apply alike_ret.
Qed.

Lemma alike_mineAll order (i : nat) (ms : list RationalMiner) (ct : chainTracker)
      (atsforks : list (list Tipset)) (lbp : Z) :
  alike (mineAll order i ms ct atsforks lbp) (mineAll order i ms ct atsforks lbp).
Proof.
  revert i ct. induction ms as [|m rest IH]; intros i ct; cbn [mineAll].
  - apply alike_ret.
  - apply alike_bind; [apply alike_Mine|]. intros [[blk m'] ct'].
    apply alike_bind; [apply IH|]. intros [[nb rest'] ct'']. apply alike_ret.
Qed.

Lemma alike_simRound order (lbp : Z) (st : simState) :
  alike (simRound order lbp st) (simRound order lbp st).
Proof.
  unfold simRound. apply alike_bind; [apply alike_lift|]. intros [ct blocks].
  apply alike_bind; [apply alike_lift|]. intros _.
  apply alike_bind; [apply alike_lift|]. intros ats.
  apply alike_bind; [apply alike_lift|]. intros atsforks.
  apply alike_bind; [apply alike_mineAll|]. intros [[nb ms] ct']. apply alike_ret.
Qed.

Lemma alike_simRounds order (lbp : Z) (n round : nat) (st : simState) :
  alike (simRounds order lbp n round st) (simRounds order lbp n round st).
Proof.
  revert round st. induction n as [|n IH]; intros round st; cbn [simRounds].
  - apply alike_ret.
  - apply alike_bind; [apply alike_simRound|]. intros st'. apply IH.
Qed.

Lemma alike_makeGenLoop (n : nat) (gen : option Tipset) (totalMiners : Z) :
  alike (makeGenLoop n gen totalMiners) (makeGenLoop n gen totalMiners).
Proof.
  revert gen. induction n as [|n IH]; intros gen; cbn [makeGenLoop].
  - apply alike_ret.
  - apply alike_bind; [apply alike_getUniqueID|]. intros nonce.
    apply alike_bind; [apply alike_randInt|]. intros seed.
    apply alike_bind; [apply alike_lift|]. intros ts. apply IH.
Qed.

(** [runSim] from the miners' slice to the loop: what follows the draw of
    the seed, the trial's generator and [uniqueID = 0]. *)
Definition startTrial (totalMiners lbp : Z) : M simState :=
  _ ← lift (if totalMiners <? 0 then Panicked MakeSliceLen else Ok tt);
  gen ← makeGen lbp totalMiners;
  hd ← lift (NewTipset [gen]);
  mret {| simCt := withHead (NewChainTracker (newMiners totalMiners)) (Some hd);
          simBlocks := [gen];
          currentHeight := 0 |}.

Lemma simStart_unfold (totalMiners lbp : Z) :
  simStart totalMiners lbp
  = (seed ← randInt (2 ^ 62); _ ← setTrial seed; startTrial totalMiners lbp).
Proof. reflexivity. Qed.

Lemma alike_startTrial (totalMiners lbp : Z) :
  alike (startTrial totalMiners lbp) (startTrial totalMiners lbp).
Proof.
  unfold startTrial. apply alike_bind; [apply alike_lift|]. intros _.
  apply alike_bind.
  { unfold makeGen. apply alike_bind; [apply alike_makeGenLoop|].
    intros g. apply alike_lift. }
  intros gen. apply alike_bind; [apply alike_lift|]. intros hd. apply alike_ret.
Qed.

Lemma Mbind_assoc {A B C} (c : M A) (f : A -> M B) (g : B -> M C) (w : world) :
  ((c ≫= f) ≫= g) w = (c ≫= (fun a => f a ≫= g)) w.
Proof. unfold mbind, M_bind. destruct (c w) as [[a w']|]; reflexivity. Qed.

(** Two worlds that deliver the same values from [crypto/rand] after the
    next one. *)
Definition sameDrawsAfterNext (w1 w2 : world) : Prop :=
  crandPos w1 = crandPos w2 /\
  forall i, (crandPos w1 < i)%nat -> crandStream w1 i = crandStream w2 i.

(** After the seed is drawn and the trial's generator and [uniqueID] are
    set, nothing of what was before matters but the values to come. *)
Lemma seed_blind {B} (k : M B) (w1 w2 : world) :
  alike k k ->
  sameDrawsAfterNext w1 w2 ->
  agree ((seed ← randInt (2 ^ 62); _ ← setTrial seed; k) w1)
        ((seed ← randInt (2 ^ 62); _ ← setTrial seed; k) w2).
Proof.
  intros Hk [Hp Hs]. unfold mbind, M_bind, randInt, setTrial.
  change (2 ^ 62 <=? 0) with false. cbv iota. cbn [crandStream crandPos].
  apply Hk. unfold sameFuture. cbn. split; [reflexivity|]. split; [congruence|].
  intros i Hi. apply Hs. lia.
Qed.

(** The trial after [n] rounds. *)
Definition trialAfter
           (order : nat -> nat -> list (string * Tipset) -> list (string * Tipset))
           (totalMiners lbp : Z) (n : nat) : M simState :=
  st ← simStart totalMiners lbp;
  simRounds order lbp n 0 st.

(** What two outcomes show when they agree: the same panic or the same
    value. *)
Definition sameOutcome {A} (r1 r2 : result (A * world)) : Prop :=
  match r1, r2 with
  | Ok (a1, _), Ok (a2, _) => a1 = a2
  | Panicked p1, Panicked p2 => p1 = p2
  | _, _ => False
  end.

Lemma agree_sameOutcome {A} (r1 r2 : result (A * world)) : agree r1 r2 -> sameOutcome r1 r2.
Proof.
  unfold agree, sameOutcome. destruct r1 as [[a1 w1]|p1], r2 as [[a2 w2]|p2]; intuition.
Qed.

Lemma simStart_then_blind {B} (totalMiners lbp : Z) (k : simState -> M B) (w1 w2 : world) :
  (forall st, alike (k st) (k st)) ->
  sameDrawsAfterNext w1 w2 ->
  agree ((simStart totalMiners lbp ≫= k) w1) ((simStart totalMiners lbp ≫= k) w2).
Proof.
  intros Hk Hw. rewrite simStart_unfold.
  assert (forall w,
            ((seed ← randInt (2 ^ 62); _ ← setTrial seed; startTrial totalMiners lbp) ≫= k) w
            = (seed ← randInt (2 ^ 62); _ ← setTrial seed;
               (startTrial totalMiners lbp ≫= k)) w) as Hassoc.
  { intros w. rewrite Mbind_assoc. unfold mbind at 1 4, M_bind.
    destruct (randInt (2 ^ 62) w) as [[seed w']|]; [|reflexivity].
    apply Mbind_assoc. }
  rewrite !Hassoc. apply seed_blind; [|exact Hw].
  apply alike_bind; [apply alike_startTrial | exact Hk].
Qed.

(** C7 (amended).  Take two runs of a trial with the same numbers of miners
    and rounds, the same lookback, the same orders of iteration over the
    miners' forks and the same values from [crypto/rand] after the draw of
    the trial's seed (the tickets of the genesis blocks).  Whatever the two
    seeds, the states of the generator and the values of [uniqueID] at the
    start, the runs end in the same panic or, after every number of rounds,
    in the same state: the same table of blocks, live blocks, head, miners
    and published blocks; and [runSim] delivers the same tracker. *)
Theorem trial_blind_to_seed
        (order : nat -> nat -> list (string * Tipset) -> list (string * Tipset))
        (totalMiners roundNum lbp : Z) (w1 w2 : world) :
  sameDrawsAfterNext w1 w2 ->
  (forall n, sameOutcome (trialAfter order totalMiners lbp n w1)
                         (trialAfter order totalMiners lbp n w2)) /\
  sameOutcome (runSim order totalMiners roundNum lbp w1)
              (runSim order totalMiners roundNum lbp w2).
Proof.
  intros Hw. split.
  - intros n. apply agree_sameOutcome. unfold trialAfter.
    apply simStart_then_blind; [|exact Hw]. intros st. apply alike_simRounds.
  - apply agree_sameOutcome. unfold runSim.
    apply simStart_then_blind; [|exact Hw]. intros st.
    apply alike_bind; [apply alike_simRounds|]. intros st'. apply alike_ret.
Qed.


(** * Further properties of the simulator *)

(** ** allTipsets: when it panics and what it groups *)

(** Does the test of [allTipsets] on [blk1] and [blk2] read the name of the
    parents of a block that has none? *)
Definition nilParents (blk1 blk2 : Block) : bool :=
  (Height blk1 =? Height blk2) &&
  (negb (is_Some_bool (Parents blk1)) || negb (is_Some_bool (Parents blk2))).

(** Is there, in [blks], a block followed by one for which the test does? *)
Fixpoint nilParentsIn (blks : list Block) : bool :=
  match blks with
  | [] => false
  | blk1 :: later => existsb (nilParents blk1) later || nilParentsIn later
  end.

Lemma sameTipset_cases (blk1 blk2 : Block) :
  sameTipset blk1 blk2 =
  if nilParents blk1 blk2 then Panicked NilDereference else Ok (sameGroup blk1 blk2).
Proof.
  unfold sameGroup, nilParents, sameTipset.
  destruct (Height blk1 =? Height blk2); [|reflexivity].
  destruct (Parents blk1), (Parents blk2); reflexivity.
Qed.

Lemma collectTipset_cases (blk1 : Block) (later tipset : list Block) :
  collectTipset blk1 later tipset =
  if existsb (nilParents blk1) later then Panicked NilDereference
  else Ok (tipset ++ filter (fun blk2 => sameGroup blk1 blk2 = true) later).
Proof.
  revert tipset. induction later as [|blk2 rest IH]; intros tipset.
  - cbn. rewrite app_nil_r. reflexivity.
  - cbn [collectTipset existsb]. rewrite sameTipset_cases.
    destruct (nilParents blk1 blk2); [reflexivity|].
    cbn [mbind result_bind rbind orb]. rewrite IH.
    destruct (existsb _ rest); [reflexivity|].
    rewrite filter_cons. destruct (sameGroup blk1 blk2) eqn:E.
    + rewrite decide_True by reflexivity. rewrite <- app_assoc. reflexivity.
    + rewrite decide_False by discriminate. reflexivity.
Qed.

Lemma allTipsets_cases (blks : list Block) :
  if nilParentsIn blks then allTipsets blks = Panicked NilDereference
  else exists tipsets, allTipsets blks = Ok tipsets.
Proof.
  induction blks as [|blk1 later IH]; [exists []; reflexivity|].
  cbn [nilParentsIn allTipsets]. rewrite collectTipset_cases.
  destruct (existsb (nilParents blk1) later); [reflexivity|].
  cbn [orb mbind result_bind rbind app].
  destruct (NewTipset_cons blk1 (filter (fun blk2 => sameGroup blk1 blk2 = true) later))
    as [ts ->].
  destruct (nilParentsIn later).
  - rewrite IH. reflexivity.
  - destruct IH as [tipsets ->]. eexists. reflexivity.
Qed.

(** Two blocks of [blks], the one before the other, of one height, one of
    them without parents. *)
Definition nilParentsPair (blks : list Block) : Prop :=
  exists i j b1 b2,
    (i < j)%nat /\ blks !! i = Some b1 /\ blks !! j = Some b2 /\
    Height b1 = Height b2 /\ (Parents b1 = None \/ Parents b2 = None).

Lemma nilParents_spec (b1 b2 : Block) :
  nilParents b1 b2 = true <->
  Height b1 = Height b2 /\ (Parents b1 = None \/ Parents b2 = None).
Proof.
  unfold nilParents. rewrite andb_true_iff, orb_true_iff, Z.eqb_eq.
  destruct (Parents b1), (Parents b2); cbn; intuition congruence.
Qed.

Lemma nilParentsIn_spec (blks : list Block) :
  nilParentsIn blks = true <-> nilParentsPair blks.
Proof.
  induction blks as [|blk1 later IH].
  - split; [discriminate|]. intros (i & j & b1 & b2 & _ & Hi & _).
    rewrite lookup_nil in Hi. discriminate.
  - cbn [nilParentsIn]. rewrite orb_true_iff, IH. split.
    + intros [H|(i & j & b1 & b2 & Hlt & Hi & Hj & Hpair)].
      * apply existsb_exists in H as (b2 & Hin & Hb2).
        apply list_elem_of_In, list_elem_of_lookup in Hin as [j Hj].
        exists 0%nat, (S j), blk1, b2. split; [lia|].
        split; [reflexivity|]. split; [exact Hj|]. apply nilParents_spec, Hb2.
      * exists (S i), (S j), b1, b2. split; [lia|]. repeat split; try assumption; apply Hpair.
    + intros (i & j & b1 & b2 & Hlt & Hi & Hj & Hpair).
      destruct j as [|j]; [lia|]. cbn in Hj. destruct i as [|i].
      * cbn in Hi. injection Hi as <-. left. apply existsb_exists. exists b2.
        split; [|apply nilParents_spec, Hpair].
        apply list_elem_of_In, list_elem_of_lookup. exists j. exact Hj.
      * right. exists i, j, b1, b2. split; [lia|]. repeat split; try assumption; apply Hpair.
Qed.

(** [allTipsets] panics exactly when the slice holds two blocks of one
    height of which one has no parents, the test of the inner loop reading
    [Parents.Name] of both; the panic is a nil dereference.  On every other
    slice it returns. *)
Theorem allTipsets_panics (blks : list Block) :
  (allTipsets blks = Panicked NilDereference <-> nilParentsPair blks) /\
  ((exists tipsets, allTipsets blks = Ok tipsets) <-> ~ nilParentsPair blks).
Proof.
  pose proof (allTipsets_cases blks) as H. rewrite <- nilParentsIn_spec.
  destruct (nilParentsIn blks).
  - rewrite H. split; split.
    + reflexivity.
    + reflexivity.
    + intros [tipsets Ht]. discriminate Ht.
    + intros Hn. exfalso. apply Hn. reflexivity.
  - destruct H as [tipsets Ht]. rewrite Ht. split; split.
    + discriminate.
    + discriminate.
    + discriminate.
    + intros _. exists tipsets. reflexivity.
Qed.

Lemma sameGroup_sym (b1 b2 : Block) : sameGroup b1 b2 = sameGroup b2 b1.
Proof.
  unfold sameGroup, sameTipset. rewrite (Z.eqb_sym (Height b1)).
  destruct (Height b2 =? Height b1); [|reflexivity].
  destruct (Parents b1), (Parents b2); try reflexivity.
  apply String.eqb_sym.
Qed.

(** What [allTipsets] returns: as many tipsets as blocks; tipset [i] holds
    block [i] and the later blocks of its height and parent name, ascending
    in seed.  It is the whole group of block [i] when no earlier block is of
    that group, so the first tipset of a group is the group and each later
    one is a part of it. *)
Theorem allTipsets_shape (blks : list Block) (tipsets : list Tipset) :
  allTipsets blks = Ok tipsets ->
  length tipsets = length blks /\
  forall i ts blk, tipsets !! i = Some ts -> blks !! i = Some blk ->
    Permutation (Blocks ts)
                (blk :: filter (fun blk2 => sameGroup blk blk2 = true) (drop (S i) blks)) /\
    StronglySorted seed_le (Blocks ts) /\
    (Forall (fun b => sameGroup b blk = false) (take i blks) ->
     forall b, In b blks -> sameGroup blk b = true -> In b (Blocks ts)).
Proof.
  intros H. destruct (allTipsets_per_block _ _ H) as [Hlen Hnth].
  split; [exact Hlen|]. intros i ts blk Hi Hb.
  pose proof (Hnth i ts blk Hi Hb) as Hperm. split; [exact Hperm|]. split.
  - assert (In ts tipsets) as Hin
      by (apply list_elem_of_In, list_elem_of_lookup; exists i; exact Hi).
    pose proof (allTipsets_built _ _ H) as Hbuilt.
    rewrite Forall_forall in Hbuilt. apply list_elem_of_In, Hbuilt in Hin.
    destruct Hin as (bs & Hts & _). eapply NewTipset_sorted, Hts.
  - intros Hfirst b Hin Hsame.
    eapply Permutation_in; [apply Permutation_sym, Hperm|].
    rewrite <- (take_drop_middle blks i blk Hb) in Hin.
    apply in_app_or in Hin as [Hin|[<-|Hin]].
    + rewrite Forall_forall in Hfirst. apply list_elem_of_In, Hfirst in Hin.
      rewrite sameGroup_sym, Hsame in Hin. discriminate Hin.
    + left. reflexivity.
    + right. apply list_elem_of_In, list_elem_of_filter.
      split; [exact Hsame | apply list_elem_of_In, Hin].
Qed.

(** ** NewTipset: the least ticket *)

Lemma minTicketOf_least (start : Z) (blocks : list Block) :
  Forall (fun b => start <= Seed b) blocks -> minTicketOf start blocks = start.
Proof.
  unfold minTicketOf. induction 1 as [|b rest Hb _ IH]; [reflexivity|].
  cbn [fold_left]. destruct (Z.ltb_spec (Seed b) start); [lia | exact IH].
Qed.

(** The tipset [NewTipset] returns is led by a block of the slice whose seed
    is the tipset's [MinTicket], and no block of the slice has a smaller
    seed: after the sort, the loop over the seeds finds nothing below the
    seed of the first block.  The name lists the nonces in the sorted order,
    and the tipset has not been a head. *)
Theorem NewTipset_minTicket (blocks : list Block) (ts : Tipset) :
  NewTipset blocks = Ok ts ->
  exists b0,
    Blocks ts !! 0%nat = Some b0 /\
    In b0 blocks /\
    MinTicket ts = Seed b0 /\
    (forall b, In b blocks -> MinTicket ts <= Seed b) /\
    Name ts = stringifyBlocks (Blocks ts) /\
    WasHead ts = false.
Proof.
  intros H. pose proof (NewTipset_perm _ _ H) as Hperm.
  pose proof (NewTipset_sorted _ _ H) as Hsorted.
  apply NewTipset_inv in H as (_ & b0 & rest & _ & ->). cbn [Blocks] in *.
  apply StronglySorted_inv in Hsorted as [_ Hle].
  assert (minTicketOf (Seed b0) (b0 :: rest) = Seed b0) as Hmin.
  { apply minTicketOf_least. constructor; [lia | exact Hle]. }
  exists b0. split; [reflexivity|].
  split; [eapply Permutation_in; [exact Hperm | left; reflexivity]|].
  cbn [MinTicket Name WasHead]. split; [exact Hmin|].
  split; [|split; reflexivity].
  intros b Hb. rewrite Hmin.
  eapply Permutation_in in Hb; [|apply Permutation_sym, Hperm].
  destruct Hb as [<-|Hb]; [lia|].
  rewrite Forall_forall in Hle. apply list_elem_of_In, Hle in Hb. exact Hb.
Qed.

(** ** setHead: the blocks it marks *)

Lemma NoDup_map_In_inj {A B} (f : A -> B) (l : list A) (a b : A) :
  NoDup (map f l) -> In a l -> In b l -> f a = f b -> a = b.
Proof.
  induction l as [|x l IH]; intros Hnd Ha Hb Hf; [destruct Ha|].
  cbn [map] in Hnd. apply NoDup_cons in Hnd as [Hx Hnd].
  destruct Ha as [<-|Ha], Hb as [<-|Hb].
  - reflexivity.
  - exfalso. apply Hx. rewrite Hf. apply list_elem_of_In, in_map, Hb.
  - exfalso. apply Hx. rewrite <- Hf. apply list_elem_of_In, in_map, Ha.
  - apply IH; assumption.
Qed.

Lemma lookup_map {A B} (f : A -> B) (l : list A) (i : nat) :
  map f l !! i = option_map f (l !! i).
Proof.
  revert i. induction l as [|x l IH]; intros [|i]; cbn; try reflexivity. apply IH.
Qed.

(** Among blocks of distinct nonces, the test of [markBlocks] by nonce is
    membership in the head. *)
Lemma inHead_by_nonce (blocks headBlocks : list Block) (b : Block) :
  NoDup (map Nonce blocks) ->
  (forall x, In x headBlocks -> In x blocks) ->
  In b blocks ->
  existsb (fun h => Nonce h =? Nonce b) headBlocks = true <-> In b headBlocks.
Proof.
  intros Hnd Hsub Hb. rewrite existsb_exists. split.
  - intros (x & Hx & Heq). apply Z.eqb_eq in Heq.
    rewrite <- (NoDup_map_In_inj Nonce blocks x b Hnd (Hsub x Hx) Hb Heq). exact Hx.
  - intros Hin. exists b. split; [exact Hin | apply Z.eqb_refl].
Qed.

(** [setHead] on a tracker with a head and blocks of distinct nonces either
    changes nothing, or installs a tipset [c] of the round's blocks as the
    head: the head has [WasHead] set and every block of it [InHead]; in the
    round's slice exactly the blocks of [c] get [InHead] set and nothing
    else of any block changes; the tables, the miners and [maxHeight] of the
    tracker stay as they were. *)
Theorem setHead_marks (ct ct' : chainTracker) (blocks blocks' : list Block) (h : Tipset) :
  setHead ct blocks = Ok (ct', blocks') ->
  head ct = Some h ->
  NoDup (map Nonce blocks) ->
  (ct' = ct /\ blocks' = blocks) \/
  (exists c hd,
     head ct' = Some hd /\
     WasHead hd = true /\
     Name hd = Name c /\ MinTicket hd = MinTicket c /\ Weight hd = Weight c /\
     Blocks hd = map markInHead (Blocks c) /\
     Forall (fun b => InHead b = true) (Blocks hd) /\
     (forall b, In b (Blocks c) -> In b blocks) /\
     length blocks' = length blocks /\
     (forall i b, blocks !! i = Some b ->
        (In b (Blocks c) -> blocks' !! i = Some (markInHead b)) /\
        (~ In b (Blocks c) -> blocks' !! i = Some b)) /\
     allBlocks ct' = allBlocks ct /\ liveBlocksByHeight ct' = liveBlocksByHeight ct /\
     miners ct' = miners ct /\ maxHeight ct' = maxHeight ct).
Proof.
  intros H Hh Hnd.
  destruct (setHead_spec _ _ _ _ _ H Hh) as (tipsets & Hts & Hcase).
  destruct Hcase as [(_ & -> & ->)|(c & Hin & _ & _ & -> & ->)]; [left; split; reflexivity|].
  right. exists c, (markWasHead c).
  assert (forall b, In b (Blocks c) -> In b blocks) as Hsub
    by (intros b Hb; eapply allTipsets_members; eassumption).
  split; [reflexivity|]. split; [reflexivity|]. split; [reflexivity|].
  split; [reflexivity|]. split; [reflexivity|]. split; [reflexivity|].
  split.
  { cbn [markWasHead Blocks]. apply Forall_forall. intros b Hb.
    apply list_elem_of_In, in_map_iff in Hb as (b0 & <- & _). reflexivity. }
  split; [exact Hsub|]. split; [unfold markBlocks; apply length_map|].
  split; [|repeat split].
  intros i b Hi. unfold markBlocks. rewrite lookup_map, Hi. cbn [option_map].
  assert (In b blocks) as Hb
    by (apply list_elem_of_In, list_elem_of_lookup; exists i; exact Hi).
  pose proof (inHead_by_nonce blocks (Blocks c) b Hnd Hsub Hb) as Hiff.
  destruct (existsb _ (Blocks c)).
  - split; [reflexivity|]. intros Hn. exfalso. apply Hn, Hiff. reflexivity.
  - split; [|reflexivity]. intros Hc. apply Hiff in Hc. discriminate Hc.
Qed.

(** ** Mine: the block it prefers *)

(** [b] is the block of [blks] the loop of [Mine] ends with: not null, of
    positive parent weight, heavier than every block before it that is not
    null and at least as heavy as every one after it. *)
Definition preferred (blks : list Block) (b : Block) : Prop :=
  exists pre post,
    blks = pre ++ b :: post /\ Null b = false /\ 0 < ParentWeight b /\
    Forall (fun x => Null x = false -> ParentWeight x < ParentWeight b) pre /\
    Forall (fun x => Null x = false -> ParentWeight x <= ParentWeight b) post.

Lemma considerBlocks_preferred (blks : list Block) (v0 : mineVars) :
  bestBlock v0 = None -> maxWeight v0 = 0 ->
  match bestBlock (fold_left considerBlock blks v0) with
  | Some b => preferred blks b /\ maxWeight (fold_left considerBlock blks v0) = ParentWeight b
  | None => maxWeight (fold_left considerBlock blks v0) = 0 /\
            Forall (fun x => Null x = false -> ParentWeight x <= 0) blks
  end.
Proof.
  intros Hb0 Hw0. induction blks as [|x l IH] using rev_ind.
  - cbn. rewrite Hb0. split; [exact Hw0 | constructor].
  - rewrite fold_left_app. cbn [fold_left].
    set (v := fold_left considerBlock l v0) in *.
    unfold considerBlock.
    destruct (Null x) eqn:En; cbn [negb andb].
    + destruct (bestBlock v) as [b|] eqn:Eb; cbn [is_Some_bool negb].
      * rewrite Eb. destruct IH as [(pre & post & -> & Hn & Hpos & Hpre & Hpost) Hw].
        split; [|exact Hw]. exists pre, (post ++ [x]).
        split; [rewrite <- app_assoc; reflexivity|].
        split; [exact Hn|]. split; [exact Hpos|]. split; [exact Hpre|].
        apply Forall_app. split; [exact Hpost|].
        constructor; [rewrite En; discriminate | constructor].
      * cbn [bestBlock maxWeight]. destruct IH as [Hw Hall].
        split; [exact Hw|]. apply Forall_app. split; [exact Hall|].
        constructor; [rewrite En; discriminate | constructor].
    + destruct (Z.ltb_spec (maxWeight v) (ParentWeight x)) as [Hlt|Hge].
      * cbn [bestBlock maxWeight]. split; [|reflexivity].
        exists l, []. split; [reflexivity|]. split; [exact En|].
        destruct (bestBlock v) as [b|] eqn:Eb.
        -- destruct IH as [(pre & post & -> & Hn & Hpos & Hpre & Hpost) Hw].
           rewrite Hw in Hlt. split; [lia|]. split; [|constructor].
           apply Forall_app. split.
           ++ eapply Forall_impl; [exact Hpre|]. intros y Hy Hny. specialize (Hy Hny). lia.
           ++ constructor; [intros _; lia|].
              eapply Forall_impl; [exact Hpost|]. intros y Hy Hny. specialize (Hy Hny). lia.
        -- destruct IH as [Hw Hall]. rewrite Hw in Hlt. split; [lia|].
           split; [|constructor].
           eapply Forall_impl; [exact Hall|]. intros y Hy Hny. specialize (Hy Hny). lia.
      * destruct (bestBlock v) as [b|] eqn:Eb.
        -- destruct IH as [(pre & post & -> & Hn & Hpos & Hpre & Hpost) Hw].
           split; [|exact Hw]. exists pre, (post ++ [x]).
           split; [rewrite <- app_assoc; reflexivity|].
           split; [exact Hn|]. split; [exact Hpos|]. split; [exact Hpre|].
           apply Forall_app. split; [exact Hpost|].
           constructor; [intros _; lia | constructor].
        -- destruct IH as [Hw Hall]. split; [exact Hw|].
           apply Forall_app. split; [exact Hall|].
           constructor; [intros _; lia | constructor].
Qed.

(** [Mine] generates a block on each fork it holds, in the order of the
    [range] over the map.  The block it returns is the heaviest by parent
    weight of those that are not null, and the first generated among the
    heaviest: which of several such blocks is returned depends on the order
    of iteration.  It returns none exactly when no block generated is both
    not null and of positive parent weight. *)
Theorem Mine_prefers_heaviest
        (order : list (string * Tipset) -> list (string * Tipset))
        (m m' : RationalMiner) (ct ct' : chainTracker) (atsforks : list (list Tipset))
        (lbp : Z) (res : option Block) (w w' : world) :
  Mine order m ct atsforks lbp w = Ok (res, m', ct', w') ->
  exists blks,
    minedOn (ConsiderAllForks m atsforks) lbp
            (order (map_to_list (forksConsidered m atsforks))) w blks w' /\
    match res with
    | Some b => preferred blks b
    | None => Forall (fun x => Null x = false -> ParentWeight x <= 0) blks
    end.
Proof.
  unfold Mine. fold (forksConsidered m atsforks). intros H.
  apply Mbind_Ok in H as (v & w1 & Hloop & H).
  apply mineLoop_minedOn in Hloop as (blks & Hmined & Hv).
  pose proof (considerBlocks_preferred blks
                {| nullBlocks := []; maxWeight := 0; bestBlock := None; mineCt := ct |}
                eq_refl eq_refl) as Hpref.
  rewrite <- Hv in Hpref. exists blks.
  destruct (bestBlock v) as [b|] eqn:Eb.
  - apply mret_Ok in H as [[= -> _ _] ->]. split; [exact Hmined | apply Hpref].
  - apply Mbind_Ok in H as (pf & w2 & Hext & H). apply lift_Ok in Hext as [_ ->].
    apply mret_Ok in H as [[= -> _ _] ->]. split; [exact Hmined | apply Hpref].
Qed.

(** ** A round: one block of a miner at most *)

Lemma Mine_owner order (m m' : RationalMiner) (ct ct' : chainTracker)
      (atsforks : list (list Tipset)) (lbp : Z) (res : option Block) (w w' : world) :
  Mine order m ct atsforks lbp w = Ok (res, m', ct', w') ->
  ID m' = ID m /\ forall b, res = Some b -> Owner b = ID m /\ Null b = false.
Proof.
  unfold Mine. intros H. apply Mbind_Ok in H as (v & w1 & Hloop & H).
  apply mineLoop_minedOn in Hloop as (blks & Hmined & Hv).
  pose proof (minedOn_sources _ _ _ _ _ _ Hmined) as Hsrc.
  assert (forall b, bestBlock v = Some b -> Owner b = ID m /\ Null b = false) as Hbest.
  { intros b Hb. rewrite Hv in Hb.
    apply considerBlocks_some in Hb as [Hin Hn]; [|reflexivity|reflexivity].
    split; [|exact Hn].
    apply list_elem_of_In, list_elem_of_lookup in Hin as [i Hi].
    destruct (Forall2_lookup_r _ _ _ _ _ Hsrc Hi) as (e & _ & _ & Ho & _). exact Ho. }
  destruct (bestBlock v) as [b|] eqn:Eb.
  - apply mret_Ok in H as [[= -> -> _] _]. split; [reflexivity|].
    intros b' [= <-]. apply Hbest. reflexivity.
  - apply Mbind_Ok in H as (pf & w2 & _ & H).
    apply mret_Ok in H as [[= -> -> _] _]. split; [reflexivity|]. intros b' [=].
Qed.

Lemma mineAll_owners order (i : nat) (ms ms' : list RationalMiner) (ct ct' : chainTracker)
      (atsforks : list (list Tipset)) (lbp : Z) (newBlocks : list Block) (w w' : world) :
  mineAll order i ms ct atsforks lbp w = Ok (newBlocks, ms', ct', w') ->
  sublist (map Owner newBlocks) (map ID ms) /\
  map ID ms' = map ID ms /\
  Forall (fun b => Null b = false) newBlocks.
Proof.
  revert i ct newBlocks ms' ct' w. induction ms as [|m rest IH];
    intros i ct newBlocks ms' ct' w H.
  - apply mret_Ok in H as [[= -> -> _] _]. repeat split; constructor.
  - cbn [mineAll] in H. apply Mbind_Ok in H as ([[res m1] ct1] & w1 & Hm & H).
    apply Mbind_Ok in H as ([[nb rest1] ct2] & w2 & Hrest & H).
    apply mret_Ok in H as [[= -> -> _] ->].
    apply IH in Hrest as (Hsub & Hids & Hnn).
    apply Mine_owner in Hm as [Hid Hres].
    cbn [map]. rewrite Hid, Hids. split; [|split; [reflexivity|]].
    + destruct res as [b|].
      * destruct (Hres b eq_refl) as [Ho _]. cbn [map]. rewrite Ho.
        apply sublist_skip. exact Hsub.
      * apply sublist_cons. exact Hsub.
    + destruct res as [b|]; [|exact Hnn].
      constructor; [apply (Hres b eq_refl) | exact Hnn].
Qed.

(** The identifiers of the miners of a trial: [0] to [totalMiners - 1]. *)
Definition minerIDs (totalMiners : Z) : list Z :=
  map Z.of_nat (seq 0 (Z.to_nat totalMiners)).

Lemma newMiners_IDs (totalMiners : Z) : map ID (newMiners totalMiners) = minerIDs totalMiners.
Proof.
  unfold newMiners, minerIDs. rewrite map_map. reflexivity.
Qed.

Lemma NoDup_minerIDs (totalMiners : Z) : NoDup (minerIDs totalMiners).
Proof.
  unfold minerIDs. generalize 0%nat as s.
  induction (Z.to_nat totalMiners) as [|n IH]; intros s; cbn [seq map]; [constructor|].
  apply NoDup_cons. split; [|apply IH].
  intros Hin. apply list_elem_of_In, in_map_iff in Hin as (x & Hx & Hin).
  apply in_seq in Hin. lia.
Qed.

Lemma simRound_owners order (lbp : Z) (st st' : simState) (w w' : world) :
  simRound order lbp st w = Ok (st', w') ->
  sublist (map Owner (simBlocks st')) (map ID (miners (simCt st))) /\
  map ID (miners (simCt st')) = map ID (miners (simCt st)) /\
  Forall (fun b => Null b = false) (simBlocks st').
Proof.
  intros H. apply simRound_spec in H
    as (ct1 & blocks1 & ats & atsforks & newBlocks & ms & ct2 & Hset & _ & _ & _ & Hmine & ->).
  destruct (setHead_frame _ _ _ _ Hset) as (_ & Hms & _).
  rewrite roundRecord_miners, Hms in Hmine.
  apply mineAll_owners in Hmine. cbn [simBlocks simCt withMiners miners]. exact Hmine.
Qed.

(** In every round of a trial a miner publishes one block at most: the
    owners of the blocks a round publishes are identifiers of miners,
    strictly ascending in the order of publication, so no two blocks of a
    round have the same owner and a round publishes no more blocks than
    there are miners; and no block published is null. *)
Theorem one_block_per_miner
        (order : nat -> nat -> list (string * Tipset) -> list (string * Tipset))
        (totalMiners lbp : Z) (n : nat) (w w' : world) (st : simState) :
  trialAfter order totalMiners lbp (S n) w = Ok (st, w') ->
  sublist (map Owner (simBlocks st)) (minerIDs totalMiners) /\
  NoDup (map Owner (simBlocks st)) /\
  (length (simBlocks st) <= Z.to_nat totalMiners)%nat /\
  Forall (fun b => Null b = false) (simBlocks st).
Proof.
  unfold trialAfter. intros H. apply Mbind_Ok in H as (st0 & w0 & Hstart & H).
  assert (map ID (miners (simCt st0)) = minerIDs totalMiners) as Hids.
  { apply simStart_spec in Hstart as (_ & _ & gen & hd & _ & _ & _ & ->).
    cbn [simCt withHead NewChainTracker miners]. apply newMiners_IDs. }
  clear Hstart.
  assert (sublist (map Owner (simBlocks st)) (minerIDs totalMiners) /\
          Forall (fun b => Null b = false) (simBlocks st)) as [Hsub Hnn].
  { generalize dependent st0. generalize 0%nat as round. generalize dependent w0.
    induction n as [|n IH]; intros w0 round st0 H Hids.
    - cbn [simRounds] in H. apply Mbind_Ok in H as (st1 & w1 & Hround & H).
      apply mret_Ok in H as [-> _].
      apply simRound_owners in Hround as (Hsub & _ & Hnn). rewrite Hids in Hsub.
      split; assumption.
    - cbn [simRounds] in H. apply Mbind_Ok in H as (st1 & w1 & Hround & H).
      apply simRound_owners in Hround as (_ & Hids1 & _).
      eapply (IH w1 (S round) st1); [exact H|]. rewrite Hids1. exact Hids. }
  split; [exact Hsub|]. split; [|split; [|exact Hnn]].
  - eapply sublist_NoDup; [apply NoDup_minerIDs | exact Hsub].
  - apply sublist_length in Hsub. rewrite !length_map in Hsub.
    unfold minerIDs in Hsub. rewrite length_map, length_seq in Hsub. exact Hsub.
Qed.

(** ** A trial runs to its end *)

(** A tipset from which [lookbackTipset] can take [n] steps: it and its
    nearest [n - 1] ancestors have blocks, and the blocks have parents. *)
Fixpoint deep (n : nat) (ts : Tipset) : Prop :=
  match n with
  | O => True
  | S n' => Blocks ts <> [] /\
            Forall (fun b => exists p, Parents b = Some p /\ deep n' p) (Blocks ts)
  end.

(** A block whose tipsets are such. *)
Definition deepBlock (n : nat) (b : Block) : Prop :=
  match n with
  | O => True
  | S n' => exists p, Parents b = Some p /\ deep n' p
  end.

Lemma deep_blocks (n : nat) (ts : Tipset) :
  Blocks ts <> [] -> Forall (deepBlock n) (Blocks ts) -> deep n ts.
Proof. destruct n; [intros; exact I|]. intros Hne Hall. exact (conj Hne Hall). Qed.

Lemma deep_S (n : nat) (ts : Tipset) : deep (S n) ts -> deep n ts.
Proof.
  revert ts. induction n as [|n IH]; intros ts H; [exact I|].
  destruct H as [Hne Hall]. split; [exact Hne|].
  eapply Forall_impl; [exact Hall|]. intros b (p & Hp & Hd).
  exists p. split; [exact Hp | apply IH, Hd].
Qed.

Lemma deepBlock_S (n : nat) (b : Block) : deepBlock (S n) b -> deepBlock n b.
Proof.
  destruct n; [intros; exact I|]. intros (p & Hp & Hd).
  exists p. split; [exact Hp | apply deep_S, Hd].
Qed.

Lemma deep_le (n n' : nat) (ts : Tipset) : (n <= n')%nat -> deep n' ts -> deep n ts.
Proof. induction 1 as [|k _ IH]; [auto|]. intros H. apply IH, deep_S, H. Qed.

Lemma deepBlock_mark (n : nat) (b : Block) : deepBlock n b -> deepBlock n (markInHead b).
Proof. destruct n; [auto|]. intros H. exact H. Qed.

Lemma lookbackSteps_deep (n : nat) (ts : Tipset) :
  deep n ts -> exists lb, lookbackSteps n (Some ts) = Ok (Some lb).
Proof.
  revert ts. induction n as [|n IH]; intros ts H; [exists ts; reflexivity|].
  destruct H as [Hne Hall]. cbn [lookbackSteps]. unfold getParents.
  destruct (Blocks ts) as [|b0 rest]; [contradiction|].
  apply Forall_cons in Hall as [(p & Hp & Hd) _].
  cbn [mbind result_bind rbind]. rewrite Hp. apply IH, Hd.
Qed.

(** The tipset whose weight a block on [ts] inherits is found by the loop
    of [liveParents] entered at [ts]. *)
Lemma liveParentsOfTipset_From (ts : Tipset) : liveParentsOfTipset ts = liveParentsFrom ts.
Proof.
  destruct ts as [[|[n up o h null pw s ih] rest] name mt wh wt]; [reflexivity|].
  unfold liveParentsOfTipset, liveParents. cbn.
  destruct null; [|reflexivity]. destruct up; reflexivity.
Qed.

Lemma liveParentsFrom_live (ts : Tipset) (b0 : Block) (rest : list Block) :
  Blocks ts = b0 :: rest -> Null b0 = false -> liveParentsFrom ts = Ok ts.
Proof.
  destruct ts as [bl name mt wh wt]. cbn [Blocks]. intros -> Hn.
  destruct b0 as [n up o h null pw s ih]. cbn in Hn. subst null. reflexivity.
Qed.

Lemma liveParentsFrom_null (nb : Block) (p : Tipset) :
  Null nb = true -> Parents nb = Some p ->
  liveParentsFrom (tipsetOf nb) = liveParentsFrom p.
Proof.
  destruct nb as [n up o h null pw s ih]. cbn. intros -> ->. reflexivity.
Qed.

(** The loop of [liveParents] entered at [ts] ends, at a tipset of weight in
    [[1, bound]]. *)
Definition liveBelow (bound : Z) (ts : Tipset) : Prop :=
  exists lp, liveParentsFrom ts = Ok lp /\ 1 <= Weight lp <= bound.

(** A block as round [r] of a trial of at most [tm] miners takes them from
    the round before. *)
Definition liveBlock (L : nat) (tm r : Z) (b : Block) : Prop :=
  Height b = r /\ Null b = false /\ deepBlock L b /\ 0 <= ParentWeight b <= r * tm.

(** A fork as the miners hold them in round [r]. *)
Definition goodFork (L : nat) (tm r : Z) (ts : Tipset) : Prop :=
  Blocks ts <> [] /\ Forall (fun b => Height b = r) (Blocks ts) /\
  deep L ts /\ liveBelow ((r + 1) * tm) ts.

(** A block generated in round [r]. *)
Definition minedBlock (L : nat) (tm r : Z) (blk : Block) : Prop :=
  Height blk = r + 1 /\ deepBlock L blk /\ 1 <= ParentWeight blk <= (r + 1) * tm /\
  exists ts, Parents blk = Some ts /\ liveBelow ((r + 1) * tm) ts.

Lemma liveBlock_mark (L : nat) (tm r : Z) (b : Block) :
  liveBlock L tm r b -> liveBlock L tm r (markInHead b).
Proof.
  intros (Hh & Hn & Hd & Hw). split; [exact Hh|]. split; [exact Hn|].
  split; [apply deepBlock_mark, Hd | exact Hw].
Qed.

Lemma NewTipset_goodFork (L : nat) (tm r : Z) (bs : list Block) (ts : Tipset) :
  0 <= r -> (r + 1) * tm <= int_max ->
  NewTipset bs = Ok ts ->
  Forall (liveBlock L tm r) bs ->
  Z.of_nat (length bs) <= tm ->
  goodFork L tm r ts.
Proof.
  intros Hr Hmax Hts Hall Hlen.
  pose proof (NewTipset_perm _ _ Hts) as Hperm.
  pose proof (NewTipset_nonempty _ _ Hts) as Hne.
  assert (Forall (liveBlock L tm r) (Blocks ts)) as Hall'
    by (eapply Permutation_Forall; [apply Permutation_sym, Hperm | exact Hall]).
  split; [exact Hne|]. split.
  { eapply Forall_impl; [exact Hall'|]. intros b Hb. apply Hb. }
  split.
  { apply deep_blocks; [exact Hne|].
    eapply Forall_impl; [exact Hall'|]. intros b Hb. apply Hb. }
  pose proof (Permutation_length Hperm) as Hl.
  apply NewTipset_inv in Hts as (_ & b0 & rest & _ & ->). cbn [Blocks] in *.
  apply Forall_cons in Hall' as [(_ & Hn0 & _ & Hw0) _].
  exists {| Blocks := b0 :: rest; Name := stringifyBlocks (b0 :: rest);
            MinTicket := minTicketOf (Seed b0) (b0 :: rest); WasHead := false;
            Weight := if negb (Null b0)
                      then int_add (ParentWeight b0) (Z.of_nat (length (b0 :: rest)))
                      else ParentWeight b0 |}.
  split; [eapply liveParentsFrom_live; [reflexivity | exact Hn0]|].
  cbn [Weight]. rewrite Hn0. cbn [negb]. rewrite Hl.
  assert (1 <= Z.of_nat (length bs)) as Hpos by (rewrite <- Hl; cbn [length]; lia).
  unfold int_add. rewrite wrap_int_id; [lia|].
  unfold in_int, int_min, int_max in *. lia.
Qed.

Lemma generateBlock_mined (L : nat) (tm r : Z) (m : RationalMiner) (ts : Tipset)
      (lbp : Z) (blk : Block) (w w1 : world) :
  0 <= r -> r + 1 <= int_max ->
  goodFork L tm r ts ->
  generateBlock m ts lbp w = Ok (blk, w1) ->
  minedBlock L tm r blk /\ Parents blk = Some ts.
Proof.
  intros Hr Hmax (Hne & Hheights & Hdeep & lp & Hlp & Hw) H.
  apply generateBlock_spec in H as (lb & lb1 & lp' & h & _ & _ & Hlp' & Hh & -> & _).
  rewrite liveParentsOfTipset_From, Hlp in Hlp'. injection Hlp' as <-.
  unfold getHeight in Hh. destruct (Blocks ts) as [|b0 rest] eqn:Eb; [contradiction|].
  injection Hh as <-. apply Forall_cons in Hheights as [Hh0 _].
  split; [|reflexivity]. split.
  { cbn [Height]. rewrite Hh0. apply wrap_int_id.
    unfold in_int, int_min, int_max in *. lia. }
  split; [apply deepBlock_S; exists ts; split; [reflexivity | exact Hdeep]|].
  split; [exact Hw|]. exists ts. split; [reflexivity|]. exists lp. split; assumption.
Qed.

Lemma generateBlock_total (L : nat) (tm r : Z) (m : RationalMiner) (ts : Tipset)
      (lbp : Z) (w : world) :
  (Z.to_nat (int_sub lbp 1) <= L)%nat ->
  goodFork L tm r ts ->
  exists blk w1, generateBlock m ts lbp w = Ok (blk, w1).
Proof.
  intros HL (Hne & _ & Hdeep & lp & Hlp & _).
  destruct (lookbackSteps_deep _ _ (deep_le _ _ _ HL Hdeep)) as [lb Hlb].
  destruct (Blocks ts) as [|b0 rest] eqn:Eb; [contradiction|].
  eexists _, _. eapply generateBlock_ok.
  - exact Hlb.
  - apply lookbackTipset_1.
  - rewrite liveParentsOfTipset_From. exact Hlp.
  - unfold getHeight. rewrite Eb. reflexivity.
Qed.

Lemma mineLoop_total (L : nat) (tm r : Z) (m : RationalMiner) (lbp : Z)
      (entries : list (string * Tipset)) (v : mineVars) (w : world) :
  (Z.to_nat (int_sub lbp 1) <= L)%nat ->
  Forall (fun e => goodFork L tm r (snd e)) entries ->
  exists v' w', mineLoop m lbp entries v w = Ok (v', w').
Proof.
  intros HL. revert v w. induction entries as [|e rest IH]; intros v w Hall.
  - exists v, w. reflexivity.
  - apply Forall_cons in Hall as [He Hrest].
    destruct (generateBlock_total L tm r m (snd e) lbp w HL He) as (blk & w1 & Hgen).
    destruct (IH (considerBlock v blk) w1 Hrest) as (v' & w' & Hloop).
    exists v', w'. cbn [mineLoop]. unfold mineStep.
    erewrite Mbind_run; [exact Hloop|].
    erewrite Mbind_run by exact Hgen. reflexivity.
Qed.

Lemma minedOn_mined (L : nat) (tm r : Z) (m : RationalMiner) (lbp : Z)
      (entries : list (string * Tipset)) (w w' : world) (blks : list Block) :
  0 <= r -> r + 1 <= int_max ->
  minedOn m lbp entries w blks w' ->
  Forall (fun e => goodFork L tm r (snd e)) entries ->
  Forall (minedBlock L tm r) blks.
Proof.
  intros Hr Hmax. induction 1 as [w|k ts rest w w1 w' blk blks Hgen _ IH]; intros Hall.
  - constructor.
  - apply Forall_cons in Hall as [He Hrest]. cbn [snd] in He.
    constructor; [|apply IH, Hrest].
    eapply generateBlock_mined; eassumption.
Qed.

(** When every fork held stands under some null block of [nblks], nothing
    but the tipsets of these null blocks is left after [extendNulls]. *)
Lemma extendNulls_all (all nblks : list Block) (pforks pforks' : gmap string Tipset) :
  (forall nb, In nb nblks -> In nb all) ->
  (forall k ts, pforks !! k = Some ts ->
     (exists nb, In nb all /\ ts = tipsetOf nb /\ k = nullName nb) \/
     (exists nb, In nb nblks /\ parentName nb = k)) ->
  extendNulls pforks nblks = Ok pforks' ->
  forall k ts, pforks' !! k = Some ts ->
    exists nb, In nb all /\ ts = tipsetOf nb /\ k = nullName nb.
Proof.
  revert pforks. induction nblks as [|nb rest IH]; intros pforks Hsub Hinv H k ts Hk.
  - injection H as <-. destruct (Hinv k ts Hk) as [Hdone|(nb & [] & _)]. exact Hdone.
  - cbn [extendNulls] in H. apply rbind_Ok in H as (pf1 & Hone & H).
    apply extendNull_spec in Hone. subst pf1.
    eapply (IH _ (fun x Hx => Hsub x (or_intror Hx))); [|exact H | exact Hk].
    intros k' ts' Hk'.
    destruct (decide (nullName nb = k')) as [<-|Hne].
    + rewrite lookup_insert_eq in Hk'. injection Hk' as <-.
      left. exists nb. split; [apply Hsub; left; reflexivity|]. split; reflexivity.
    + rewrite lookup_insert_ne in Hk' by exact Hne.
      apply lookup_delete_Some in Hk' as [Hnp Hk'].
      destruct (Hinv k' ts' Hk') as [Hdone|(nb' & [<-|Hin] & Hp)].
      * left. exact Hdone.
      * contradiction.
      * right. exists nb'. split; assumption.
Qed.

(** [Mine] in round [r], on forks as the miners hold them: it returns; the
    block it may return is a block for the next round; the forks it leaves
    are forks for the next round, filed under their names. *)
Lemma Mine_total (L : nat) (tm r : Z) order (m : RationalMiner) (ct : chainTracker)
      (atsforks : list (list Tipset)) (lbp : Z) (w : world) :
  (forall l, Permutation (order l) l) ->
  (Z.to_nat (int_sub lbp 1) <= L)%nat ->
  0 <= r -> r + 1 <= int_max -> 0 <= tm ->
  (forall k ts, PrivateForks m !! k = Some ts -> k = Name ts /\ goodFork L tm r ts) ->
  Forall (Forall (goodFork L tm r)) atsforks ->
  exists res m' ct' w',
    Mine order m ct atsforks lbp w = Ok (res, m', ct', w') /\
    (forall b, res = Some b -> liveBlock L tm (r + 1) b /\ Parents b <> None) /\
    (forall k ts, PrivateForks m' !! k = Some ts ->
                  k = Name ts /\ goodFork L tm (r + 1) ts).
Proof.
  intros Horder HL Hr Hmax Htm Hpf Hats.
  set (m0 := ConsiderAllForks m atsforks).
  set (entries := order (map_to_list (PrivateForks m0))).
  assert (forall k ts, PrivateForks m0 !! k = Some ts -> k = Name ts /\ goodFork L tm r ts)
    as Hpf0.
  { intros k ts Hk. apply ConsiderAllForks_entries in Hk as [Hk|(Hname & forks & Hf & Hts)].
    - apply Hpf, Hk.
    - split; [exact Hname|]. rewrite Forall_forall in Hats.
      apply list_elem_of_In, Hats in Hf. rewrite Forall_forall in Hf.
      apply Hf, list_elem_of_In, Hts. }
  assert (forall k ts, In (k, ts) entries -> PrivateForks m0 !! k = Some ts) as Hentry.
  { intros k ts He. eapply Permutation_in in He; [|apply Horder].
    apply list_elem_of_In, elem_of_map_to_list in He. exact He. }
  assert (Forall (fun e => goodFork L tm r (snd e)) entries) as Hgood.
  { apply Forall_forall. intros [k ts] He. cbn [snd].
    apply list_elem_of_In, Hentry, Hpf0 in He. apply He. }
  destruct (mineLoop_total L tm r m0 lbp entries
              {| nullBlocks := []; maxWeight := 0; bestBlock := None; mineCt := ct |}
              w HL Hgood) as (v & w1 & Hloop).
  pose proof Hloop as Hloop'.
  apply mineLoop_minedOn in Hloop' as (blks & Hmined & Hv).
  pose proof (minedOn_mined L tm r _ _ _ _ _ _ Hr Hmax Hmined Hgood) as Hblks.
  pose proof (minedOn_sources _ _ _ _ _ _ Hmined) as Hsrc.
  destruct (bestBlock v) as [b|] eqn:Eb.
  - exists (Some b), (withForks m0 ∅), (mineCt v), w1. split.
    { unfold Mine. fold m0. fold entries. erewrite Mbind_run by exact Hloop.
      rewrite Eb. reflexivity. }
    split.
    + intros b' [= <-]. rewrite Hv in Eb.
      apply considerBlocks_some in Eb as [Hin Hn]; [|reflexivity|reflexivity].
      rewrite Forall_forall in Hblks. apply list_elem_of_In, Hblks in Hin.
      destruct Hin as (Hh & Hd & Hw & ts & Hp & _).
      split; [|rewrite Hp; discriminate].
      split; [exact Hh|]. split; [exact Hn|]. split; [exact Hd | lia].
    + intros k ts Hk. cbn [withForks PrivateForks] in Hk.
      rewrite lookup_empty in Hk. discriminate Hk.
  - rewrite Hv in Eb. destruct (considerBlocks_none _ _ Eb) as (Hnulls & _ & Hlow).
    rewrite <- Hv in Hnulls. cbn [nullBlocks maxWeight app] in Hnulls, Hlow.
    assert (Forall (fun b => Null b = true) blks) as Hallnull.
    { apply Forall_forall. intros b Hb.
      rewrite Forall_forall in Hblks. rewrite Forall_forall in Hlow.
      destruct (Null b) eqn:En; [reflexivity|]. exfalso.
      pose proof (Hlow b Hb En) as Hle.
      destruct (Hblks b Hb) as (_ & _ & Hw & _). lia. }
    assert (forall nb, In nb (nullBlocks v) <-> In nb blks) as Hsame.
    { intros nb. rewrite Hnulls. split.
      - intros Hin. apply list_elem_of_In, list_elem_of_filter in Hin as [_ Hin].
        apply list_elem_of_In, Hin.
      - intros Hin. apply list_elem_of_In, list_elem_of_filter.
        apply list_elem_of_In in Hin. split; [|exact Hin].
        rewrite Forall_forall in Hallnull. apply Hallnull, Hin. }
    destruct (extendNulls_ok (nullBlocks v) (PrivateForks m0)) as [pforks Hext].
    { apply Forall_forall. intros nb Hnb. apply list_elem_of_In, Hsame in Hnb.
      rewrite Forall_forall in Hblks. apply list_elem_of_In, Hblks in Hnb.
      destruct Hnb as (_ & _ & _ & ts & Hp & _). rewrite Hp. discriminate. }
    exists None, (withForks m0 pforks), (mineCt v), w1. split.
    { unfold Mine. fold m0. fold entries. erewrite Mbind_run by exact Hloop.
      rewrite <- Hv in Eb. rewrite Eb.
      erewrite Mbind_run by (apply lift_run; exact Hext). reflexivity. }
    split; [intros b [=]|].
    intros k ts Hk. cbn [withForks PrivateForks] in Hk.
    destruct (extendNulls_all (nullBlocks v) (nullBlocks v) (PrivateForks m0) pforks
                (fun _ H => H)) with (k := k) (ts := ts)
      as (nb & Hnb & -> & ->); [|exact Hext | exact Hk|].
    + intros k' ts' Hk'. right.
      assert (In (k', ts') entries) as He.
      { eapply Permutation_in; [apply Permutation_sym, Horder|].
        apply list_elem_of_In, elem_of_map_to_list. exact Hk'. }
      apply list_elem_of_In, list_elem_of_lookup in He as [i Hi].
      destruct (Forall2_lookup_l _ _ _ _ _ Hsrc Hi) as (blk & Hblk & Hp & _).
      cbn [snd] in Hp. exists blk. split.
      * apply Hsame, list_elem_of_In, list_elem_of_lookup. exists i. exact Hblk.
      * unfold parentName. rewrite Hp. symmetry. apply (Hpf0 k' ts' Hk').
    + split; [reflexivity|].
      apply Hsame in Hnb. pose proof Hnb as Hnb'.
      rewrite Forall_forall in Hblks. apply list_elem_of_In, Hblks in Hnb.
      rewrite Forall_forall in Hallnull. apply list_elem_of_In, Hallnull in Hnb'.
      destruct Hnb as (Hh & Hd & _ & p & Hp & lp & Hlp & Hw).
      split; [discriminate|]. cbn [tipsetOf Blocks]. split.
      { constructor; [exact Hh | constructor]. }
      split.
      { apply deep_blocks; [discriminate|]. constructor; [exact Hd | constructor]. }
      exists lp. split; [rewrite (liveParentsFrom_null nb p Hnb' Hp); exact Hlp | lia].
Qed.

(** [Mine] touches nothing of the tracker but the table of blocks. *)
Lemma considerBlock_records (v : mineVars) (blk : Block) :
  exists l, mineCt (considerBlock v blk) = fold_left recordBlock l (mineCt v).
Proof.
  unfold considerBlock.
  destruct (negb (Null blk) && (maxWeight v <? ParentWeight blk)); [exists []; reflexivity|].
  destruct (Null blk && negb (is_Some_bool (bestBlock v)));
    [exists [blk] | exists []]; reflexivity.
Qed.

Lemma considerBlocks_records (blks : list Block) (v0 : mineVars) :
  exists l, mineCt (fold_left considerBlock blks v0) = fold_left recordBlock l (mineCt v0).
Proof.
  revert v0. induction blks as [|x rest IH]; intros v0; [exists []; reflexivity|].
  cbn [fold_left]. destruct (IH (considerBlock v0 x)) as [l1 H1].
  destruct (considerBlock_records v0 x) as [l0 H0].
  exists (l0 ++ l1). rewrite fold_left_app, <- H0. exact H1.
Qed.

Lemma Mine_records order (m m' : RationalMiner) (ct ct' : chainTracker)
      (atsforks : list (list Tipset)) (lbp : Z) (res : option Block) (w w' : world) :
  Mine order m ct atsforks lbp w = Ok (res, m', ct', w') ->
  exists l, ct' = fold_left recordBlock l ct.
Proof.
  unfold Mine. intros H. apply Mbind_Ok in H as (v & w1 & Hloop & H).
  apply mineLoop_minedOn in Hloop as (blks & _ & Hv).
  destruct (considerBlocks_records blks
              {| nullBlocks := []; maxWeight := 0; bestBlock := None; mineCt := ct |})
    as [l Hl].
  rewrite <- Hv in Hl. cbn [mineCt] in Hl.
  exists l. destruct (bestBlock v).
  - apply mret_Ok in H as [[= _ _ ->] _]. exact Hl.
  - apply Mbind_Ok in H as (pf & w2 & _ & H).
    apply mret_Ok in H as [[= _ _ ->] _]. exact Hl.
Qed.

Lemma mineAll_records order (i : nat) (ms ms' : list RationalMiner) (ct ct' : chainTracker)
      (atsforks : list (list Tipset)) (lbp : Z) (newBlocks : list Block) (w w' : world) :
  mineAll order i ms ct atsforks lbp w = Ok (newBlocks, ms', ct', w') ->
  exists l, ct' = fold_left recordBlock l ct.
Proof.
  revert i ct newBlocks ms' ct' w. induction ms as [|m rest IH];
    intros i ct newBlocks ms' ct' w H.
  - apply mret_Ok in H as [[= _ _ ->] _]. exists []. reflexivity.
  - cbn [mineAll] in H. apply Mbind_Ok in H as ([[res m1] ct1] & w1 & Hm & H).
    apply Mbind_Ok in H as ([[nb rest1] ct2] & w2 & Hrest & H).
    apply mret_Ok in H as [[= _ _ ->] ->].
    apply IH in Hrest as [l1 ->]. apply Mine_records in Hm as [l0 ->].
    exists (l0 ++ l1). rewrite fold_left_app. reflexivity.
Qed.

Lemma fold_recordBlock_live (blocks : list Block) (ct : chainTracker) :
  liveBlocksByHeight (fold_left recordBlock blocks ct) = liveBlocksByHeight ct.
Proof.
  revert ct. induction blocks as [|b l IH]; intros ct; [reflexivity|].
  cbn [fold_left]. rewrite IH. reflexivity.
Qed.

Lemma mineAll_total (L : nat) (tm r : Z)
      (order : nat -> list (string * Tipset) -> list (string * Tipset))
      (i : nat) (ms : list RationalMiner) (ct : chainTracker)
      (atsforks : list (list Tipset)) (lbp : Z) (w : world) :
  (forall j l, Permutation (order j l) l) ->
  (Z.to_nat (int_sub lbp 1) <= L)%nat ->
  0 <= r -> r + 1 <= int_max -> 0 <= tm ->
  Forall (fun m => forall k ts, PrivateForks m !! k = Some ts ->
                     k = Name ts /\ goodFork L tm r ts) ms ->
  Forall (Forall (goodFork L tm r)) atsforks ->
  exists newBlocks ms' ct' w',
    mineAll order i ms ct atsforks lbp w = Ok (newBlocks, ms', ct', w') /\
    Forall (fun b => liveBlock L tm (r + 1) b /\ Parents b <> None) newBlocks /\
    (length newBlocks <= length ms)%nat /\
    length ms' = length ms /\
    Forall (fun m => forall k ts, PrivateForks m !! k = Some ts ->
                       k = Name ts /\ goodFork L tm (r + 1) ts) ms'.
Proof.
  intros Horder HL Hr Hmax Htm Hms Hats. revert i ct w.
  induction ms as [|m rest IH]; intros i ct w.
  - exists [], [], ct, w. split; [reflexivity|]. repeat split; constructor.
  - apply Forall_cons in Hms as [Hm Hrest].
    destruct (Mine_total L tm r (order i) m ct atsforks lbp w (Horder i) HL Hr Hmax Htm Hm Hats)
      as (res & m' & ct1 & w1 & Hmine & Hres & Hpf).
    destruct (IH Hrest (S i) ct1 w1) as (nb & rest' & ct2 & w2 & Hall & Hnb & Hlen & Hlen' & Hpfs).
    eexists _, _, _, _. split.
    { cbn [mineAll]. erewrite Mbind_run by exact Hmine. cbn beta iota.
      erewrite Mbind_run by exact Hall. reflexivity. }
    split; [|split; [|split]].
    + destruct res as [b|]; [|exact Hnb]. constructor; [apply Hres; reflexivity | exact Hnb].
    + destruct res as [b|]; cbn [length]; lia.
    + cbn [length]. rewrite Hlen'. reflexivity.
    + constructor; assumption.
Qed.

Lemma allTipsets_total (blks : list Block) :
  (length blks <= 1)%nat \/ Forall (fun b => Parents b <> None) blks ->
  exists tipsets, allTipsets blks = Ok tipsets.
Proof.
  intros Hcond. pose proof (allTipsets_cases blks) as H.
  destruct (nilParentsIn blks) eqn:E; [|exact H]. exfalso.
  apply nilParentsIn_spec in E as (i & j & b1 & b2 & Hlt & Hi & Hj & _ & Hnone).
  destruct Hcond as [Hlen|Hall].
  - apply lookup_lt_Some in Hj. lia.
  - rewrite Forall_forall in Hall.
    destruct Hnone as [Hn|Hn]; [apply (Hall b1) | apply (Hall b2)]; try exact Hn;
      apply list_elem_of_lookup; eexists; eassumption.
Qed.

Lemma setHeadLoop_total (tipsets : list Tipset) (c : Tipset) (moved : bool) :
  exists c' moved', setHeadLoop tipsets (Some c) moved = Ok (Some c', moved').
Proof.
  revert c moved. induction tipsets as [|ts rest IH]; intros c moved.
  - exists c, moved. reflexivity.
  - cbn [setHeadLoop]. destruct (replacesHead c ts); apply IH.
Qed.

Lemma setHead_total (ct : chainTracker) (blocks : list Block) (h : Tipset)
      (tipsets : list Tipset) :
  head ct = Some h -> allTipsets blocks = Ok tipsets ->
  exists ct' blocks' h',
    setHead ct blocks = Ok (ct', blocks') /\ head ct' = Some h' /\
    length blocks' = length blocks.
Proof.
  intros Hh Hts. unfold setHead. rewrite Hts. cbn [mbind result_bind rbind]. rewrite Hh.
  destruct (setHeadLoop_total tipsets h false) as (c' & moved' & ->).
  cbn [rbind]. destruct moved'.
  - eexists _, _, _. split; [reflexivity|]. split; [reflexivity|].
    unfold markBlocks. apply length_map.
  - eexists _, _, _. split; [reflexivity|]. split; [exact Hh | reflexivity].
Qed.

(** A tipset built by [NewTipset] from blocks of [blks], no more of them
    than [blks] has. *)
Definition sizedFrom (blks : list Block) (ts : Tipset) : Prop :=
  exists bs, NewTipset bs = Ok ts /\ (forall b, In b bs -> In b blks) /\
             (length bs <= length blks)%nat.

Lemma allTipsets_sized (blks : list Block) (tipsets : list Tipset) :
  allTipsets blks = Ok tipsets -> Forall (sizedFrom blks) tipsets.
Proof.
  revert tipsets. induction blks as [|blk1 later IH]; intros tipsets H.
  - injection H as <-. constructor.
  - cbn [allTipsets] in H.
    apply rbind_Ok in H as (members & Hmem & H).
    apply rbind_Ok in H as (ts1 & Hts1 & H).
    apply rbind_Ok in H as (others & Hothers & H).
    injection H as <-. constructor.
    + exists members. split; [exact Hts1|].
      apply collectTipset_spec in Hmem. subst members. split.
      * intros b [<-|Hb]; [left; reflexivity|]. right.
        apply list_elem_of_In, list_elem_of_filter in Hb as [_ Hb].
        apply list_elem_of_In. exact Hb.
      * cbn [app length].
        pose proof (length_filter (fun blk2 => sameGroup blk1 blk2 = true) later). lia.
    + eapply Forall_impl; [apply IH, Hothers|].
      intros ts (bs & Hts & Hbs & Hlen). exists bs. split; [exact Hts|]. split.
      * intros b Hb. right. apply Hbs, Hb.
      * cbn [length]. lia.
Qed.

Lemma round_forks_sized (blks : list Block) (ats : list Tipset)
      (atsforks : list (list Tipset)) :
  allTipsets blks = Ok ats ->
  forksOfAll ats = Ok atsforks ->
  Forall (Forall (sizedFrom blks)) atsforks.
Proof.
  intros Hats. apply allTipsets_sized in Hats.
  revert atsforks. induction ats as [|ts rest IH]; intros atsforks H.
  - injection H as <-. constructor.
  - cbn [forksOfAll] in H. apply rbind_Ok in H as (forks & Hforks & H).
    apply rbind_Ok in H as (others & Hothers & H). injection H as <-.
    apply Forall_cons in Hats as [Hts Hrest].
    constructor; [|apply IH; assumption].
    unfold forksFromTipset in Hforks.
    destruct (forksFromBlocks_spec (Blocks ts)) as (forks' & Hforks' & _ & Hnth).
    rewrite Hforks in Hforks'. injection Hforks' as <-.
    destruct Hts as (bs & Hbs & Hsub & Hlen).
    pose proof (NewTipset_perm _ _ Hbs) as Hperm.
    apply Forall_forall. intros f Hf.
    apply list_elem_of_lookup in Hf as [i Hi]. specialize (Hnth i f Hi).
    exists (drop i (Blocks ts)). split; [exact Hnth|]. split.
    + intros b Hb. apply Hsub. eapply Permutation_in; [exact Hperm|].
      apply list_elem_of_In. eapply subseteq_drop. apply list_elem_of_In. exact Hb.
    + rewrite length_drop. rewrite (Permutation_length Hperm). lia.
Qed.

Lemma forksOfAll_total (ats : list Tipset) : exists atsforks, forksOfAll ats = Ok atsforks.
Proof.
  induction ats as [|ts rest [others IH]]; [exists []; reflexivity|].
  destruct (forksFromBlocks_spec (Blocks ts)) as (forks & Hforks & _).
  exists (forks :: others). cbn [forksOfAll]. unfold forksFromTipset. rewrite Hforks.
  cbn [mbind result_bind rbind]. rewrite IH. reflexivity.
Qed.

Lemma heights_check (st : simState) (blocks : list Block) (r : Z) :
  Forall (fun b => Height b = r) blocks ->
  forallb (fun blk => roundHeight st blocks =? Height blk) blocks = true.
Proof.
  intros H. apply forallb_forall. intros b Hb. apply Z.eqb_eq.
  assert (Height b = r) as Hr by (rewrite Forall_forall in H; apply H, list_elem_of_In, Hb).
  destruct blocks as [|b0 rest]; [destruct Hb|]. cbn [roundHeight].
  apply Forall_cons in H as [H0 _]. congruence.
Qed.

(** A round runs when its steps do. *)
Lemma simRound_run order (lbp : Z) (st : simState) (w w' : world)
      (ct1 : chainTracker) (blocks1 : list Block) (ats : list Tipset)
      (atsforks : list (list Tipset)) (newBlocks : list Block)
      (ms : list RationalMiner) (ct2 : chainTracker) :
  setHead (simCt st) (simBlocks st) = Ok (ct1, blocks1) ->
  forallb (fun blk => roundHeight st blocks1 =? Height blk) blocks1 = true ->
  allTipsets blocks1 = Ok ats ->
  forksOfAll ats = Ok atsforks ->
  mineAll order 0 (miners (roundRecord ct1 (roundHeight st blocks1) blocks1))
          (roundRecord ct1 (roundHeight st blocks1) blocks1) atsforks lbp w
  = Ok (newBlocks, ms, ct2, w') ->
  simRound order lbp st w
  = Ok ({| simCt := withMiners ct2 ms; simBlocks := newBlocks;
           currentHeight := roundHeight st blocks1 |}, w').
Proof.
  intros Hset Hcheck Hats Hforks Hmine. unfold simRound.
  erewrite Mbind_run by (apply lift_run; exact Hset). cbn beta iota zeta.
  unfold roundRecord, roundHeight in *.
  destruct blocks1 as [|b0 rest].
  - erewrite Mbind_run by (apply lift_run; cbn [forallb]; reflexivity).
    erewrite Mbind_run by (apply lift_run; exact Hats).
    erewrite Mbind_run by (apply lift_run; exact Hforks).
    erewrite Mbind_run by exact Hmine. reflexivity.
  - rewrite Hcheck.
    erewrite Mbind_run by (apply lift_run; reflexivity).
    erewrite Mbind_run by (apply lift_run; exact Hats).
    erewrite Mbind_run by (apply lift_run; exact Hforks).
    erewrite Mbind_run by exact Hmine. reflexivity.
Qed.

Lemma roundRecord_live (ct : chainTracker) (h : Z) (blocks : list Block) :
  liveBlocksByHeight (roundRecord ct h blocks)
  = match blocks with
    | [] => liveBlocksByHeight ct
    | _ :: _ => <[h := blocks]> (liveBlocksByHeight ct)
    end.
Proof.
  unfold roundRecord. destruct blocks as [|b0 rest]; [reflexivity|].
  cbn [withLive liveBlocksByHeight]. rewrite fold_recordBlock_live. reflexivity.
Qed.

(** The entries of [liveBlocksByHeight] before round [r]: under a height
    below [r], blocks of that height, none null. *)
Definition liveInv (r : Z) (ct : chainTracker) : Prop :=
  forall h blks, liveBlocksByHeight ct !! h = Some blks ->
    0 <= h < r /\ blks <> [] /\ Forall (fun b => Height b = h /\ Null b = false) blks.

(** What round [r] of a trial of [tm] miners starts from. *)
Definition roundInv (L : nat) (tm r : Z) (st : simState) : Prop :=
  Forall (liveBlock L tm r) (simBlocks st) /\
  Z.of_nat (length (simBlocks st)) <= tm /\
  ((length (simBlocks st) <= 1)%nat \/ Forall (fun b => Parents b <> None) (simBlocks st)) /\
  Z.of_nat (length (miners (simCt st))) = tm /\
  Forall (fun m => forall k ts, PrivateForks m !! k = Some ts ->
                     k = Name ts /\ goodFork L tm r ts) (miners (simCt st)) /\
  (exists h, head (simCt st) = Some h) /\
  liveInv r (simCt st).

Lemma simRound_total (L : nat) (tm r : Z)
      (order : nat -> list (string * Tipset) -> list (string * Tipset))
      (lbp : Z) (st : simState) (w : world) :
  (forall j l, Permutation (order j l) l) ->
  (Z.to_nat (int_sub lbp 1) <= L)%nat ->
  0 <= r -> (r + 1) * tm <= int_max -> 1 <= tm ->
  roundInv L tm r st ->
  exists st' w', simRound order lbp st w = Ok (st', w') /\ roundInv L tm (r + 1) st'.
Proof.
  intros Horder HL Hr Hmax Htm (Hblocks & Hlen & Hpar & Hmlen & Hms & [h Hh] & Hlive).
  destruct (allTipsets_total _ Hpar) as [tipsets Hts].
  destruct (setHead_total _ _ _ _ Hh Hts) as (ct1 & blocks1 & h1 & Hset & Hh1 & Hlen1).
  destruct (setHead_frame _ _ _ _ Hset) as (Htab1 & Hms1 & Hlive1 & _).
  assert (Forall (liveBlock L tm r) blocks1) as Hblocks1.
  { apply Forall_forall. intros b Hb. apply list_elem_of_In in Hb.
    rewrite Forall_forall in Hblocks.
    destruct (setHead_blocks _ _ _ _ _ Hset Hb) as (b0 & Hb0 & [->| ->]);
      apply list_elem_of_In, Hblocks in Hb0; [exact Hb0 | apply liveBlock_mark, Hb0]. }
  assert ((length blocks1 <= 1)%nat \/ Forall (fun b => Parents b <> None) blocks1) as Hpar1.
  { destruct Hpar as [Hp|Hp]; [left; lia|]. right.
    apply Forall_forall. intros b Hb. apply list_elem_of_In in Hb.
    rewrite Forall_forall in Hp.
    destruct (setHead_blocks _ _ _ _ _ Hset Hb) as (b0 & Hb0 & [->| ->]);
      apply list_elem_of_In, Hp in Hb0; exact Hb0. }
  destruct (allTipsets_total _ Hpar1) as [ats Hats].
  destruct (forksOfAll_total ats) as [atsforks Hforks].
  assert (Forall (Forall (goodFork L tm r)) atsforks) as Hgood.
  { eapply Forall_impl; [eapply round_forks_sized; eassumption|].
    intros forks Hf. eapply Forall_impl; [exact Hf|].
    intros f (bs & Hf' & Hsub & Hl).
    eapply NewTipset_goodFork; [exact Hr | exact Hmax | exact Hf' | | lia].
    apply Forall_forall. intros b Hb. rewrite Forall_forall in Hblocks1.
    apply Hblocks1, list_elem_of_In, Hsub, list_elem_of_In, Hb. }
  assert (r + 1 <= int_max) as Hmax' by nia.
  assert (0 <= tm) as Htm0 by lia.
  pose proof (heights_check st blocks1 r) as Hcheck.
  set (curH := roundHeight st blocks1) in *.
  set (ctR := roundRecord ct1 curH blocks1).
  destruct (mineAll_total L tm r order 0 (miners ctR) ctR atsforks lbp w
              Horder HL Hr Hmax' Htm0)
    as (newBlocks & ms' & ct2 & w' & Hmine & Hnew & Hnlen & Hmlen' & Hms'); [|exact Hgood|].
  { unfold ctR. rewrite roundRecord_miners, Hms1. exact Hms. }
  assert (length (miners ctR) = length (miners (simCt st))) as Hsame
    by (unfold ctR; rewrite roundRecord_miners, Hms1; reflexivity).
  eexists _, w'. split.
  { eapply simRound_run; [exact Hset | | exact Hats | exact Hforks | exact Hmine].
    apply Hcheck. eapply Forall_impl; [exact Hblocks1|]. intros b Hb. apply Hb. }
  unfold roundInv. cbn [simBlocks simCt withMiners miners head liveBlocksByHeight].
  split; [eapply Forall_impl; [exact Hnew|]; intros b Hb; apply Hb|].
  split; [lia|]. split.
  { right. eapply Forall_impl; [exact Hnew|]. intros b Hb. apply Hb. }
  split; [lia|]. split; [exact Hms'|]. split.
  { exists h1. unfold withMiners. cbn [head].
    rewrite (mineAll_head _ _ _ _ _ _ _ _ _ _ _ Hmine). unfold ctR.
    rewrite roundRecord_head. exact Hh1. }
  intros h0 blks Hk. unfold withMiners in Hk. cbn [liveBlocksByHeight] in Hk.
  destruct (mineAll_records _ _ _ _ _ _ _ _ _ _ _ Hmine) as [l Hl].
  rewrite Hl, fold_recordBlock_live in Hk. unfold ctR in Hk.
  rewrite roundRecord_live, Hlive1 in Hk.
  assert (0 <= h0 < r -> 0 <= h0 < r + 1) as Hwiden by lia.
  destruct blocks1 as [|b0 rest] eqn:Eb.
  - destruct (Hlive h0 blks Hk) as (Hrange & Hrest). split; [lia | exact Hrest].
  - destruct (decide (curH = h0)) as [<-|Hne].
    + rewrite lookup_insert_eq in Hk. injection Hk as <-.
      assert (curH = r) as ->.
      { unfold curH. cbn [roundHeight]. apply Forall_cons in Hblocks1 as [Hb0 _]. apply Hb0. }
      split; [lia|]. split; [discriminate|].
      eapply Forall_impl; [exact Hblocks1|]. intros b (Hbh & Hbn & _).
      split; assumption.
    + rewrite lookup_insert_ne in Hk by exact Hne.
      destruct (Hlive h0 blks Hk) as (Hrange & Hrest). split; [lia | exact Hrest].
Qed.

Lemma simRounds_total (L : nat) (tm : Z)
      (order : nat -> nat -> list (string * Tipset) -> list (string * Tipset))
      (lbp : Z) (n round : nat) (st : simState) (w : world) :
  (forall r j l, Permutation (order r j l) l) ->
  (Z.to_nat (int_sub lbp 1) <= L)%nat ->
  1 <= tm -> Z.of_nat (round + n) * tm <= int_max ->
  roundInv L tm (Z.of_nat round) st ->
  exists st' w',
    simRounds order lbp n round st w = Ok (st', w') /\
    roundInv L tm (Z.of_nat (round + n)) st'.
Proof.
  intros Horder HL Htm. revert round st w.
  induction n as [|n IH]; intros round st w Hmax Hinv.
  - exists st, w. split; [reflexivity|]. rewrite Nat.add_0_r. exact Hinv.
  - destruct (simRound_total L tm (Z.of_nat round) (order round) lbp st w)
      as (st1 & w1 & Hround & Hinv1); try assumption; [apply Horder | lia | nia |].
    replace (Z.of_nat round + 1) with (Z.of_nat (S round)) in Hinv1 by lia.
    destruct (IH (S round) st1 w1) as (st' & w' & Hrounds & Hinv');
      [replace (S round + n)%nat with (round + S n)%nat by lia; exact Hmax | exact Hinv1 |].
    exists st', w'. split.
    + cbn [simRounds]. erewrite Mbind_run by exact Hround. exact Hrounds.
    + replace (round + S n)%nat with (S round + n)%nat by lia. exact Hinv'.
Qed.

Lemma deepBlock_le (n n' : nat) (b : Block) : (n <= n')%nat -> deepBlock n' b -> deepBlock n b.
Proof. induction 1 as [|k _ IH]; [auto|]. intros H. apply IH, deepBlock_S, H. Qed.

(** Each turn of the loop of [makeGen] puts one more tipset under the
    genesis tipset to come. *)
Lemma makeGenLoop_deep (totalMiners : Z) (n d : nat) (ts : Tipset) (g : option Tipset)
      (w w' : world) :
  makeGenLoop n (Some ts) totalMiners w = Ok (g, w') ->
  deep d ts -> Blocks ts <> [] ->
  exists ts', g = Some ts' /\ deep (d + n) ts' /\ Blocks ts' <> [].
Proof.
  revert d ts w. induction n as [|n IH]; intros d ts w H Hd Hne.
  - apply mret_Ok in H as [-> _]. exists ts. rewrite Nat.add_0_r.
    split; [reflexivity|]. split; [exact Hd | exact Hne].
  - cbn [makeGenLoop] in H.
    apply Mbind_Ok in H as (nonce & w1 & _ & H).
    apply Mbind_Ok in H as (seed & w2 & _ & H).
    apply Mbind_Ok in H as (ts1 & w3 & Hts & H). apply lift_Ok in Hts as [Hts ->].
    rewrite NewTipset_singleton in Hts. injection Hts as <-.
    apply (IH (S d)) in H as (ts' & -> & Hd' & Hne').
    + exists ts'. rewrite Nat.add_succ_r. split; [reflexivity|].
      split; [exact Hd' | exact Hne'].
    + split; [discriminate|]. cbn [Blocks]. constructor; [|constructor].
      exists ts. split; [reflexivity | exact Hd].
    + discriminate.
Qed.

Lemma makeGen_deep (lbp totalMiners : Z) (w w' : world) (gen : Block) :
  makeGen lbp totalMiners w = Ok (gen, w') ->
  deepBlock (Z.to_nat lbp - 1) gen.
Proof.
  unfold makeGen. intros H.
  apply Mbind_Ok in H as (g & w1 & Hloop & H). apply lift_Ok in H as [H ->].
  destruct (Z.to_nat lbp) as [|n]; [apply mret_Ok in Hloop as [-> _]; discriminate H|].
  cbn [makeGenLoop] in Hloop.
  apply Mbind_Ok in Hloop as (nonce & w2 & _ & Hloop).
  apply Mbind_Ok in Hloop as (seed & w3 & _ & Hloop).
  apply Mbind_Ok in Hloop as (ts1 & w4 & Hts & Hloop). apply lift_Ok in Hts as [Hts ->].
  rewrite NewTipset_singleton in Hts. injection Hts as <-.
  apply (makeGenLoop_deep _ _ 0) in Hloop as (ts' & -> & Hd & Hne); [|exact I|discriminate].
  destruct (Blocks ts') as [|b0 rest] eqn:Eb; [contradiction|]. injection H as <-.
  replace (S n - 1)%nat with n by lia. cbn [Nat.add] in Hd.
  destruct n as [|n]; [exact I|]. destruct Hd as [_ Hall]. rewrite Eb in Hall.
  apply Forall_cons in Hall as [Hb0 _]. exact Hb0.
Qed.

Lemma simStart_roundInv (L : nat) (totalMiners lbp : Z) (st : simState) (w w' : world) :
  (L <= Z.to_nat lbp - 1)%nat ->
  1 <= totalMiners ->
  simStart totalMiners lbp w = Ok (st, w') ->
  roundInv L totalMiners 0 st.
Proof.
  intros HL Htm H. pose proof H as Hspec.
  apply simStart_spec in Hspec as (_ & _ & gen & hd & Hgt & Hb & Hhd & ->).
  assert (deepBlock L gen) as Hdeep.
  { unfold simStart in H.
    apply Mbind_Ok in H as (seed & w2 & _ & H).
    apply Mbind_Ok in H as ([] & w3 & _ & H).
    apply Mbind_Ok in H as ([] & w4 & _ & H).
    apply Mbind_Ok in H as (g & w5 & Hgen & H).
    apply Mbind_Ok in H as (hd' & w6 & _ & H).
    apply mret_Ok in H as [Hst _]. injection Hst as _ <-.
    eapply deepBlock_le; [exact HL | eapply makeGen_deep, Hgen]. }
  inversion Hgt as [? b Hb' _ _ _ _ Hh Hn Hpw _]. subst ts.
  rewrite Hb in Hb'. injection Hb' as <-.
  unfold roundInv.
  cbn [simBlocks simCt withHead NewChainTracker miners head liveBlocksByHeight].
  split.
  { constructor; [|constructor]. split; [exact Hh|]. split; [exact Hn|].
    split; [exact Hdeep|]. rewrite Hpw. lia. }
  split; [cbn [length]; lia|]. split; [left; cbn [length]; lia|].
  split.
  { change (Z.of_nat (length (newMiners totalMiners)) = totalMiners).
    unfold newMiners. rewrite length_map, length_seq. lia. }
  split.
  { eapply Forall_impl; [apply newMiners_forks|].
    intros m Hm k ts Hk. rewrite Hm, lookup_empty in Hk. discriminate Hk. }
  split; [exists hd; reflexivity|].
  intros h0 blks Hk. cbn [withHead NewChainTracker liveBlocksByHeight] in Hk.
  rewrite lookup_empty in Hk. discriminate Hk.
Qed.

Lemma wrap_int_le (z : Z) : int_min <= z -> wrap_int z <= z.
Proof.
  unfold int_min, wrap_int. intros Hz.
  pose proof (Z.mod_le (z + 2 ^ 63) (2 ^ 64) ltac:(lia) ltac:(lia)). lia.
Qed.

(** A trial runs to its end, in a state as a round would start from. *)
Lemma runSim_total
      (order : nat -> nat -> list (string * Tipset) -> list (string * Tipset))
      (totalMiners roundNum lbp : Z) (w : world) :
  (forall r j l, Permutation (order r j l) l) ->
  0 < lbp -> 0 < totalMiners ->
  bigOlNum * totalMiners <= int_max ->
  roundNum * totalMiners <= int_max ->
  exists st' w',
    runSim order totalMiners roundNum lbp w
    = Ok (withMaxHeight (simCt st') (int_sub roundNum 1), w') /\
    roundInv (Z.to_nat (int_sub lbp 1)) totalMiners (Z.of_nat (Z.to_nat roundNum)) st'.
Proof.
  intros Horder Hlbp Htm Hbig Hrounds.
  destruct (simStart_ok totalMiners lbp w) as (st & w1 & Hstart); [lia | lia | |].
  { unfold int_mul. unfold bigOlNum in *.
    assert (wrap_int (100000 * totalMiners) = 100000 * totalMiners) as E
      by (apply wrap_int_id; unfold in_int, int_min, int_max in *; lia).
    rewrite !E. lia. }
  set (L := Z.to_nat (int_sub lbp 1)).
  assert (L <= Z.to_nat lbp - 1)%nat as HL.
  { unfold L, int_sub. pose proof (wrap_int_le (lbp - 1)) as Hle.
    unfold int_min in Hle. lia. }
  pose proof (simStart_roundInv L totalMiners lbp st w w1 HL ltac:(lia) Hstart) as Hinv.
  destruct (simRounds_total L totalMiners order lbp (Z.to_nat roundNum) 0 st w1)
    as (st' & w' & Hrun & Hinv'); try assumption; [unfold L; lia | lia | |].
  { cbn [Nat.add]. destruct (Z.le_gt_cases 0 roundNum).
    - rewrite Z2Nat.id by assumption. exact Hrounds.
    - replace (Z.to_nat roundNum) with O by lia. unfold int_max. lia. }
  exists st', w'. split; [|exact Hinv'].
  unfold runSim. erewrite Mbind_run by exact Hstart.
  erewrite Mbind_run by exact Hrun. reflexivity.
Qed.

(** With a positive lookback, at least one miner, and numbers of miners and
    rounds whose products with [bigOlNum] and with one another are in the
    range of [int], a trial runs to its end, whatever the orders of
    iteration over the miners' forks and the values drawn: [lookbackTipset]
    never walks off the genesis chain, [liveParents] always finds a tipset
    that is not null, and the check of the heights of a round never fails.
    In the tracker delivered, the blocks filed under a height are the blocks
    published by the round of that number: there is at least one, they have
    that height, and none is null. *)
Theorem trial_runs_to_its_end
        (order : nat -> nat -> list (string * Tipset) -> list (string * Tipset))
        (totalMiners roundNum lbp : Z) (w : world) :
  (forall r j l, Permutation (order r j l) l) ->
  0 < lbp -> 0 < totalMiners ->
  bigOlNum * totalMiners <= int_max ->
  roundNum * totalMiners <= int_max ->
  exists ct w',
    runSim order totalMiners roundNum lbp w = Ok (ct, w') /\
    maxHeight ct = int_sub roundNum 1 /\
    (exists h, head ct = Some h) /\
    forall h blks, liveBlocksByHeight ct !! h = Some blks ->
      0 <= h < roundNum /\ blks <> [] /\
      Forall (fun b => Height b = h /\ Null b = false) blks.
Proof.
  intros Horder Hlbp Htm Hbig Hrounds.
  destruct (runSim_total order totalMiners roundNum lbp w Horder Hlbp Htm Hbig Hrounds)
    as (st' & w' & Hrun & Hinv).
  exists (withMaxHeight (simCt st') (int_sub roundNum 1)), w'. split; [exact Hrun|].
  destruct Hinv as (_ & _ & _ & _ & _ & Hhead & Hlive).
  split; [reflexivity|]. split; [exact Hhead|].
  intros h blks Hk. cbn [withMaxHeight liveBlocksByHeight] in Hk.
  destruct (Hlive h blks Hk) as (Hrange & Hrest). split; [lia | exact Hrest].
Qed.


(** ** Tickets *)

(** The seed [generateTicket] gives the generator. *)
Lemma ticket_seed_sum (t id : Z) :
  uint64_add t (wrap_uint64 id) = (t + id) mod 2 ^ 64.
Proof. unfold uint64_add, wrap_uint64. apply Zplus_mod_idemp_r. Qed.

(** A ticket is a function of the sum of the least ticket it is drawn from
    and the identifier of the miner, modulo 2^64: whatever the state of the
    generator the miners share, the same miner draws the same ticket from
    the same least ticket, and so do two miners from least tickets that
    differ by the difference of their identifiers.  A ticket is below
    [bigOlNum]; drawing it leaves [uniqueID] and [crypto/rand] alone. *)
Theorem generateTicket_by_sum (m1 m2 : RationalMiner) (t1 t2 : Z) (w1 w2 : world) :
  (t1 + ID m1) mod 2 ^ 64 = (t2 + ID m2) mod 2 ^ 64 ->
  exists t w1' w2',
    generateTicket m1 t1 w1 = Ok (t, w1') /\
    generateTicket m2 t2 w2 = Ok (t, w2') /\
    0 <= t < bigOlNum /\
    trialRand w1' = trialRand w2' /\
    uniqueID w1' = uniqueID w1 /\ crandStream w1' = crandStream w1 /\
    crandPos w1' = crandPos w1.
Proof.
  intros Hsum. unfold generateTicket. rewrite !ticket_seed_sum, Hsum.
  eexists _, _, _. split; [reflexivity|]. split; [reflexivity|].
  split; [|repeat split].
  match goal with |- context [rand_Int63n ?r ?n] =>
    pose proof (rand_Int63n_range r n) as Hr end.
  change (wrap_int bigOlNum) with 100000 in *. unfold bigOlNum.
  rewrite wrap_uint64_id; lia.
Qed.

(** With a lookback of 1 the election proof of a block is the block's own
    ticket: both are drawn from the least ticket of the parents, so the
    block is null exactly when its [Seed] is no winning ticket.  The ticket
    is below [bigOlNum]; the block stands on the tipset it was generated
    on, belongs to the miner, and is not marked as in the head. *)
Theorem generateBlock_lookback_one (m : RationalMiner) (parents : Tipset)
        (blk : Block) (w w' : world) :
  generateBlock m parents 1 w = Ok (blk, w') ->
  Null blk = negb (isWinningTicket (Seed blk) (Power m)) /\
  Seed blk = ticketOf m (MinTicket parents) /\
  0 <= Seed blk < bigOlNum /\
  Parents blk = Some parents /\ Owner blk = ID m /\ InHead blk = false.
Proof.
  intros H.
  apply generateBlock_spec in H as (lb & lb1 & lp & h & Hlb & Hlb1 & _ & _ & -> & _).
  rewrite lookbackTipset_1 in Hlb, Hlb1. injection Hlb as <-. injection Hlb1 as <-.
  cbn [Null Seed Parents Owner InHead].
  split; [reflexivity|]. split; [reflexivity|]. split; [apply ticketOf_range|].
  repeat split.
Qed.

(** ** liveParents and the chains of null blocks *)

(** [liveParents] of a block returns the nearest tipset above the block
    whose first block is not null: the parents of the block when their
    first block is not null, and otherwise what [liveParents] of that first
    block returns. *)
Theorem liveParents_skips_nulls (bl : Block) (lp : Tipset) :
  liveParents bl = Ok lp ->
  (exists b0 rest, Blocks lp = b0 :: rest /\ Null b0 = false) /\
  exists p b0 rest,
    Parents bl = Some p /\ Blocks p = b0 :: rest /\
    (Null b0 = false -> lp = p) /\
    (Null b0 = true -> liveParents b0 = Ok lp).
Proof.
  assert (forall ts lp0, liveParentsFrom ts = Ok lp0 ->
            exists b0 rest, Blocks lp0 = b0 :: rest /\ Null b0 = false) as Hlive.
  { fix IH 1. intros [[|[n up o h null pw s ih] rest] name mt wh wt] lp0 H.
    - discriminate H.
    - cbn in H. destruct null.
      + destruct up as [p|]; [|discriminate H]. exact (IH p lp0 H).
      + injection H as <-. eexists _, _. split; reflexivity. }
  unfold liveParents. destruct (Parents bl) as [p|] eqn:Ep; [|discriminate].
  intros H. split; [exact (Hlive p lp H)|].
  destruct p as [[|[n up o h null pw s ih] rest] name mt wh wt]; [discriminate H|].
  eexists _, _, _. split; [reflexivity|]. split; [reflexivity|].
  cbn in H. cbn [Null]. destruct null.
  - split; [discriminate|]. intros _. unfold liveParents. cbn [Parents]. exact H.
  - injection H as <-. split; [reflexivity | discriminate].
Qed.

(** A chain of null blocks gains no weight: a block generated on the tipset
    of a null block inherits the parent weight of that null block, which is
    the weight of the tipset of the null block, and stands one above it. *)
Theorem null_chain_keeps_weight (m1 m2 : RationalMiner) (p : Tipset) (lbp1 lbp2 : Z)
        (nb blk : Block) (w1 w1' w2 w2' : world) :
  generateBlock m1 p lbp1 w1 = Ok (nb, w1') ->
  Null nb = true ->
  generateBlock m2 (tipsetOf nb) lbp2 w2 = Ok (blk, w2') ->
  ParentWeight blk = ParentWeight nb /\
  Weight (tipsetOf nb) = ParentWeight nb /\
  Height blk = int_add (Height nb) 1 /\
  Parents blk = Some (tipsetOf nb).
Proof.
  intros Hnb Hnull Hblk.
  apply generateBlock_spec in Hnb as (lb & lb1 & lp & h & _ & _ & Hlp & _ & Enb & _).
  apply generateBlock_spec in Hblk as (lb' & lb1' & lp' & h' & _ & _ & Hlp' & Hh' & -> & _).
  cbn [ParentWeight Height Parents].
  assert (Parents nb = Some p) as Hp by (rewrite Enb; reflexivity).
  assert (ParentWeight nb = Weight lp) as Hw by (rewrite Enb; reflexivity).
  rewrite liveParentsOfTipset_From, (liveParentsFrom_null nb p Hnull Hp),
    <- liveParentsOfTipset_From, Hlp in Hlp'.
  injection Hlp' as <-. injection Hh' as <-.
  split; [symmetry; exact Hw|]. split; [|split; reflexivity].
  cbn [tipsetOf Weight]. rewrite Hnull. reflexivity.
Qed.

(** ** ConsiderAllForks *)

(** The inner loop of [ConsiderAllForks]. *)
Definition fileForks (pf : gmap string Tipset) (forks : list Tipset) : gmap string Tipset :=
  fold_left (fun pforks ts => <[Name ts := ts]> pforks) forks pf.

Lemma fileForks_names (forks : list Tipset) (pf : gmap string Tipset) :
  (forall ts, In ts forks ->
     exists ts', fileForks pf forks !! (Name ts) = Some ts' /\
                 Name ts' = Name ts /\ In ts' forks) /\
  (forall k ts, pf !! k = Some ts ->
     exists ts', fileForks pf forks !! k = Some ts' /\
                 (ts' = ts \/ (Name ts' = k /\ In ts' forks))) /\
  (forall k, (forall ts, In ts forks -> Name ts <> k) ->
     fileForks pf forks !! k = pf !! k).
Proof.
  revert pf. induction forks as [|f rest IH]; intros pf.
  - split; [intros ts []|]. split; [|reflexivity].
    intros k ts Hk. exists ts. split; [exact Hk | left; reflexivity].
  - unfold fileForks. cbn [fold_left]. fold (fileForks (<[Name f := f]> pf) rest).
    destruct (IH (<[Name f := f]> pf)) as (Hnew & Hold & Hother).
    split; [|split].
    + intros ts [<-|Hin].
      * destruct (Hold (Name f) f (lookup_insert_eq _ _ _)) as (ts' & Hk & [->|[Hn Hin]]).
        -- exists f. split; [exact Hk|]. split; [reflexivity | left; reflexivity].
        -- exists ts'. split; [exact Hk|]. split; [exact Hn | right; exact Hin].
      * destruct (Hnew ts Hin) as (ts' & Hk & Hn & Hin').
        exists ts'. split; [exact Hk|]. split; [exact Hn | right; exact Hin'].
    + intros k ts Hk. destruct (decide (Name f = k)) as [<-|Hne].
      * destruct (Hold (Name f) f (lookup_insert_eq _ _ _)) as (ts' & Hk' & [->|[Hn Hin]]).
        -- exists f. split; [exact Hk'|]. right. split; [reflexivity | left; reflexivity].
        -- exists ts'. split; [exact Hk'|]. right. split; [exact Hn | right; exact Hin].
      * assert (<[Name f := f]> pf !! k = Some ts) as Hk'
          by (rewrite lookup_insert_ne by exact Hne; exact Hk).
        destruct (Hold k ts Hk') as (ts' & Hk'' & [->|[Hn Hin]]).
        -- exists ts. split; [exact Hk'' | left; reflexivity].
        -- exists ts'. split; [exact Hk''|]. right. split; [exact Hn | right; exact Hin].
    + intros k Hk. rewrite Hother by (intros ts Hin; apply Hk; right; exact Hin).
      apply lookup_insert_ne. apply Hk. left. reflexivity.
Qed.

(** [ConsiderAllForks] keeps the miner's power and identifier and loses no
    fork: after it every name that was filed is still filed, every fork
    offered has its name filed, under each such name stands the offered
    fork of that name that came last, and the forks under other names are
    the ones the miner held. *)
Theorem ConsiderAllForks_files (m : RationalMiner) (atsforks : list (list Tipset)) :
  Power (ConsiderAllForks m atsforks) = Power m /\
  ID (ConsiderAllForks m atsforks) = ID m /\
  (forall forks ts, In forks atsforks -> In ts forks ->
     exists ts', PrivateForks (ConsiderAllForks m atsforks) !! (Name ts) = Some ts' /\
                 Name ts' = Name ts /\
                 exists forks', In forks' atsforks /\ In ts' forks') /\
  (forall k ts, PrivateForks m !! k = Some ts ->
     exists ts', PrivateForks (ConsiderAllForks m atsforks) !! k = Some ts' /\
                 (ts' = ts \/
                  (Name ts' = k /\ exists forks', In forks' atsforks /\ In ts' forks'))) /\
  (forall k, (forall forks ts, In forks atsforks -> In ts forks -> Name ts <> k) ->
     PrivateForks (ConsiderAllForks m atsforks) !! k = PrivateForks m !! k).
Proof.
  split; [reflexivity|]. split; [reflexivity|].
  unfold ConsiderAllForks. cbn [PrivateForks].
  generalize (PrivateForks m) as pf.
  induction atsforks as [|forks rest IH]; intros pf.
  - split; [intros forks ts []|]. split; [|reflexivity].
    intros k ts Hk. exists ts. split; [exact Hk | left; reflexivity].
  - cbn [fold_left]. fold (fileForks pf forks).
    set (pf1 := fileForks pf forks).
    destruct (IH pf1) as (Hnew & Hold & Hother).
    destruct (fileForks_names forks pf) as (Hnew1 & Hold1 & Hother1).
    fold pf1 in Hnew1, Hold1, Hother1.
    split; [|split].
    + intros forks0 ts [<-|Hin] Hts.
      * destruct (Hnew1 ts Hts) as (ts1 & Hk1 & Hn1 & Hin1). rewrite <- Hn1.
        destruct (Hold (Name ts1) ts1) as (ts' & Hk & [->|(Hn & fs & Hfs & Hin')]).
        { rewrite Hn1. exact Hk1. }
        -- exists ts1. split; [exact Hk|]. split; [reflexivity|].
           exists forks. split; [left; reflexivity | exact Hin1].
        -- exists ts'. split; [exact Hk|]. split; [exact Hn|].
           exists fs. split; [right; exact Hfs | exact Hin'].
      * destruct (Hnew forks0 ts Hin Hts) as (ts' & Hk & Hn & fs & Hfs & Hin').
        exists ts'. split; [exact Hk|]. split; [exact Hn|].
        exists fs. split; [right; exact Hfs | exact Hin'].
    + intros k ts Hk. destruct (Hold1 k ts Hk) as (ts1 & Hk1 & Hcase1).
      destruct (Hold k ts1 Hk1) as (ts' & Hk' & [->|(Hn & fs & Hfs & Hin')]).
      * exists ts1. split; [exact Hk'|].
        destruct Hcase1 as [->|[Hn1 Hin1]]; [left; reflexivity|].
        right. split; [exact Hn1|]. exists forks. split; [left; reflexivity | exact Hin1].
      * exists ts'. split; [exact Hk'|]. right. split; [exact Hn|].
        exists fs. split; [right; exact Hfs | exact Hin'].
    + intros k Hk.
      rewrite Hother by (intros fs ts Hfs Hts; apply (Hk fs ts); [right; exact Hfs | exact Hts]).
      apply Hother1. intros ts Hts. apply (Hk forks ts); [left; reflexivity | exact Hts].
Qed.

(** ** makeGen: the genesis chain *)

(** The number of tipsets below [ts], along the parents of first blocks. *)
Fixpoint ancestry (ts : Tipset) : nat :=
  match ts with
  | mkTipset (mkBlock _ (Some p) _ _ _ _ _ _ :: _) _ _ _ _ => S (ancestry p)
  | _ => O
  end.

(** The number of tipsets of the chain that ends in [gen]. *)
Definition chainLen (gen : option Tipset) : nat :=
  match gen with
  | Some ts => S (ancestry ts)
  | None => O
  end.

Lemma ancestry_tipsetOf (b : Block) : ancestry (tipsetOf b) = chainLen (Parents b).
Proof. destruct b as [n [p|] o h null pw s ih]; reflexivity. Qed.

Lemma wrap_int_range (z : Z) : int_min <= wrap_int z <= int_max.
Proof.
  unfold wrap_int, int_min, int_max.
  pose proof (Z.mod_pos_bound (z + 2 ^ 63) (2 ^ 64) ltac:(lia)). lia.
Qed.

(** What the loop of [makeGen] leaves after [n] turns. *)
Lemma makeGenLoop_chain (totalMiners : Z) (n : nat) (gen : option Tipset) (w : world) :
  0 < wrap_int (int_mul bigOlNum totalMiners) ->
  in_int (uniqueID w) -> uniqueID w + Z.of_nat n <= int_max ->
  genesisChain gen ->
  exists g w',
    makeGenLoop n gen totalMiners w = Ok (g, w') /\
    uniqueID w' = uniqueID w + Z.of_nat n /\
    crandPos w' = (crandPos w + n)%nat /\
    trialRand w' = trialRand w /\ crandStream w' = crandStream w /\
    chainLen g = (chainLen gen + n)%nat /\
    genesisChain g /\
    (n = O -> g = gen) /\
    (n <> O ->
     exists b, g = Some (tipsetOf b) /\
               Nonce b = uniqueID w + Z.of_nat n - 1 /\ InHead b = true /\
               0 <= Seed b < wrap_int (int_mul bigOlNum totalMiners)).
Proof.
  intros Hlimit. revert gen w. induction n as [|n IH]; intros gen w Hin Hmax Hgen.
  - exists gen, w. split; [reflexivity|]. split; [lia|]. split; [lia|].
    split; [reflexivity|]. split; [reflexivity|]. split; [cbn; lia|].
    split; [exact Hgen|]. split; [reflexivity | congruence].
  - set (limit := wrap_int (int_mul bigOlNum totalMiners)) in *.
    set (seed := crandStream w (crandPos w) mod limit).
    set (b := {| InHead := true; Nonce := uniqueID w; Parents := gen; Owner := -1;
                 Height := 0; Null := false; ParentWeight := 0;
                 Seed := wrap_uint64 seed |}).
    set (w1 := mkWorld (int_add (uniqueID w) 1) (trialRand w) (crandStream w)
                       (S (crandPos w))).
    assert (int_add (uniqueID w) 1 = uniqueID w + 1) as Hadd.
    { apply wrap_int_id. unfold in_int, int_min, int_max in *. lia. }
    assert (0 <= seed < limit) as Hseed by (apply Z.mod_pos_bound; exact Hlimit).
    assert (wrap_uint64 seed = seed) as Hwrap.
    { apply wrap_uint64_id. pose proof (wrap_int_range (int_mul bigOlNum totalMiners)).
      fold limit in H. unfold int_max in H. lia. }
    assert (genesisChain (Some (tipsetOf b))) as Hgen1.
    { intros ts [= <-]. eapply (genesisTipset_intro (tipsetOf b) b); try reflexivity.
      intros p Hp. apply Hgen. exact Hp. }
    destruct (IH (Some (tipsetOf b)) w1) as (g & w' & Hloop & Hu & Hp & Hr & Hs & Hlen & Hg & _ & Hlast).
    { unfold w1. cbn [uniqueID]. rewrite Hadd. unfold in_int, int_min, int_max in *. lia. }
    { unfold w1. cbn [uniqueID]. rewrite Hadd. lia. }
    { exact Hgen1. }
    exists g, w'. split.
    { cbn [makeGenLoop]. unfold mbind at 1, M_bind. cbn [getUniqueID].
      unfold mbind at 1, M_bind. unfold randInt. fold limit.
      destruct (Z.leb_spec limit 0); [lia|].
      cbn [uniqueID trialRand crandStream crandPos].
      unfold mbind at 1, M_bind. rewrite NewTipset_singleton. cbn [lift].
      rewrite (int_sub_add_1 _ Hin). exact Hloop. }
    unfold w1 in Hu, Hp, Hr, Hs. cbn [uniqueID crandPos trialRand crandStream] in Hu, Hp, Hr, Hs.
    rewrite Hadd in Hu.
    split; [lia|]. split; [lia|]. split; [exact Hr|]. split; [exact Hs|].
    split.
    { rewrite Hlen. cbn [chainLen]. rewrite ancestry_tipsetOf. cbn [b Parents]. lia. }
    split; [exact Hg|]. split; [discriminate|]. intros _.
    destruct n as [|n].
    + cbn [makeGenLoop] in Hloop. apply mret_Ok in Hloop as [-> _].
      exists b. split; [reflexivity|]. cbn [b Nonce InHead Seed].
      split; [lia|]. split; [reflexivity|]. rewrite Hwrap. exact Hseed.
    + destruct (Hlast ltac:(discriminate)) as (b' & -> & Hn' & Hih & Hsd).
      exists b'. split; [reflexivity|].
      unfold w1 in Hn'. cbn [uniqueID] in Hn'. rewrite Hadd in Hn'.
      split; [lia|]. split; [exact Hih | exact Hsd].
Qed.


(** ** Names *)

(** The separator of [stringifyBlocks], the character of code 45. *)
Definition dash : Ascii.ascii := Ascii.Ascii true false true true false true false false.

(** A string without the separator. *)
Fixpoint noDash (s : string) : Prop :=
  match s with
  | EmptyString => True
  | String c s' => c <> dash /\ noDash s'
  end.

Lemma pretty_N_go_noDash (x : N) (s : string) : noDash s -> noDash (pretty_N_go x s).
Proof.
  revert s. induction (N.lt_wf_0 x) as [x _ IH]; intros s Hs.
  destruct (decide (x = 0)%N) as [->|Hx]; [rewrite pretty_N_go_0; exact Hs|].
  rewrite pretty_N_go_step by lia. apply IH; [apply N.div_lt; lia|].
  split; [|exact Hs]. unfold pretty_N_char. repeat case_match; discriminate.
Qed.

Lemma pretty_N_go_length (x : N) (s : string) :
  (String.length s <= String.length (pretty_N_go x s))%nat.
Proof.
  revert s. induction (N.lt_wf_0 x) as [x _ IH]; intros s.
  destruct (decide (x = 0)%N) as [->|Hx]; [rewrite pretty_N_go_0; lia|].
  rewrite pretty_N_go_step by lia.
  etransitivity; [|apply IH, N.div_lt; lia]. cbn [String.length]. lia.
Qed.

Lemma Itoa_noDash (n : Z) : 0 <= n -> noDash (Itoa n).
Proof.
  intros Hn. unfold Itoa, pretty, pretty_Z. destruct n as [|p|p]; [cbn; auto | | lia].
  unfold pretty, pretty_positive, pretty, pretty_N.
  destruct (decide (N.pos p = 0%N)); [cbn; auto|].
  apply pretty_N_go_noDash. exact I.
Qed.

Lemma Itoa_nonempty (n : Z) : 0 <= n -> Itoa n <> "".
Proof.
  intros Hn. unfold Itoa, pretty, pretty_Z. destruct n as [|p|p]; [discriminate | | lia].
  unfold pretty, pretty_positive, pretty, pretty_N.
  destruct (decide (N.pos p = 0%N)); [discriminate|].
  rewrite pretty_N_go_step by lia. intros E.
  pose proof (pretty_N_go_length (N.pos p `div` 10)
                (String (pretty_N_char (N.pos p `mod` 10)) "")) as Hlen.
  rewrite E in Hlen. cbn [String.length] in Hlen. lia.
Qed.

Lemma append_nil_l (s : string) : String.append "" s = s.
Proof. reflexivity. Qed.

Lemma append_cons (c : Ascii.ascii) (a s : string) :
  String.append (String c a) s = String c (String.append a s).
Proof. reflexivity. Qed.

Lemma noDash_join (a b r1 r2 : string) :
  noDash a -> noDash b ->
  String.append a (String.append "-" r1) = String.append b (String.append "-" r2) ->
  a = b /\ r1 = r2.
Proof.
  revert b. induction a as [|c a IH]; intros [|d b] Ha Hb H;
    repeat (rewrite append_nil_l in H || rewrite append_cons in H).
  - injection H as ->. split; reflexivity.
  - injection H as <- _. destruct Hb as [Hd _]. contradiction.
  - injection H as -> _. destruct Ha as [Hc _]. contradiction.
  - injection H as -> H. destruct Ha as [_ Ha], Hb as [_ Hb].
    destruct (IH b Ha Hb H) as [-> ->]. split; reflexivity.
Qed.

Lemma noDash_not_joined (a b r : string) :
  noDash a -> a <> String.append b (String.append "-" r).
Proof.
  revert b. induction a as [|c a IH]; intros [|d b] Ha H;
    repeat (rewrite append_nil_l in H || rewrite append_cons in H).
  - discriminate H.
  - discriminate H.
  - injection H as -> _. destruct Ha as [Hc _]. contradiction.
  - injection H as _ H. destruct Ha as [_ Ha]. exact (IH b Ha H).
Qed.

Lemma stringifyBlocks_nonempty (b : Block) (rest : list Block) :
  0 <= Nonce b -> stringifyBlocks (b :: rest) <> "".
Proof.
  intros Hb. cbn [stringifyBlocks]. destruct rest as [|x rest].
  - apply Itoa_nonempty, Hb.
  - pose proof (Itoa_nonempty _ Hb) as Hne.
    destruct (Itoa (Nonce b)); [contradiction | discriminate].
Qed.

(** The name of a tipset tells the nonces of its blocks, in their order:
    slices of blocks without negative nonces that [stringifyBlocks] gives
    the same name have the same nonces, one by one.  So two tipsets filed in
    [PrivateForks] under one name are made of the same blocks. *)
Theorem stringifyBlocks_inj (l1 l2 : list Block) :
  Forall (fun b => 0 <= Nonce b) l1 ->
  Forall (fun b => 0 <= Nonce b) l2 ->
  stringifyBlocks l1 = stringifyBlocks l2 ->
  map Nonce l1 = map Nonce l2.
Proof.
  revert l2. induction l1 as [|b1 r1 IH]; intros [|b2 r2] H1 H2 H.
  - reflexivity.
  - apply Forall_cons in H2 as [Hb2 _]. symmetry in H.
    apply stringifyBlocks_nonempty in H; [contradiction | exact Hb2].
  - apply Forall_cons in H1 as [Hb1 _].
    apply stringifyBlocks_nonempty in H; [contradiction | exact Hb1].
  - apply Forall_cons in H1 as [Hb1 H1]. apply Forall_cons in H2 as [Hb2 H2].
    pose proof (Itoa_noDash _ Hb1) as Hd1. pose proof (Itoa_noDash _ Hb2) as Hd2.
    cbn [map]. cbn [stringifyBlocks] in H.
    destruct r1 as [|x1 r1], r2 as [|x2 r2].
    + apply Itoa_inj in H. rewrite H. reflexivity.
    + exfalso. exact (noDash_not_joined _ _ _ Hd1 H).
    + exfalso. symmetry in H. exact (noDash_not_joined _ _ _ Hd2 H).
    + apply noDash_join in H as [Hn Hrest]; [|exact Hd1 | exact Hd2].
      apply Itoa_inj in Hn. rewrite Hn. f_equal. apply IH; assumption.
Qed.

(** ** lookbackTipset *)

Lemma lookbackSteps_app (a b : nat) (t : option Tipset) :
  lookbackSteps (a + b) t = (lb ← lookbackSteps a t; lookbackSteps b lb).
Proof.
  revert t. induction a as [|a IH]; intros t; [reflexivity|].
  cbn [Nat.add lookbackSteps]. destruct t as [ts|]; [|reflexivity].
  destruct (getParents ts) as [up|p]; [|reflexivity].
  cbn [mbind result_bind rbind]. apply IH.
Qed.

Lemma lookbackSteps_ancestry (n : nat) (ts : Tipset) :
  (n <= ancestry ts)%nat ->
  exists lb, lookbackSteps n (Some ts) = Ok (Some lb) /\
             ancestry lb = (ancestry ts - n)%nat.
Proof.
  revert ts. induction n as [|n IH]; intros ts Hn.
  - exists ts. split; [reflexivity | lia].
  - destruct ts as [[|[nn [p|] o h null pw s ih] rest] name mt wh wt];
      cbn [ancestry] in Hn; try lia.
    destruct (IH p ltac:(lia)) as (lb & Hlb & Hlen).
    exists lb. split; [exact Hlb|]. cbn [ancestry]. lia.
Qed.


(** ** The weight of a chain *)

(** The blocks the chain that ends in [ts] counts: going up the parents of
    first blocks, a tipset led by a null block counts nothing and any other
    tipset counts its members; the count ends with the first genesis tipset
    (a block of owner [-1]) or tipset without parents. *)
Fixpoint chainBlocks (ts : Tipset) : Z :=
  match ts with
  | mkTipset [] _ _ _ _ => 0
  | mkTipset (mkBlock _ up owner _ null _ _ _ :: rest) _ _ _ _ =>
      let below := match up with
                   | Some p => if owner =? -1 then 0 else chainBlocks p
                   | None => 0
                   end in
      if null then below else below + 1 + Z.of_nat (length rest)
  end.

(** The blocks counted below the block [b]. *)
Definition belowOf (b : Block) : Z :=
  match Parents b with
  | Some p => if Owner b =? -1 then 0 else chainBlocks p
  | None => 0
  end.

Lemma chainBlocks_eq (ts : Tipset) (b0 : Block) (rest : list Block) :
  Blocks ts = b0 :: rest ->
  chainBlocks ts
  = if Null b0 then belowOf b0 else belowOf b0 + 1 + Z.of_nat (length rest).
Proof.
  destruct ts as [bl name mt wh wt]. cbn [Blocks]. intros ->.
  destruct b0 as [n up o h null pw s ih]. reflexivity.
Qed.

Lemma chainBlocks_markWasHead (ts : Tipset) : chainBlocks (markWasHead ts) = chainBlocks ts.
Proof.
  destruct ts as [[|[n up o h null pw s ih] rest] name mt wh wt]; [reflexivity|].
  cbn. rewrite length_map. reflexivity.
Qed.

(** A fork whose live tipset weighs what the chain counts, a block whose
    parent weight is what the chain below it counts, a block generated on
    such a fork by a miner, and such a block that is not null. *)
Definition countedFork (ts : Tipset) : Prop :=
  forall lp, liveParentsFrom ts = Ok lp -> Weight lp = chainBlocks ts.

Definition countedBlock (b : Block) : Prop :=
  ParentWeight b = belowOf b.

Definition countedMined (blk : Block) : Prop :=
  Owner blk <> -1 /\ countedBlock blk /\
  exists p, Parents blk = Some p /\ countedFork p.

Definition countedLive (b : Block) : Prop :=
  Null b = false /\ countedBlock b.

Lemma NewTipset_counted (bs : list Block) (ts : Tipset) :
  NewTipset bs = Ok ts -> Forall countedLive bs ->
  Forall (fun b => in_int (ParentWeight b + Z.of_nat (length bs))) bs ->
  countedFork ts /\ Weight ts = chainBlocks ts.
Proof.
  intros H Hbs Hrange. pose proof (NewTipset_perm _ _ H) as Hperm.
  pose proof (NewTipset_length _ _ H) as Hlen.
  apply NewTipset_inv in H as (_ & b0 & rest & _ & Hts).
  assert (Blocks ts = b0 :: rest) as Hb by (rewrite Hts; reflexivity).
  assert (In b0 bs) as Hin.
  { eapply Permutation_in; [exact Hperm|]. rewrite Hb. left. reflexivity. }
  assert (countedLive b0) as [Hn Hc].
  { rewrite Forall_forall in Hbs. apply Hbs, list_elem_of_In, Hin. }
  assert (in_int (ParentWeight b0 + Z.of_nat (length bs))) as Hr.
  { rewrite Forall_forall in Hrange. apply Hrange, list_elem_of_In, Hin. }
  rewrite Hb in Hlen. rewrite <- Hlen in Hr.
  assert (Weight ts = chainBlocks ts) as Hw.
  { rewrite (chainBlocks_eq ts b0 rest Hb), Hn. rewrite Hts. cbn [Weight].
    rewrite Hn. cbn [negb]. unfold int_add. rewrite (wrap_int_id _ Hr).
    rewrite Hc. cbn [length]. lia. }
  split; [|exact Hw].
  intros lp Hlp. rewrite (liveParentsFrom_live ts b0 rest Hb Hn) in Hlp.
  injection Hlp as <-. exact Hw.
Qed.

(** The tipsets of a round whose blocks are counted are counted. *)
Lemma sized_counted (L : nat) (tm r : Z) (blks : list Block) (f : Tipset) :
  0 <= r -> (r + 1) * tm <= int_max ->
  Forall (liveBlock L tm r) blks -> Z.of_nat (length blks) <= tm ->
  Forall countedLive blks ->
  sizedFrom blks f ->
  countedFork f /\ Weight f = chainBlocks f.
Proof.
  intros Hr Hmax Hlive Hlen Hcounted (bs & Hf & Hsub & Hl).
  apply (NewTipset_counted bs f Hf).
  - apply Forall_forall. intros b Hb. rewrite Forall_forall in Hcounted.
    apply Hcounted, list_elem_of_In, Hsub, list_elem_of_In, Hb.
  - apply Forall_forall. intros b Hb. rewrite Forall_forall in Hlive.
    apply list_elem_of_In, Hsub, list_elem_of_In, Hlive in Hb as (_ & _ & _ & Hw).
    unfold in_int, int_min, int_max in *. lia.
Qed.

Lemma tipsetOf_counted (nb : Block) :
  countedMined nb -> Null nb = true -> countedFork (tipsetOf nb).
Proof.
  intros (Ho & _ & p & Hp & Hq) Hn lp Hlp.
  rewrite (liveParentsFrom_null nb p Hn Hp) in Hlp. rewrite (Hq lp Hlp).
  rewrite (chainBlocks_eq (tipsetOf nb) nb [] eq_refl), Hn. unfold belowOf. rewrite Hp.
  destruct (Z.eqb_spec (Owner nb) (-1)); [contradiction | reflexivity].
Qed.

Lemma generateBlock_counted (m : RationalMiner) (ts : Tipset) (lbp : Z) (blk : Block)
      (w0 w1 : world) :
  ID m <> -1 -> countedFork ts ->
  generateBlock m ts lbp w0 = Ok (blk, w1) -> countedMined blk.
Proof.
  intros Hid Hq H.
  apply generateBlock_spec in H as (lb & lb1 & lp & h & _ & _ & Hlp & _ & -> & _).
  rewrite liveParentsOfTipset_From in Hlp.
  split; [exact Hid|]. split.
  - unfold countedBlock, belowOf. cbn [ParentWeight Parents Owner].
    destruct (Z.eqb_spec (ID m) (-1)); [contradiction|]. apply Hq, Hlp.
  - exists ts. split; [reflexivity | exact Hq].
Qed.

(** The miners of a trial: none has the owner number of genesis, and the
    forks they hold are counted. *)
Definition countedMiner (m : RationalMiner) : Prop :=
  ID m <> -1 /\ forall k ts, PrivateForks m !! k = Some ts -> countedFork ts.

Lemma mineAll_counted
      (order : nat -> list (string * Tipset) -> list (string * Tipset))
      (i : nat) (ms ms' : list RationalMiner) (ct ct' : chainTracker)
      (atsforks : list (list Tipset)) (lbp : Z) (newBlocks : list Block) (w w' : world) :
  (forall j l, Permutation (order j l) l) ->
  Forall countedMiner ms ->
  Forall (Forall countedFork) atsforks ->
  (forall n b, allBlocks ct !! n = Some b -> countedBlock b) ->
  mineAll order i ms ct atsforks lbp w = Ok (newBlocks, ms', ct', w') ->
  Forall countedLive newBlocks /\
  Forall countedMiner ms' /\
  (forall n b, allBlocks ct' !! n = Some b -> countedBlock b).
Proof.
  intros Horder Hms Hats. revert i ct newBlocks ms' ct' w.
  induction ms as [|m rest IH]; intros i ct newBlocks ms' ct' w Htable H.
  - apply mret_Ok in H as [[= -> -> ->] _].
    split; [constructor|]. split; [constructor | exact Htable].
  - cbn [mineAll] in H. apply Mbind_Ok in H as ([[res m1] ct1] & w1 & Hm & H).
    apply Mbind_Ok in H as ([[nb rest1] ct2] & w2 & Hrest & H).
    apply mret_Ok in H as [[= -> -> ->] ->].
    apply Forall_cons in Hms as [[Hid Hm0] Hms].
    eapply (Mine_holds countedMined countedBlock countedFork) in Hm
      as (Hres & Hpf & Htable1 & _ & Hid1 & _);
      [|apply Horder | intros b Hb; apply Hb | | exact Hm0 | exact Hats | exact Htable].
    2: { intros ts blk w0 w3 Hq Hg. eapply generateBlock_counted; eassumption. }
    apply (IH Hms) in Hrest as (Hnb & Hrest1 & Htable2); [|exact Htable1].
    split.
    { destruct res as [b|]; [|exact Hnb]. constructor; [|exact Hnb].
      destruct (Hres b eq_refl) as [Hb Hn]. split; [exact Hn | apply Hb]. }
    split; [|exact Htable2]. constructor; [|exact Hrest1].
    split; [rewrite Hid1; exact Hid|].
    intros k ts Hk. destruct (Hpf k ts Hk) as [Hq|(nb0 & -> & Hnb0 & Hnull)];
      [exact Hq | apply tipsetOf_counted; assumption].
Qed.

Lemma setHead_head_cases (ct ct' : chainTracker) (blocks blocks' : list Block) :
  setHead ct blocks = Ok (ct', blocks') ->
  length blocks' = length blocks /\
  (head ct' = head ct \/
   exists tipsets c, allTipsets blocks = Ok tipsets /\ In c tipsets /\
                     head ct' = Some (markWasHead c)).
Proof.
  intros H. split.
  { unfold setHead in H. apply rbind_Ok in H as (tipsets & _ & H).
    apply rbind_Ok in H as ([final moved] & _ & H).
    destruct final as [c|]; [destruct moved|]; injection H as _ <-;
      [unfold markBlocks; apply length_map | reflexivity | reflexivity]. }
  destruct (head ct) as [h|] eqn:Hh.
  - destruct (setHead_spec _ _ _ _ _ H Hh) as (tipsets & Hts & Hcase).
    destruct Hcase as [(_ & -> & _)|(c & Hin & _ & _ & -> & _)].
    + left. exact Hh.
    + right. exists tipsets, c. split; [exact Hts|]. split; [exact Hin | reflexivity].
  - left. unfold setHead in H. apply rbind_Ok in H as (tipsets & _ & H).
    apply rbind_Ok in H as ([final moved] & Hloop & H). rewrite Hh in Hloop.
    destruct tipsets as [|ts rest]; [|discriminate Hloop].
    injection Hloop as <- <-. injection H as <- _. exact Hh.
Qed.

(** What a trial keeps from round to round. *)
Definition countedInv (st : simState) : Prop :=
  Forall countedLive (simBlocks st) /\
  Forall countedMiner (miners (simCt st)) /\
  (forall n b, allBlocks (simCt st) !! n = Some b -> countedBlock b) /\
  (forall h, head (simCt st) = Some h -> Weight h = chainBlocks h) /\
  (forall h blks, liveBlocksByHeight (simCt st) !! h = Some blks ->
                  Forall countedLive blks).

Lemma simRound_counted (L : nat) (tm r : Z) order (lbp : Z) (st st' : simState)
      (w w' : world) :
  (forall j l, Permutation (order j l) l) ->
  0 <= r -> (r + 1) * tm <= int_max ->
  roundInv L tm r st ->
  countedInv st ->
  simRound order lbp st w = Ok (st', w') ->
  countedInv st'.
Proof.
  intros Horder Hr Hmax (Hlb & Hlen & _) (Hblocks & Hms & Htable & Hhead & Hlive) H.
  apply simRound_spec in H
    as (ct1 & blocks1 & ats & atsforks & newBlocks & ms & ct2
        & Hset & _ & Hats & Hforks & Hmine & ->).
  destruct (setHead_head_cases _ _ _ _ Hset) as [Hlen1 Hcases].
  assert (Forall countedLive blocks1) as Hblocks1.
  { apply Forall_forall. intros b Hb. apply list_elem_of_In in Hb.
    rewrite Forall_forall in Hblocks.
    destruct (setHead_blocks _ _ _ _ _ Hset Hb) as (b0 & Hb0 & [->| ->]).
    - apply Hblocks, list_elem_of_In, Hb0.
    - apply list_elem_of_In, Hblocks in Hb0 as [Hn Hc]. split; [exact Hn | exact Hc]. }
  assert (Forall (liveBlock L tm r) blocks1) as Hlb1.
  { apply Forall_forall. intros b Hb. apply list_elem_of_In in Hb.
    rewrite Forall_forall in Hlb.
    destruct (setHead_blocks _ _ _ _ _ Hset Hb) as (b0 & Hb0 & [->| ->]);
      apply list_elem_of_In, Hlb in Hb0; [exact Hb0 | apply liveBlock_mark, Hb0]. }
  destruct (setHead_frame _ _ _ _ Hset) as (Htab1 & Hms1 & Hlive1 & _).
  pose proof (mineAll_head _ _ _ _ _ _ _ _ _ _ _ Hmine) as Hhead2.
  rewrite roundRecord_head in Hhead2.
  destruct (mineAll_records _ _ _ _ _ _ _ _ _ _ _ Hmine) as [l Hl].
  rewrite roundRecord_miners, Hms1 in Hmine.
  eapply mineAll_counted in Hmine as (Hnew & Hms' & Htable');
    [|exact Horder | exact Hms | |].
  - unfold countedInv.
    cbn [simBlocks simCt withMiners miners allBlocks head liveBlocksByHeight].
    split; [exact Hnew|]. split; [exact Hms'|]. split; [exact Htable'|]. split.
    + intros h Hh. rewrite Hhead2 in Hh.
      destruct Hcases as [Hsame|(tipsets & c & Hts & Hin & Hc)].
      * apply Hhead. rewrite <- Hsame. exact Hh.
      * rewrite Hc in Hh. injection Hh as <-. rewrite chainBlocks_markWasHead.
        cbn [markWasHead Weight].
        apply allTipsets_sized in Hts. rewrite Forall_forall in Hts.
        apply list_elem_of_In, Hts in Hin.
        eapply sized_counted; [exact Hr | exact Hmax | exact Hlb | exact Hlen
                               | exact Hblocks | exact Hin].
    + intros h blks Hk. rewrite Hl, fold_recordBlock_live, roundRecord_live in Hk.
      destruct blocks1 as [|b0 rest0].
      * rewrite Hlive1 in Hk. eapply Hlive, Hk.
      * apply lookup_insert_Some in Hk as [[_ <-]|[_ Hk]]; [exact Hblocks1|].
        rewrite Hlive1 in Hk. eapply Hlive, Hk.
  - eapply Forall_impl; [eapply round_forks_sized; eassumption|].
    intros forks Hf. eapply Forall_impl; [exact Hf|].
    intros f Hsized.
    eapply sized_counted; [exact Hr | exact Hmax | exact Hlb1 | lia
                           | exact Hblocks1 | exact Hsized].
  - intros n b Hn. apply roundRecord_table in Hn as [Hn|Hn].
    + rewrite Htab1 in Hn. eapply Htable, Hn.
    + rewrite Forall_forall in Hblocks1. apply Hblocks1, list_elem_of_In, Hn.
Qed.

Lemma simRounds_counted (L : nat) (tm : Z)
      (order : nat -> nat -> list (string * Tipset) -> list (string * Tipset))
      (lbp : Z) (n round : nat) (st st' : simState) (w w' : world) :
  (forall r j l, Permutation (order r j l) l) ->
  (Z.to_nat (int_sub lbp 1) <= L)%nat ->
  1 <= tm -> Z.of_nat (round + n) * tm <= int_max ->
  roundInv L tm (Z.of_nat round) st ->
  countedInv st ->
  simRounds order lbp n round st w = Ok (st', w') ->
  countedInv st'.
Proof.
  intros Horder HL Htm. revert round st w.
  induction n as [|n IH]; intros round st w Hmax Hinv Hc H.
  - apply mret_Ok in H as [-> _]. exact Hc.
  - cbn [simRounds] in H. apply Mbind_Ok in H as (st1 & w1 & Hround & H).
    destruct (simRound_total L tm (Z.of_nat round) (order round) lbp st w)
      as (st2 & w2 & Hround' & Hinv1); try assumption; [apply Horder | lia | nia |].
    rewrite Hround in Hround'. injection Hround' as <- <-.
    replace (Z.of_nat round + 1) with (Z.of_nat (S round)) in Hinv1 by lia.
    eapply (IH (S round) st1 w1);
      [replace (S round + n)%nat with (round + S n)%nat by lia; exact Hmax
      | exact Hinv1 | | exact H].
    eapply simRound_counted; [apply Horder | | | exact Hinv | exact Hc | exact Hround];
      [lia | nia].
Qed.

Lemma simStart_counted (totalMiners lbp : Z) (st : simState) (w w' : world) :
  simStart totalMiners lbp w = Ok (st, w') -> countedInv st.
Proof.
  intros H. apply simStart_spec in H as (_ & _ & gen & hd & Hg & Hb & Hnt & ->).
  assert (countedLive gen /\ ParentWeight gen = 0) as [Hgen Hpw0].
  { inversion Hg as [? b Hb' _ _ _ Ho _ Hn Hpw _]. subst.
    rewrite Hb in Hb'. injection Hb' as <-.
    split; [|exact Hpw]. split; [exact Hn|]. unfold countedBlock, belowOf.
    rewrite Hpw, Ho. destruct (Parents gen); reflexivity. }
  unfold countedInv.
  cbn [simBlocks simCt withHead NewChainTracker miners allBlocks head
       liveBlocksByHeight].
  split; [constructor; [exact Hgen | constructor]|]. split.
  { unfold newMiners. apply Forall_forall. intros m Hm.
    apply list_elem_of_In, in_map_iff in Hm as (i & <- & _).
    split; [cbn [NewRationalMiner ID]; lia|].
    intros k ts Hk. cbn [NewRationalMiner PrivateForks] in Hk.
    rewrite lookup_empty in Hk. discriminate Hk. }
  split; [intros n b Hn; rewrite lookup_empty in Hn; discriminate Hn|].
  split.
  - intros h [= <-]. apply (NewTipset_counted [gen] hd Hnt).
    + constructor; [exact Hgen | constructor].
    + constructor; [|constructor]. rewrite Hpw0.
      unfold in_int, int_min, int_max. cbn [length]. lia.
  - intros h blks Hk. rewrite lookup_empty in Hk. discriminate Hk.
Qed.

(** The weights of a trial count the blocks of the chains.  With at least
    one miner and a product of the numbers of rounds and of miners in the
    range of [int], in the tracker a trial delivers the weight of the head
    is the number of blocks of the tipsets of its chain that are not led by
    a null block, the genesis chain counting as one block; the parent
    weight of every block of the table, and of every block filed under a
    height (none of which is null), is the number of such blocks below it;
    and the tipset whose weight a block on a fork still held by a miner
    would inherit weighs what the chain of that fork counts: a null block
    adds nothing, a tipset adds its members. *)
Theorem weight_counts_chain
        (order : nat -> nat -> list (string * Tipset) -> list (string * Tipset))
        (totalMiners roundNum lbp : Z) (w w' : world) (ct : chainTracker) :
  (forall r j l, Permutation (order r j l) l) ->
  0 < totalMiners -> roundNum * totalMiners <= int_max ->
  runSim order totalMiners roundNum lbp w = Ok (ct, w') ->
  (forall h, head ct = Some h -> Weight h = chainBlocks h) /\
  (forall n b, allBlocks ct !! n = Some b -> ParentWeight b = belowOf b) /\
  (forall h blks, liveBlocksByHeight ct !! h = Some blks ->
     Forall (fun b => Null b = false /\ ParentWeight b = belowOf b) blks) /\
  (forall m k ts lp,
     In m (miners ct) -> PrivateForks m !! k = Some ts ->
     liveParentsFrom ts = Ok lp -> Weight lp = chainBlocks ts).
Proof.
  intros Horder Htm Hrounds H. unfold runSim in H.
  apply Mbind_Ok in H as (st & w1 & Hstart & H).
  apply Mbind_Ok in H as (st' & w2 & Hrounds' & H).
  apply mret_Ok in H as [-> _].
  pose proof (simStart_spec _ _ _ _ _ Hstart) as (Hlbp & _).
  set (L := Z.to_nat (int_sub lbp 1)).
  assert (L <= Z.to_nat lbp - 1)%nat as HL.
  { unfold L, int_sub. pose proof (wrap_int_le (lbp - 1)) as Hle.
    unfold int_min in Hle. lia. }
  pose proof (simStart_roundInv L totalMiners lbp st w w1 HL ltac:(lia) Hstart) as Hinv.
  apply simStart_counted in Hstart.
  assert (countedInv st') as (_ & Hms & Htable & Hhead & Hlive).
  { eapply (simRounds_counted L totalMiners order lbp (Z.to_nat roundNum) 0);
      [exact Horder | unfold L; lia | lia | | exact Hinv | exact Hstart | exact Hrounds'].
    cbn [Nat.add]. destruct (Z.le_gt_cases 0 roundNum).
    - rewrite Z2Nat.id by assumption. exact Hrounds.
    - replace (Z.to_nat roundNum) with O by lia. unfold int_max. lia. }
  cbn [withMaxHeight head allBlocks liveBlocksByHeight miners].
  split; [exact Hhead|]. split; [exact Htable|]. split; [exact Hlive|].
  intros m k ts lp Hm Hk Hlp. rewrite Forall_forall in Hms.
  apply list_elem_of_In, Hms in Hm as [_ Hpf]. eapply Hpf; eassumption.
Qed.

(** ** The head is the best tipset published *)

Lemma goodAsHead_markWasHead (ts c : Tipset) : goodAsHead ts c -> goodAsHead ts (markWasHead c).
Proof. intros H. exact H. Qed.

(** Over the rounds of a trial the head is at least as good as the head the
    rounds started with and as every tipset of the blocks a round took from
    the round before it, and it is the first head or one of these tipsets. *)
Lemma simRounds_head_best
      (order : nat -> nat -> list (string * Tipset) -> list (string * Tipset))
      (lbp : Z) (n round : nat) (st st' : simState) (w w' : world) (h : Tipset) :
  simRounds order lbp n round st w = Ok (st', w') ->
  head (simCt st) = Some h ->
  exists h',
    head (simCt st') = Some h' /\ goodAsHead h h' /\
    (forall j stj wj tipsets ts,
       (j < n)%nat -> simRounds order lbp j round st w = Ok (stj, wj) ->
       allTipsets (simBlocks stj) = Ok tipsets -> In ts tipsets -> goodAsHead ts h') /\
    (h' = h \/
     exists j stj wj tipsets c,
       (j < n)%nat /\ simRounds order lbp j round st w = Ok (stj, wj) /\
       allTipsets (simBlocks stj) = Ok tipsets /\ In c tipsets /\ h' = markWasHead c).
Proof.
  revert round st w h. induction n as [|n IH]; intros round st w h H Hh.
  - apply mret_Ok in H as [-> _]. exists h. split; [exact Hh|].
    split; [apply goodAsHead_refl|]. split; [intros; lia | left; reflexivity].
  - cbn [simRounds] in H. apply Mbind_Ok in H as (st1 & w1 & Hround & H).
    destruct (simRound_head _ _ _ _ _ _ Hround) as (ct1 & blocks1 & Hset & Hhead).
    destruct (setHead_spec _ _ _ _ _ Hset Hh) as (tipsets0 & Hts0 & Hcase).
    assert (exists h1, head (simCt st1) = Some h1 /\ goodAsHead h h1 /\
                       Forall (fun ts => goodAsHead ts h1) tipsets0 /\
                       (h1 = h \/ exists c, In c tipsets0 /\ h1 = markWasHead c))
      as (h1 & Hh1 & Hgood1 & Hall1 & Horigin1).
    { destruct Hcase as [(Hnone & -> & _)|(c & Hin & Hb & Hall & -> & _)].
      - exists h. split; [rewrite Hhead; exact Hh|]. split; [apply goodAsHead_refl|].
        split; [|left; reflexivity].
        eapply Forall_impl; [exact Hnone|]. intros ts Hr. apply replacesHead_false, Hr.
      - exists (markWasHead c). split; [rewrite Hhead; reflexivity|].
        split; [apply goodAsHead_markWasHead, betterHead_goodAsHead, Hb|].
        split; [|right; exists c; split; [exact Hin | reflexivity]].
        eapply Forall_impl; [exact Hall|]. intros ts Hg. exact Hg. }
    destruct (IH _ _ _ _ H Hh1) as (h' & Hh' & Hgood & Hbest & Horigin).
    exists h'. split; [exact Hh'|].
    split; [eapply goodAsHead_trans; eassumption|]. split.
    + intros [|j] stj wj tipsets ts Hj Hrun Hts Hin.
      * apply mret_Ok in Hrun as [-> _]. rewrite Hts0 in Hts. injection Hts as <-.
        rewrite Forall_forall in Hall1.
        eapply goodAsHead_trans; [apply Hall1, list_elem_of_In, Hin | exact Hgood].
      * cbn [simRounds] in Hrun. apply Mbind_Ok in Hrun as (st2 & w2 & Hround' & Hrun).
        rewrite Hround in Hround'. injection Hround' as <- <-.
        eapply (Hbest j); [lia | exact Hrun | exact Hts | exact Hin].
    + destruct Horigin as [->|(j & stj & wj & tipsets & c & Hj & Hrun & Hts & Hin & ->)].
      * destruct Horigin1 as [->|(c & Hin & ->)]; [left; reflexivity|].
        right. exists 0%nat, st, w, tipsets0, c.
        split; [lia|]. split; [reflexivity|]. split; [exact Hts0|].
        split; [exact Hin | reflexivity].
      * right. exists (S j), stj, wj, tipsets, c. split; [lia|]. split.
        { cbn [simRounds]. erewrite Mbind_run by exact Hround. exact Hrun. }
        split; [exact Hts|]. split; [exact Hin | reflexivity].
Qed.

(** The head of a trial is the best tipset published so far.  After [n]
    rounds the head is at least as good (heavier, or as heavy with a least
    ticket that is not greater) as every tipset [allTipsets] makes of the
    blocks that entered one of these rounds; and it is the tipset of the
    genesis block the trial started with, or one of those tipsets marked as
    head.  The blocks the last round published are not among them: no round
    has looked at them. *)
Theorem head_is_best_published
        (order : nat -> nat -> list (string * Tipset) -> list (string * Tipset))
        (totalMiners lbp : Z) (n : nat) (w w' : world) (st' : simState) :
  trialAfter order totalMiners lbp n w = Ok (st', w') ->
  exists h',
    head (simCt st') = Some h' /\
    (forall j stj wj tipsets ts,
       (j < n)%nat -> trialAfter order totalMiners lbp j w = Ok (stj, wj) ->
       allTipsets (simBlocks stj) = Ok tipsets -> In ts tipsets -> goodAsHead ts h') /\
    ((exists st0 w0, trialAfter order totalMiners lbp 0 w = Ok (st0, w0) /\
                     head (simCt st0) = Some h') \/
     exists j stj wj tipsets c,
       (j < n)%nat /\ trialAfter order totalMiners lbp j w = Ok (stj, wj) /\
       allTipsets (simBlocks stj) = Ok tipsets /\ In c tipsets /\ h' = markWasHead c).
Proof.
  unfold trialAfter. intros H. apply Mbind_Ok in H as (st0 & w0 & Hstart & H).
  assert (exists h, head (simCt st0) = Some h) as [h Hh].
  { apply simStart_spec in Hstart as (_ & _ & gen & hd & _ & _ & _ & ->).
    exists hd. reflexivity. }
  destruct (simRounds_head_best _ _ _ _ _ _ _ _ _ H Hh)
    as (h' & Hh' & _ & Hbest & Horigin).
  exists h'. split; [exact Hh'|]. split.
  - intros j stj wj tipsets ts Hj Hrun Hts Hin.
    apply Mbind_Ok in Hrun as (st1 & w1 & Hstart' & Hrun).
    rewrite Hstart in Hstart'. injection Hstart' as <- <-.
    eapply (Hbest j); eassumption.
  - destruct Horigin as [->|(j & stj & wj & tipsets & c & Hj & Hrun & Hts & Hin & ->)].
    + left. exists st0, w0. split; [|exact Hh].
      erewrite Mbind_run by exact Hstart. reflexivity.
    + right. exists j, stj, wj, tipsets, c. split; [exact Hj|]. split.
      { erewrite Mbind_run by exact Hstart. exact Hrun. }
      split; [exact Hts|]. split; [exact Hin | reflexivity].
Qed.

(** ** Mine and the order of the forks *)

(** Blocks a miner generates on one fork agree on being null and on the
    parent weight, whatever the nonces given out and the generators hold. *)
Lemma generateBlock_same_fork (m : RationalMiner) (ts : Tipset) (lbp : Z)
      (w1 w1' w2 w2' : world) (b1 b2 : Block) :
  generateBlock m ts lbp w1 = Ok (b1, w1') ->
  generateBlock m ts lbp w2 = Ok (b2, w2') ->
  Null b1 = Null b2 /\ ParentWeight b1 = ParentWeight b2.
Proof.
  intros H1 H2.
  apply generateBlock_spec in H1 as (lb & lb1 & lp & h & Hlb & _ & Hlp & _ & -> & _).
  apply generateBlock_spec in H2 as (lb' & lb1' & lp' & h' & Hlb' & _ & Hlp' & _ & -> & _).
  rewrite Hlb in Hlb'. injection Hlb' as <-. rewrite Hlp in Hlp'. injection Hlp' as <-.
  split; reflexivity.
Qed.

Lemma minedOn_covers (m : RationalMiner) (lbp : Z)
      (entries1 entries2 : list (string * Tipset)) (w1 w1' w2 w2' : world)
      (blks1 blks2 : list Block) (x : Block) :
  minedOn m lbp entries1 w1 blks1 w1' ->
  minedOn m lbp entries2 w2 blks2 w2' ->
  Permutation entries1 entries2 ->
  In x blks1 ->
  exists y, In y blks2 /\ Null y = Null x /\ ParentWeight y = ParentWeight x.
Proof.
  intros H1 H2 Hperm Hx.
  apply minedOn_sources in H1, H2.
  apply list_elem_of_In, list_elem_of_lookup in Hx as [i Hi].
  destruct (Forall2_lookup_r _ _ _ _ _ H1 Hi) as (e & He & _ & _ & w0 & w0' & Hgen).
  assert (In e entries2) as Hin.
  { eapply Permutation_in; [exact Hperm|]. apply list_elem_of_In.
    eapply list_elem_of_lookup_2, He. }
  apply list_elem_of_In, list_elem_of_lookup in Hin as [j Hj].
  destruct (Forall2_lookup_l _ _ _ _ _ H2 Hj) as (y & Hy & _ & _ & w3 & w3' & Hgen').
  exists y. split; [apply list_elem_of_In; eapply list_elem_of_lookup_2, Hy|].
  eapply generateBlock_same_fork; eassumption.
Qed.

(** What [Mine] returns, from the blocks its loop generates. *)
Lemma Mine_best order (m m' : RationalMiner) (ct ct' : chainTracker)
      (atsforks : list (list Tipset)) (lbp : Z) (res : option Block) (w w' : world) :
  Mine order m ct atsforks lbp w = Ok (res, m', ct', w') ->
  exists blks w1,
    minedOn (ConsiderAllForks m atsforks) lbp
            (order (map_to_list (forksConsidered m atsforks))) w blks w1 /\
    match res with
    | Some b => In b blks /\ Null b = false /\ 0 < ParentWeight b /\
                Forall (fun x => Null x = false -> ParentWeight x <= ParentWeight b) blks
    | None => Forall (fun x => Null x = false -> ParentWeight x <= 0) blks
    end.
Proof.
  unfold Mine. fold (forksConsidered m atsforks). intros H.
  apply Mbind_Ok in H as (v & w1 & Hloop & H).
  apply mineLoop_minedOn in Hloop as (blks & Hmined & Hv).
  pose proof (considerBlocks_preferred blks
                {| nullBlocks := []; maxWeight := 0; bestBlock := None; mineCt := ct |}
                eq_refl eq_refl) as Hpref.
  rewrite <- Hv in Hpref. exists blks, w1. split; [exact Hmined|].
  assert (res = bestBlock v) as ->.
  { destruct (bestBlock v) as [b|] eqn:Eb.
    - apply mret_Ok in H as [[= -> _ _] _]. reflexivity.
    - apply Mbind_Ok in H as (pf & w2 & _ & H).
      apply mret_Ok in H as [[= -> _ _] _]. reflexivity. }
  destruct (bestBlock v) as [b|]; [|apply Hpref].
  destruct Hpref as [(pre & post & -> & Hn & Hpos & Hpre & Hpost) _].
  split; [apply in_or_app; right; left; reflexivity|].
  split; [exact Hn|]. split; [exact Hpos|].
  apply Forall_app. split.
  - eapply Forall_impl; [exact Hpre|]. intros y Hy Hny. specialize (Hy Hny). lia.
  - constructor; [intros _; lia | exact Hpost].
Qed.

(** The order in which [range] yields the forks of a miner decides which of
    several heaviest blocks [Mine] returns, but not how heavy the block is,
    nor whether there is one: two runs of [Mine] for one miner and the same
    offered forks, under any two orders of iteration, and from any nonces
    given out, states of the generators and trackers, both return a block or
    both return none, and two blocks returned have the same parent
    weight. *)
Theorem Mine_weight_any_order
        (order1 order2 : list (string * Tipset) -> list (string * Tipset))
        (m m1 m2 : RationalMiner) (ct1 ct1' ct2 ct2' : chainTracker)
        (atsforks : list (list Tipset)) (lbp : Z) (res1 res2 : option Block)
        (w1 w1' w2 w2' : world) :
  (forall l, Permutation (order1 l) l) ->
  (forall l, Permutation (order2 l) l) ->
  Mine order1 m ct1 atsforks lbp w1 = Ok (res1, m1, ct1', w1') ->
  Mine order2 m ct2 atsforks lbp w2 = Ok (res2, m2, ct2', w2') ->
  match res1, res2 with
  | Some b1, Some b2 => ParentWeight b1 = ParentWeight b2
  | None, None => True
  | _, _ => False
  end.
Proof.
  intros Ho1 Ho2 H1 H2.
  apply Mine_best in H1 as (blks1 & u1 & Hm1 & Hres1).
  apply Mine_best in H2 as (blks2 & u2 & Hm2 & Hres2).
  assert (Permutation (order1 (map_to_list (forksConsidered m atsforks)))
                      (order2 (map_to_list (forksConsidered m atsforks)))) as Hperm
    by (rewrite Ho1, Ho2; reflexivity).
  destruct res1 as [b1|], res2 as [b2|].
  - destruct Hres1 as (Hin1 & Hn1 & _ & Hmax1), Hres2 as (Hin2 & Hn2 & _ & Hmax2).
    destruct (minedOn_covers _ _ _ _ _ _ _ _ _ _ _ Hm1 Hm2 Hperm Hin1) as (y & Hy & Hyn & Hyw).
    destruct (minedOn_covers _ _ _ _ _ _ _ _ _ _ _ Hm2 Hm1 (Permutation_sym Hperm) Hin2)
      as (z & Hz & Hzn & Hzw).
    rewrite Forall_forall in Hmax1, Hmax2.
    apply list_elem_of_In, Hmax2 in Hy; [|congruence].
    apply list_elem_of_In, Hmax1 in Hz; [|congruence]. lia.
  - destruct Hres1 as (Hin1 & Hn1 & Hpos & _).
    destruct (minedOn_covers _ _ _ _ _ _ _ _ _ _ _ Hm1 Hm2 Hperm Hin1) as (y & Hy & Hyn & Hyw).
    rewrite Forall_forall in Hres2. apply list_elem_of_In, Hres2 in Hy; [lia | congruence].
  - destruct Hres2 as (Hin2 & Hn2 & Hpos & _).
    destruct (minedOn_covers _ _ _ _ _ _ _ _ _ _ _ Hm2 Hm1 (Permutation_sym Hperm) Hin2)
      as (z & Hz & Hzn & Hzw).
    rewrite Forall_forall in Hres1. apply list_elem_of_In, Hres1 in Hz; [lia | congruence].
  - exact I.
Qed.

(** ** Tipsets do not mix null blocks and others *)

(** A tipset of blocks none of which is null, or of one null block. *)
Definition pureTipset (ts : Tipset) : Prop :=
  (Blocks ts <> [] /\ Forall (fun b => Null b = false) (Blocks ts)) \/
  (exists nb, Blocks ts = [nb] /\ Null nb = true).

Definition pureParents (b : Block) : Prop :=
  forall p, Parents b = Some p -> pureTipset p.

Lemma NewTipset_pure (bs : list Block) (ts : Tipset) :
  NewTipset bs = Ok ts -> Forall (fun b => Null b = false /\ pureParents b) bs ->
  pureTipset ts.
Proof.
  intros H Hbs. left. split; [eapply NewTipset_nonempty, H|].
  eapply Permutation_Forall; [apply Permutation_sym, NewTipset_perm, H|].
  eapply Forall_impl; [exact Hbs|]. intros b Hb. apply Hb.
Qed.

Lemma markWasHead_pure (c : Tipset) : pureTipset c -> pureTipset (markWasHead c).
Proof.
  intros [[Hne Hall]|(nb & Hb & Hn)]; unfold pureTipset; cbn [markWasHead Blocks].
  - left. split.
    { intros E. apply Hne. destruct (Blocks c); [reflexivity | discriminate E]. }
    apply Forall_forall. intros b Hb.
    apply list_elem_of_In, in_map_iff in Hb as (b0 & <- & Hb0).
    rewrite Forall_forall in Hall. apply list_elem_of_In, Hall in Hb0. exact Hb0.
  - right. exists (markInHead nb). rewrite Hb. split; [reflexivity | exact Hn].
Qed.

(** What a trial keeps from round to round. *)
Definition pureInv (st : simState) : Prop :=
  Forall (fun b => Null b = false /\ pureParents b) (simBlocks st) /\
  Forall (fun m => forall k ts, PrivateForks m !! k = Some ts -> pureTipset ts)
         (miners (simCt st)) /\
  (forall n b, allBlocks (simCt st) !! n = Some b -> pureParents b) /\
  (forall h, head (simCt st) = Some h -> pureTipset h).

Lemma simRound_pure order (lbp : Z) (st st' : simState) (w w' : world) :
  (forall j l, Permutation (order j l) l) ->
  pureInv st ->
  simRound order lbp st w = Ok (st', w') ->
  pureInv st'.
Proof.
  intros Horder (Hblocks & Hms & Htable & Hhead) H.
  destruct (simRound_head _ _ _ _ _ _ H) as (ct1 & blocks1 & Hset & Hhead1).
  eapply (simRound_holds (fun b => Null b = false /\ pureParents b) pureParents pureParents
                         pureTipset) in H as (Hnew & Hms' & Htable' & _);
    [|exact Horder | intros b Hb; exact Hb | intros b Hb; apply Hb | intros b Hb; exact Hb
     | apply NewTipset_pure | | exact Hblocks | exact Hms | exact Htable].
  - split; [|split; [|split; [exact Htable'|]]].
    + eapply Forall_impl; [exact Hnew|]. intros b [Hp Hn]. split; assumption.
    + eapply Forall_impl; [exact Hms'|]. intros m Hm k ts Hk.
      destruct (Hm k ts Hk) as [Hq|(nb & -> & _ & Hn)]; [exact Hq|].
      right. exists nb. split; [reflexivity | exact Hn].
    + intros h Hh. rewrite Hhead1 in Hh.
      destruct (setHead_head_cases _ _ _ _ Hset) as [_ [Hsame|(tipsets & c & Hts & Hin & Hc)]].
      * apply Hhead. rewrite <- Hsame. exact Hh.
      * rewrite Hc in Hh. injection Hh as <-. apply markWasHead_pure.
        apply allTipsets_built in Hts. rewrite Forall_forall in Hts.
        apply list_elem_of_In, Hts in Hin as (bs & Hnt & Hbs).
        apply (NewTipset_pure bs c Hnt). apply Forall_forall. intros b Hb.
        rewrite Forall_forall in Hblocks. apply Hblocks, list_elem_of_In, Hbs, list_elem_of_In, Hb.
  - intros m ts blk w0 w1 Hq Hgen.
    apply generateBlock_spec in Hgen as (lb & lb1 & lp & h & _ & _ & _ & _ & -> & _).
    intros p [= <-]. exact Hq.
Qed.

Lemma simRounds_pure
      (order : nat -> nat -> list (string * Tipset) -> list (string * Tipset))
      (lbp : Z) (n round : nat) (st st' : simState) (w w' : world) :
  (forall r j l, Permutation (order r j l) l) ->
  pureInv st ->
  simRounds order lbp n round st w = Ok (st', w') ->
  pureInv st'.
Proof.
  intros Horder. revert round st w. induction n as [|n IH]; intros round st w Hinv H.
  - apply mret_Ok in H as [-> _]. exact Hinv.
  - cbn [simRounds] in H. apply Mbind_Ok in H as (st1 & w1 & Hround & H).
    eapply IH; [|exact H]. eapply simRound_pure; [apply Horder | exact Hinv | exact Hround].
Qed.

Lemma simStart_pure (totalMiners lbp : Z) (st : simState) (w w' : world) :
  simStart totalMiners lbp w = Ok (st, w') -> pureInv st.
Proof.
  intros H. apply simStart_spec in H as (_ & _ & gen & hd & Hg & Hb & Hnt & ->).
  assert (forall ts, genesisTipset ts -> pureTipset ts) as Hgenesis.
  { intros ts Hts. inversion Hts as [? b Hbl _ _ _ _ _ Hn _ _]. subst. left.
    rewrite Hbl. split; [discriminate|]. constructor; [exact Hn | constructor]. }
  assert (Null gen = false /\ pureParents gen) as Hgen.
  { inversion Hg as [? b Hb' _ _ _ _ _ Hn _ Hp]. subst.
    rewrite Hb in Hb'. injection Hb' as <-.
    split; [exact Hn|]. intros p Hpar. apply Hgenesis, Hp, Hpar. }
  unfold pureInv. cbn [simBlocks simCt withHead NewChainTracker miners allBlocks head].
  split; [constructor; [exact Hgen | constructor]|]. split.
  - unfold newMiners. apply Forall_forall. intros m Hm.
    apply list_elem_of_In, in_map_iff in Hm as (i & <- & _).
    intros k ts Hk. cbn [NewRationalMiner PrivateForks] in Hk.
    rewrite lookup_empty in Hk. discriminate Hk.
  - split; [intros n b Hn; rewrite lookup_empty in Hn; discriminate Hn|].
    intros h [= <-]. apply Hgenesis, Hg.
Qed.

(** A trial never builds a tipset that mixes null blocks with others.  In
    the tracker delivered the head, every fork a miner holds and the parents
    of every block of the table are tipsets of blocks none of which is null,
    or of a single null block: so the first block of a tipset, which alone
    decides in [NewTipset] whether the members add to the weight, stands for
    all of them. *)
Theorem tipsets_never_mix
        (order : nat -> nat -> list (string * Tipset) -> list (string * Tipset))
        (totalMiners roundNum lbp : Z) (w w' : world) (ct : chainTracker) :
  (forall r j l, Permutation (order r j l) l) ->
  runSim order totalMiners roundNum lbp w = Ok (ct, w') ->
  (forall h, head ct = Some h -> pureTipset h) /\
  (forall m k ts, In m (miners ct) -> PrivateForks m !! k = Some ts -> pureTipset ts) /\
  (forall n b p, allBlocks ct !! n = Some b -> Parents b = Some p -> pureTipset p).
Proof.
  intros Horder H. unfold runSim in H.
  apply Mbind_Ok in H as (st & w1 & Hstart & H).
  apply Mbind_Ok in H as (st' & w2 & Hrounds & H).
  apply mret_Ok in H as [-> _].
  apply simStart_pure in Hstart.
  pose proof (simRounds_pure _ _ _ _ _ _ _ _ Horder Hstart Hrounds)
    as (_ & Hms & Htable & Hhead).
  cbn [withMaxHeight head allBlocks miners].
  split; [exact Hhead|]. split.
  - intros m k ts Hm Hk. rewrite Forall_forall in Hms.
    apply list_elem_of_In in Hm. exact (Hms m Hm k ts Hk).
  - intros n b p Hn Hp. eapply Htable; eassumption.
Qed.

End Simulator.

(** * The simulator at the evaluation instances *)

Abbreviation demoWorld stream := (mkWorld Z 0 (demoSeed 0) stream 0%nat).
Abbreviation demoNewTipset := (NewTipset insertionSort).
Abbreviation demoAllTipsets := (allTipsets insertionSort).
Abbreviation demoForks := (forksFromTipset insertionSort).
Abbreviation demoMine := (Mine Z demoSeed demoInt63n insertionSort).
Abbreviation demoRunSim := (runSim Z demoSeed demoInt63n insertionSort).
Abbreviation demoTrialAfter := (trialAfter Z demoSeed demoInt63n insertionSort).
Abbreviation demoMain := (main Z demoSeed demoInt63n insertionSort).

Lemma insertBySeed_perm (b : Block) (l : list Block) :
  Permutation (insertBySeed b l) (b :: l).
Proof.
  induction l as [|x rest IH]; cbn [insertBySeed]; [reflexivity|].
  destruct (Seed b <=? Seed x); [reflexivity|].
  rewrite IH. apply perm_swap.
Qed.

Lemma insertionSort_perm (l : list Block) : Permutation (insertionSort l) l.
Proof.
  induction l as [|x rest IH]; cbn [insertionSort]; [reflexivity|].
  rewrite insertBySeed_perm, IH. reflexivity.
Qed.

Lemma insertBySeed_sorted (b : Block) (l : list Block) :
  StronglySorted seed_le l -> StronglySorted seed_le (insertBySeed b l).
Proof.
  induction l as [|x rest IH]; intros Hl; cbn [insertBySeed].
  - constructor; constructor.
  - apply StronglySorted_inv in Hl as [Hrest Hx].
    destruct (Z.leb_spec (Seed b) (Seed x)) as [Hle|Hgt].
    + constructor; [constructor; assumption|].
      constructor; [exact Hle|].
      eapply Forall_impl; [exact Hx|]. unfold seed_le. intros a Ha. lia.
    + constructor; [apply IH, Hrest|].
      eapply Permutation_Forall; [apply Permutation_sym, insertBySeed_perm|].
      constructor; [unfold seed_le; lia | exact Hx].
Qed.

Lemma insertionSort_sorted (l : list Block) : StronglySorted seed_le (insertionSort l).
Proof.
  induction l as [|x rest IH]; cbn [insertionSort]; [constructor|].
  apply insertBySeed_sorted, IH.
Qed.

Lemma demoInt63n_range (r n : Z) : 0 < n -> 0 <= fst (demoInt63n r n) < n.
Proof. intros Hn. unfold demoInt63n. cbn [fst]. apply Z.mod_pos_bound, Hn. Qed.

Lemma demoOrder_perm (l : list (string * Tipset)) : Permutation (demoOrder l) l.
Proof. reflexivity. Qed.

(** ** C1: the grouping at two blocks of one height and one parent tipset *)

(** C1 (the code at the failing input).  [blkA] and [blkB] have the same
    height and the same parent tipset, yet [allTipsets] returns two tipsets
    for them: the group, and [blkB] alone once more.  With [blkLow] between
    them in the slice, the second of three tipsets joins [blkLow] (seed 1)
    and [blkB] (seed 9) without [blkA] (seed 5). *)
Theorem allTipsets_one_per_block :
  demoAllTipsets [blkA; blkB]
  = Ok [ {| Blocks := [blkA; blkB]; Name := "1-2"; MinTicket := 5;
            WasHead := false; Weight := 3 |};
         {| Blocks := [blkB]; Name := "2"; MinTicket := 9;
            WasHead := false; Weight := 2 |} ] /\
  sameGroup blkA blkB = true /\
  holdsOn (demoAllTipsets [blkA; blkLow; blkB])
          (fun tipsets => map Blocks tipsets
                          = [[blkLow; blkA; blkB]; [blkLow; blkB]; [blkB]]).
Proof.
  split; [vm_compute; reflexivity|]. split; [vm_compute; reflexivity|].
  vm_compute. reflexivity.
Qed.

(** ** C2 *)

(** The head of a trial of two miners does not get lighter from its second
    round to its fourth. *)
Lemma head_weight_monotone_witness :
  holdsOn (demoTrialAfter (fun _ _ => demoOrder) 2 1 1 (demoWorld (fun i => 12345 + Z.of_nat i)))
    (fun '(st, w) =>
       holdsOn (simRounds Z demoSeed demoInt63n insertionSort (fun _ _ => demoOrder)
                          1 2 1 st w)
         (fun '(st', _) =>
            exists h h', head (simCt st) = Some h /\ head (simCt st') = Some h' /\
                         Weight h <= Weight h' /\ (h' = h \/ betterHead h h'))).
Proof.
  destruct (demoTrialAfter (fun _ _ => demoOrder) 2 1 1
              (demoWorld (fun i => 12345 + Z.of_nat i))) as [[st w]|p] eqn:E1;
    [|vm_compute in E1; discriminate E1].
  cbn [holdsOn].
  destruct (simRounds Z demoSeed demoInt63n insertionSort (fun _ _ => demoOrder)
              1 2 1 st w) as [[st' w']|p] eqn:E2.
  - cbn [holdsOn].
    destruct (head (simCt st)) as [h|] eqn:Eh.
    + destruct (proj2 (proj2 (head_weight_monotone Z demoSeed demoInt63n insertionSort))
                  _ _ _ _ _ _ _ _ _ E2 Eh) as (h' & Hh' & Hw & Hcase).
      exists h, h'. repeat split; assumption.
    + exfalso. clear E2. vm_compute in E1. injection E1 as <- _.
      vm_compute in Eh. discriminate Eh.
  - exfalso. vm_compute in E1. injection E1 as <- <-. vm_compute in E2. discriminate E2.
Defined.

(** ** C3 *)

Lemma forksFromTipset_suffixes_witness :
  StronglySorted seed_le [blkLow; blkA; blkB] /\
  holdsOn (demoForks {| Blocks := [blkLow; blkA; blkB]; Name := "3-1-2";
                        MinTicket := 1; WasHead := false; Weight := 4 |})
          (fun forks =>
             length forks = 3%nat /\
             forall i fork, forks !! i = Some fork ->
               Permutation (Blocks fork) (drop i [blkLow; blkA; blkB]) /\
               length (Blocks fork) = (3 - i)%nat /\
               StronglySorted seed_le (Blocks fork)).
Proof.
  assert (StronglySorted seed_le [blkLow; blkA; blkB]) as Hsorted.
  { repeat constructor; unfold seed_le; cbn; lia. }
  split; [exact Hsorted|].
  destruct (forksFromTipset_suffixes insertionSort insertionSort_perm insertionSort_sorted
              {| Blocks := [blkLow; blkA; blkB]; Name := "3-1-2";
                 MinTicket := 1; WasHead := false; Weight := 4 |} Hsorted)
    as (forks & -> & Hlen & Hnth).
  cbn [holdsOn]. split; [exact Hlen|].
  intros i fork Hi. destruct (Hnth i fork Hi) as (Hp & Hl & Hs & _).
  repeat split; assumption.
Defined.

(** ** C4 *)



(** ** C8 *)



(** ** C5 *)


(** ** C6 *)

Lemma single_miner_round_zero_witness :
  exists st w1 st' w' blk,
    simStart Z demoSeed insertionSort 1 1 (demoWorld (fun i => 31 * Z.of_nat i)) = Ok (st, w1) /\
    simRounds Z demoSeed demoInt63n insertionSort (fun _ _ => demoOrder) 1 1 0 st w1
    = Ok (st', w') /\
    simBlocks st' = [blk] /\ Null blk = false /\ ParentWeight blk = 1 /\ Height blk = 1.
Proof.
  destruct (single_miner_round_zero Z demoSeed demoInt63n demoInt63n_range
              insertionSort insertionSort_perm (fun _ _ => demoOrder)
              (demoWorld (fun i => 31 * Z.of_nat i)) demoOrder_perm)
    as (st & w1 & st' & w' & gen & blk & H1 & _ & _ & _ & _ & _ & _ & _ & H2 & _ & H3
        & H4 & _ & H5 & _ & H6 & _).
  exists st, w1, st', w', blk. repeat split; assumption.
Defined.

(** ** C7 *)

(** C7 (counterexample).  Two runs of a trial of one miner and one round
    draw the same seed, 7, and end with different tables: the genesis
    blocks differ in their tickets, which [makeGen] draws from
    [crypto/rand]. *)
Lemma same_seed_different_trials :
  (7 + Z.of_nat 0) mod 2 ^ 62 = (if Nat.eqb 0 0 then 7 else 1000) mod 2 ^ 62 /\
  holdsOn (demoRunSim (fun _ _ => demoOrder) 1 1 1 (demoWorld (fun i => 7 + Z.of_nat i)))
    (fun '(ct1, _) =>
       holdsOn (demoRunSim (fun _ _ => demoOrder) 1 1 1
                  (demoWorld (fun i => if Nat.eqb i 0 then 7 else 1000 + Z.of_nat i)))
         (fun '(ct2, _) =>
            exists b1 b2,
              allBlocks ct1 !! 0 = Some b1 /\ allBlocks ct2 !! 0 = Some b2 /\
              Seed b1 <> Seed b2 /\ head ct1 <> head ct2)).
Proof.
  split; [reflexivity|]. vm_compute.
  eexists _, _. split; [reflexivity|]. split; [reflexivity|].
  split; intros E; discriminate E.
Qed.

Lemma trial_blind_to_seed_witness :
  sameOutcome Z
    (demoRunSim (fun _ _ => demoOrder) 2 2 1
                (demoWorld (fun i => if Nat.eqb i 0 then 11 else 5000 + Z.of_nat i)))
    (demoRunSim (fun _ _ => demoOrder) 2 2 1
                (mkWorld Z 40 (demoSeed 9)
                         (fun i => if Nat.eqb i 0 then 22 else 5000 + Z.of_nat i) 0%nat)).
Proof.
  refine (proj2 (trial_blind_to_seed Z demoSeed demoInt63n insertionSort
                   (fun _ _ => demoOrder) 2 2 1
                   (demoWorld (fun i => if Nat.eqb i 0 then 11 else 5000 + Z.of_nat i))
                   (mkWorld Z 40 (demoSeed 9)
                      (fun i => if Nat.eqb i 0 then 22 else 5000 + Z.of_nat i) 0%nat) _)).
  split; [reflexivity|]. intros [|i] Hi; [inversion Hi | reflexivity].
Defined.

(** ** C9 *)

(** C9 (counterexample).  With [lbp = 2] the genesis block of the table,
    block 1, stands on the tipset of block 0; both have height 0. *)
Lemma genesis_on_genesis :
  holdsOn (demoRunSim (fun _ _ => demoOrder) 1 1 2 (demoWorld (fun i => 7 + Z.of_nat i)))
    (fun '(ct, _) =>
       exists b p,
         allBlocks ct !! 1 = Some b /\ Parents b = Some p /\
         getHeight p = Ok 0 /\ Height b = 0 /\ Height b <> 0 + 1).
Proof.
  vm_compute. eexists _, _. split; [reflexivity|]. split; [reflexivity|].
  split; [reflexivity|]. split; [reflexivity|]. intros E; discriminate E.
Qed.

Lemma block_heights_witness :
  holdsOn (demoRunSim (fun _ _ => demoOrder) 2 2 2 (demoWorld (fun i => 7 + Z.of_nat i)))
    (fun '(ct, _) => forall b, reachable ct b -> heightRule b).
Proof.
  destruct (demoRunSim (fun _ _ => demoOrder) 2 2 2 (demoWorld (fun i => 7 + Z.of_nat i)))
    as [[ct w']|p] eqn:E; [|vm_compute in E; discriminate E].
  cbn [holdsOn].
  apply (block_heights Z demoSeed demoInt63n insertionSort insertionSort_perm
           (fun _ _ => demoOrder) 2 2 2 (demoWorld (fun i => 7 + Z.of_nat i)) w' ct).
  - intros r j l. apply demoOrder_perm.
  - unfold int_max. lia.
  - exact E.
Defined.

(** ** C10 *)



(** * Further properties at the evaluation instances *)

(** The tipset of [blkA] and [blkB], and the fork of it that keeps [blkB]. *)
Definition tipsetAB : Tipset :=
  {| Blocks := [blkA; blkB]; Name := "1-2"; MinTicket := 5; WasHead := false;
     Weight := 3 |}.

Definition tipsetB : Tipset :=
  {| Blocks := [blkB]; Name := "2"; MinTicket := 9; WasHead := false; Weight := 2 |}.

(** A miner of power 1.0 and a tracker whose head is the genesis tipset. *)
Definition minerSure : RationalMiner :=
  {| Power := 1%float; PrivateForks := ∅; ID := 0; TotalMiners := 1 |}.

Definition trackerAtGenesis : chainTracker :=
  {| liveBlocksByHeight := ∅; allBlocks := ∅; maxHeight := -1;
     head := Some genesisT; miners := [minerSure] |}.

(** Two blocks of height 5 without parents make [allTipsets] panic; a block
    of height 1 and one of height 5 do not. *)
Lemma allTipsets_panics_witness :
  demoAllTipsets [blkStray; blkStray] = Panicked NilDereference /\
  exists tipsets, demoAllTipsets [blkA; blkStray] = Ok tipsets.
Proof.
  split.
  - apply (proj2 (proj1 (allTipsets_panics insertionSort insertionSort_perm
                           [blkStray; blkStray]))).
    exists 0%nat, 1%nat, blkStray, blkStray.
    split; [lia|]. split; [reflexivity|]. split; [reflexivity|].
    split; [reflexivity | left; reflexivity].
  - apply (proj2 (proj2 (allTipsets_panics insertionSort insertionSort_perm
                           [blkA; blkStray]))).
    intros (i & j & b1 & b2 & Hlt & Hi & Hj & Hh & _).
    destruct i as [|[|i]], j as [|[|j]]; cbn in Hi, Hj; try discriminate; try lia.
    injection Hi as <-. injection Hj as <-. discriminate Hh.
Defined.

Lemma allTipsets_shape_witness :
  holdsOn (demoAllTipsets [blkA; blkLow; blkB])
          (fun tipsets =>
             length tipsets = 3%nat /\
             exists ts, tipsets !! 0%nat = Some ts /\
                        Permutation (Blocks ts) [blkA; blkLow; blkB] /\
                        StronglySorted seed_le (Blocks ts)).
Proof.
  destruct (demoAllTipsets [blkA; blkLow; blkB]) as [tipsets|p] eqn:E;
    [|vm_compute in E; discriminate E].
  cbn [holdsOn].
  destruct (allTipsets_shape insertionSort insertionSort_perm insertionSort_sorted _ _ E)
    as [Hlen Hnth].
  split; [exact Hlen|]. destruct tipsets as [|ts rest]; [discriminate Hlen|].
  exists ts. split; [reflexivity|].
  destruct (Hnth 0%nat ts blkA eq_refl eq_refl) as (Hp & Hs & _).
  split; [exact Hp | exact Hs].
Defined.

Lemma NewTipset_minTicket_witness :
  holdsOn (demoNewTipset [blkB; blkA; blkLow])
          (fun ts => exists b0, Blocks ts !! 0%nat = Some b0 /\
                                MinTicket ts = Seed b0 /\ MinTicket ts <= Seed blkB).
Proof.
  destruct (demoNewTipset [blkB; blkA; blkLow]) as [ts|p] eqn:E;
    [|vm_compute in E; discriminate E].
  cbn [holdsOn].
  destruct (NewTipset_minTicket insertionSort insertionSort_perm insertionSort_sorted _ _ E)
    as (b0 & Hb0 & _ & Hmin & Hleast & _).
  exists b0. split; [exact Hb0|]. split; [exact Hmin|].
  apply Hleast. left. reflexivity.
Defined.

(** [blkA] and [blkB] make a tipset heavier than the genesis tipset: the
    head moves to it and both blocks are marked. *)
Lemma setHead_marks_witness :
  holdsOn (setHead insertionSort trackerAtGenesis [blkA; blkB])
          (fun '(ct', blocks') =>
             exists c hd,
               head ct' = Some hd /\ WasHead hd = true /\
               Blocks hd = map markInHead (Blocks c) /\
               Forall (fun b => InHead b = true) (Blocks hd) /\
               length blocks' = 2%nat).
Proof.
  destruct (setHead insertionSort trackerAtGenesis [blkA; blkB]) as [[ct' blocks']|p] eqn:E;
    [|vm_compute in E; discriminate E].
  cbn [holdsOn].
  destruct (setHead_marks insertionSort insertionSort_perm trackerAtGenesis ct'
              [blkA; blkB] blocks' genesisT E eq_refl) as [[Hct _]|Hmoved].
  - cbn [map blkA blkB Nonce]. apply NoDup_cons. split.
    + intros Hin. apply list_elem_of_In in Hin. destruct Hin as [Hin|[]]. discriminate Hin.
    + apply NoDup_cons. split; [|constructor].
      intros Hin. apply list_elem_of_In in Hin. destruct Hin.
  - exfalso. rewrite Hct in E. clear Hct. vm_compute in E. discriminate E.
  - destruct Hmoved as (c & hd & Hhd & Hwas & _ & _ & _ & Hbl & Hall & _ & Hlen & _).
    exists c, hd. repeat split; assumption.
Defined.

(** A miner of power 1.0 offered the tipset of [blkA] and [blkB] and its
    fork generates a block on each, neither null, and returns the one on the
    heavier tipset, whichever the map yields first. *)
Lemma Mine_prefers_heaviest_witness :
  holdsOn (demoMine demoOrder minerSure trackerAtGenesis [[tipsetAB; tipsetB]] 1
                    (demoWorld (fun _ => 0)))
          (fun '(res, _, _, _) =>
             exists b blks, res = Some b /\ ParentWeight b = 3 /\ preferred blks b /\
                            length blks = 2%nat).
Proof.
  destruct (demoMine demoOrder minerSure trackerAtGenesis [[tipsetAB; tipsetB]] 1
                     (demoWorld (fun _ => 0)))
    as [[[[res m'] ct'] w']|p] eqn:E; [|vm_compute in E; discriminate E].
  cbn [holdsOn].
  destruct (Mine_prefers_heaviest Z demoSeed demoInt63n insertionSort demoOrder
              minerSure m' trackerAtGenesis ct' [[tipsetAB; tipsetB]] 1 res
              (demoWorld (fun _ => 0)) w' E) as (blks & Hmined & Hpref).
  assert (exists b, res = Some b /\ ParentWeight b = 3) as (b & -> & Hw).
  { clear Hmined Hpref. vm_compute in E. injection E as <- _ _ _.
    eexists. split; reflexivity. }
  exists b, blks. split; [reflexivity|]. split; [exact Hw|]. split; [exact Hpref|].
  apply minedOn_sources in Hmined. apply Forall2_length in Hmined.
  rewrite <- Hmined. vm_compute. reflexivity.
Defined.

Lemma one_block_per_miner_witness :
  holdsOn (demoTrialAfter (fun _ _ => demoOrder) 3 1 2 (demoWorld (fun i => 7 + Z.of_nat i)))
          (fun '(st, _) =>
             NoDup (map Owner (simBlocks st)) /\
             (length (simBlocks st) <= 3)%nat /\
             Forall (fun b => Null b = false) (simBlocks st)).
Proof.
  destruct (demoTrialAfter (fun _ _ => demoOrder) 3 1 2
              (demoWorld (fun i => 7 + Z.of_nat i))) as [[st w']|p] eqn:E;
    [|vm_compute in E; discriminate E].
  cbn [holdsOn].
  destruct (one_block_per_miner Z demoSeed demoInt63n insertionSort insertionSort_perm
              (fun _ _ => demoOrder) 3 1 1 (demoWorld (fun i => 7 + Z.of_nat i)) w' st E)
    as (_ & Hnd & Hlen & Hnn).
  split; [exact Hnd|]. split; [exact Hlen | exact Hnn].
Defined.

(** A trial of three miners, four rounds and lookback 2 runs to its end. *)
Lemma trial_runs_to_its_end_witness :
  exists ct w',
    demoRunSim (fun _ _ => demoOrder) 3 4 2 (demoWorld (fun i => 7 + Z.of_nat i))
    = Ok (ct, w') /\
    maxHeight ct = 3 /\
    forall h blks, liveBlocksByHeight ct !! h = Some blks ->
      0 <= h < 4 /\ Forall (fun b => Height b = h /\ Null b = false) blks.
Proof.
  destruct (trial_runs_to_its_end Z demoSeed demoInt63n insertionSort insertionSort_perm
              (fun _ _ => demoOrder) 3 4 2 (demoWorld (fun i => 7 + Z.of_nat i)))
    as (ct & w' & Hrun & Hmax & _ & Hlive).
  - intros r j l. apply demoOrder_perm.
  - lia.
  - lia.
  - unfold bigOlNum, int_max. lia.
  - unfold int_max. lia.
  - exists ct, w'. split; [exact Hrun|]. split; [exact Hmax|].
    intros h blks Hk. destruct (Hlive h blks Hk) as (Hr & _ & Hall).
    split; assumption.
Defined.

(** Miner 0 on the least ticket 5 and miner 3 on the least ticket 2 draw
    the same ticket, whatever the generator held before. *)
Lemma generateTicket_by_sum_witness :
  exists t w1' w2',
    generateTicket Z demoSeed demoInt63n minerSure 5 (demoWorld (fun _ => 0)) = Ok (t, w1') /\
    generateTicket Z demoSeed demoInt63n minerLosing 2
                   (mkWorld Z 9 (demoSeed 77) (fun _ => 1) 4%nat) = Ok (t, w2') /\
    0 <= t < bigOlNum.
Proof.
  destruct (generateTicket_by_sum Z demoSeed demoInt63n demoInt63n_range
              minerSure minerLosing 5 2 (demoWorld (fun _ => 0))
              (mkWorld Z 9 (demoSeed 77) (fun _ => 1) 4%nat) eq_refl)
    as (t & w1' & w2' & H1 & H2 & Ht & _).
  exists t, w1', w2'. split; [exact H1|]. split; [exact H2 | exact Ht].
Defined.

Lemma generateBlock_lookback_one_witness :
  holdsOn (generateBlock Z demoSeed demoInt63n minerLosing genesisT 1 (demoWorld (fun _ => 0)))
          (fun '(blk, _) =>
             Null blk = negb (isWinningTicket (Seed blk) (Power minerLosing)) /\
             0 <= Seed blk < bigOlNum /\ Parents blk = Some genesisT).
Proof.
  destruct (generateBlock Z demoSeed demoInt63n minerLosing genesisT 1
              (demoWorld (fun _ => 0))) as [[blk w']|p] eqn:E;
    [|vm_compute in E; discriminate E].
  cbn [holdsOn].
  destruct (generateBlock_lookback_one Z demoSeed demoInt63n demoInt63n_range
              minerLosing genesisT blk (demoWorld (fun _ => 0)) w' E)
    as (Hnull & _ & Hseed & Hp & _).
  split; [exact Hnull|]. split; [exact Hseed | exact Hp].
Defined.

(** A block on the tipset of the null block [blkNull], which stands on the
    genesis tipset. *)
Definition blkOnNull : Block :=
  {| Nonce := 5; Parents := Some (tipsetOf blkNull); Owner := 3; Height := 2;
     Null := false; ParentWeight := 1; Seed := 8; InHead := false |}.

Lemma liveParents_skips_nulls_witness :
  holdsOn (liveParents blkOnNull)
          (fun lp => lp = genesisT /\
                     (exists b0 rest, Blocks lp = b0 :: rest /\ Null b0 = false) /\
                     liveParents blkNull = Ok lp).
Proof.
  destruct (liveParents blkOnNull) as [lp|p] eqn:E; [|vm_compute in E; discriminate E].
  cbn [holdsOn].
  destruct (liveParents_skips_nulls blkOnNull lp E)
    as (Hlive & p & b0 & rest & Hp & Hb & _ & Hnull).
  split; [vm_compute in E; injection E as <-; reflexivity|]. split; [exact Hlive|].
  cbn [blkOnNull Parents] in Hp. injection Hp as <-.
  cbn [tipsetOf Blocks] in Hb. injection Hb as <- _.
  apply Hnull. reflexivity.
Defined.

(** The null block the losing miner generates on the genesis tipset, and a
    block generated on the tipset of that null block: both carry the weight
    1 of the genesis tipset. *)
Lemma null_chain_keeps_weight_witness :
  holdsOn (generateBlock Z demoSeed demoInt63n minerLosing genesisT 1
                         (mkWorld Z 1 (demoSeed 0) (fun _ => 0) 0%nat))
          (fun '(nb, w1) =>
             Null nb = true /\
             holdsOn (generateBlock Z demoSeed demoInt63n minerSure (tipsetOf nb) 1 w1)
                     (fun '(blk, _) =>
                        ParentWeight blk = ParentWeight nb /\ ParentWeight blk = 1 /\
                        Weight (tipsetOf nb) = 1)).
Proof.
  destruct (generateBlock Z demoSeed demoInt63n minerLosing genesisT 1
              (mkWorld Z 1 (demoSeed 0) (fun _ => 0) 0%nat)) as [[nb w1]|p] eqn:E1;
    [|vm_compute in E1; discriminate E1].
  cbn [holdsOn].
  assert (Null nb = true /\ ParentWeight nb = 1) as [Hnull Hw].
  { vm_compute in E1. injection E1 as <- _. split; reflexivity. }
  split; [exact Hnull|].
  destruct (generateBlock Z demoSeed demoInt63n minerSure (tipsetOf nb) 1 w1)
    as [[blk w2]|p] eqn:E2.
  - cbn [holdsOn].
    destruct (null_chain_keeps_weight Z demoSeed demoInt63n minerLosing minerSure genesisT
                1 1 nb blk _ w1 w1 w2 E1 Hnull E2) as (Hpw & Hts & _).
    split; [exact Hpw|]. split; [rewrite Hpw; exact Hw | rewrite Hts; exact Hw].
  - exfalso. vm_compute in E1. injection E1 as <- <-. vm_compute in E2. discriminate E2.
Defined.


(** Slices of one name have the nonces of [blkA] and [blkB], marked or
    not. *)
Lemma stringifyBlocks_inj_witness :
  stringifyBlocks [blkA; blkB] = stringifyBlocks [markInHead blkA; markInHead blkB] /\
  map Nonce [blkA; blkB] = map Nonce [markInHead blkA; markInHead blkB].
Proof.
  assert (stringifyBlocks [blkA; blkB] = stringifyBlocks [markInHead blkA; markInHead blkB])
    as Hname by (vm_compute; reflexivity).
  split; [exact Hname|].
  apply stringifyBlocks_inj; [| |exact Hname].
  - constructor; [cbn; lia|]. constructor; [cbn; lia | constructor].
  - constructor; [cbn; lia|]. constructor; [cbn; lia | constructor].
Defined.



(** In a trial of three miners, four rounds and lookback 2 the weight of
    the head counts the blocks of its chain. *)
Lemma weight_counts_chain_witness :
  holdsOn (demoRunSim (fun _ _ => demoOrder) 3 4 2 (demoWorld (fun i => 7 + Z.of_nat i)))
          (fun '(ct, _) =>
             (forall h, head ct = Some h -> Weight h = chainBlocks h) /\
             (forall n b, allBlocks ct !! n = Some b -> ParentWeight b = belowOf b)).
Proof.
  destruct (demoRunSim (fun _ _ => demoOrder) 3 4 2
              (demoWorld (fun i => 7 + Z.of_nat i))) as [[ct w']|p] eqn:E;
    [|vm_compute in E; discriminate E].
  cbn [holdsOn].
  destruct (weight_counts_chain Z demoSeed demoInt63n insertionSort insertionSort_perm
              (fun _ _ => demoOrder) 3 4 2 (demoWorld (fun i => 7 + Z.of_nat i)) w' ct)
    as (Hhead & Htable & _).
  - intros r j l. apply demoOrder_perm.
  - lia.
  - unfold int_max. lia.
  - exact E.
  - split; [exact Hhead | exact Htable].
Defined.

(** After three rounds of a trial of three miners the head is at least as
    good as every tipset of the blocks that entered the third round. *)
Lemma head_is_best_published_witness :
  holdsOn (demoTrialAfter (fun _ _ => demoOrder) 3 1 3 (demoWorld (fun i => 7 + Z.of_nat i)))
    (fun '(st', _) =>
       exists h',
         head (simCt st') = Some h' /\
         holdsOn (demoTrialAfter (fun _ _ => demoOrder) 3 1 2
                    (demoWorld (fun i => 7 + Z.of_nat i)))
           (fun '(stj, _) =>
              holdsOn (allTipsets insertionSort (simBlocks stj))
                      (fun tipsets => Forall (fun ts => goodAsHead ts h') tipsets))).
Proof.
  destruct (demoTrialAfter (fun _ _ => demoOrder) 3 1 3
              (demoWorld (fun i => 7 + Z.of_nat i))) as [[st' w']|p] eqn:E;
    [|vm_compute in E; discriminate E].
  cbn [holdsOn].
  destruct (head_is_best_published Z demoSeed demoInt63n insertionSort insertionSort_perm
              (fun _ _ => demoOrder) 3 1 3 (demoWorld (fun i => 7 + Z.of_nat i)) w' st' E)
    as (h' & Hh' & Hbest & _).
  exists h'. split; [exact Hh'|].
  destruct (demoTrialAfter (fun _ _ => demoOrder) 3 1 2
              (demoWorld (fun i => 7 + Z.of_nat i))) as [[stj wj]|p] eqn:E2;
    [|vm_compute in E2; discriminate E2].
  cbn [holdsOn].
  destruct (allTipsets insertionSort (simBlocks stj)) as [tipsets|p] eqn:E3.
  - cbn [holdsOn]. apply Forall_forall. intros ts Hin.
    eapply (Hbest 2%nat); [lia | exact E2 | exact E3 | apply list_elem_of_In, Hin].
  - exfalso. vm_compute in E2. injection E2 as <- _. vm_compute in E3. discriminate E3.
Defined.

(** The miner of power 1.0, offered the tipset of [blkA] and [blkB] and its
    fork, returns a block of parent weight 3 whether the map yields its two
    forks in one order or in the other, from different nonces. *)
Lemma Mine_weight_any_order_witness :
  holdsOn (demoMine demoOrder minerSure trackerAtGenesis [[tipsetAB; tipsetB]] 1
                    (demoWorld (fun _ => 0)))
    (fun '(res1, _, _, _) =>
       holdsOn (demoMine (@rev _) minerSure trackerAtGenesis [[tipsetAB; tipsetB]] 1
                         (mkWorld Z 40 (demoSeed 9) (fun _ => 0) 0%nat))
         (fun '(res2, _, _, _) =>
            exists b1 b2, res1 = Some b1 /\ res2 = Some b2 /\
                          ParentWeight b1 = ParentWeight b2 /\ Nonce b1 <> Nonce b2)).
Proof.
  destruct (demoMine demoOrder minerSure trackerAtGenesis [[tipsetAB; tipsetB]] 1
                     (demoWorld (fun _ => 0)))
    as [[[[res1 m1] ct1] w1]|p] eqn:E1; [|vm_compute in E1; discriminate E1].
  cbn [holdsOn].
  destruct (demoMine (@rev _) minerSure trackerAtGenesis [[tipsetAB; tipsetB]] 1
                     (mkWorld Z 40 (demoSeed 9) (fun _ => 0) 0%nat))
    as [[[[res2 m2] ct2] w2]|p] eqn:E2; [|vm_compute in E2; discriminate E2].
  cbn [holdsOn].
  pose proof (Mine_weight_any_order Z demoSeed demoInt63n insertionSort demoOrder (@rev _)
                minerSure m1 m2 trackerAtGenesis ct1 trackerAtGenesis ct2
                [[tipsetAB; tipsetB]] 1 res1 res2 _ w1 _ w2
                demoOrder_perm (fun l => Permutation_sym (Permutation_rev l)) E1 E2) as Hsame.
  assert (exists b1, res1 = Some b1 /\ Nonce b1 < 40) as (b1 & -> & Hn1).
  { clear Hsame. vm_compute in E1. injection E1 as <- _ _ _.
    eexists. split; [reflexivity|]. vm_compute. reflexivity. }
  assert (exists b2, res2 = Some b2 /\ 40 <= Nonce b2) as (b2 & -> & Hn2).
  { clear Hsame. vm_compute in E2. injection E2 as <- _ _ _.
    eexists. split; [reflexivity|]. vm_compute. intros E. discriminate E. }
  exists b1, b2. split; [reflexivity|]. split; [reflexivity|]. split; [exact Hsame | lia].
Defined.

(** In a trial of three miners, four rounds and lookback 2 the head and
    the forks the miners hold at the end do not mix null blocks and others. *)
Lemma tipsets_never_mix_witness :
  holdsOn (demoRunSim (fun _ _ => demoOrder) 3 4 2 (demoWorld (fun i => 7 + Z.of_nat i)))
          (fun '(ct, _) =>
             (forall h, head ct = Some h -> pureTipset h) /\
             (forall m k ts, In m (miners ct) -> PrivateForks m !! k = Some ts ->
                             pureTipset ts)).
Proof.
  destruct (demoRunSim (fun _ _ => demoOrder) 3 4 2
              (demoWorld (fun i => 7 + Z.of_nat i))) as [[ct w']|p] eqn:E;
    [|vm_compute in E; discriminate E].
  cbn [holdsOn].
  destruct (tipsets_never_mix Z demoSeed demoInt63n insertionSort insertionSort_perm
              (fun _ _ => demoOrder) 3 4 2 (demoWorld (fun i => 7 + Z.of_nat i)) w' ct)
    as (Hhead & Hforks & _).
  - intros r j l. apply demoOrder_perm.
  - exact E.
  - split; [exact Hhead | exact Hforks].
Defined.

(** * The earlier stage of the simulator: tipsets filed by name

    In the earlier of the two stages of the simulator [allTipsets] returns
    a map from the name of a tipset, the sorted nonces of its blocks, to
    the tipset, and a block carries its own [Weight]. *)

Module LongSim.

(** ** Structs *)

Inductive Block : Type := mkBlock {
  Nonce : Z;
  Parents : option Tipset;
  Owner : Z;
  Height : Z;
  Null : bool;
  Weight : Z;
  Seed : Z }
with Tipset : Type := mkTipset {
  Blocks : list Block;
  Name : string;
  MinTicket : Z }.

(** The order of [sort.Strings]: strings compared byte by byte. *)
Definition strLe (s1 s2 : string) : Prop := String.leb s1 s2 = true.

#[local] Instance strLe_antisym : AntiSymm (=) strLe.
Proof. intros s1 s2 H1 H2. apply String.leb_antisym; assumption. Qed.

(** [strings.Join(names, "-")] *)
Fixpoint joinDash (names : list string) : string :=
  match names with
  | [] => ""
  | a :: rest =>
      match rest with
      | [] => a
      | _ :: _ => String.append a (String.append "-" (joinDash rest))
      end
  end.

Section Tipsets.

(** [sort.Slice] by [Seed] and [sort.Strings]. *)
Variable sortBlocks : list Block -> list Block.
Hypothesis sortBlocks_perm : forall l, Permutation (sortBlocks l) l.
Variable sortStrings : list string -> list string.
Hypothesis sortStrings_perm : forall l, Permutation (sortStrings l) l.
Hypothesis sortStrings_sorted : forall l, StronglySorted strLe (sortStrings l).

(** [getSortedBlockNames] *)
Definition getSortedBlockNames (blocks : list Block) : list string :=
  sortStrings (map (fun block => Itoa (Nonce block)) blocks).

(** [stringifyBlocks] *)
Definition stringifyBlocks (blocks : list Block) : string :=
  joinDash (getSortedBlockNames blocks).

(** The loop of [NewTipset] over the seeds, from the sentinel [-1]. *)
Definition minTicketOf (blocks : list Block) : Z :=
  fold_left (fun minTicket block =>
               if (minTicket =? -1) || (Seed block <? minTicket)
               then Seed block else minTicket)
            blocks (-1).

(** [NewTipset] *)
Definition NewTipset (blocks : list Block) : Tipset :=
  let blocks := sortBlocks blocks in
  {| Blocks := blocks;
     Name := stringifyBlocks blocks;
     MinTicket := minTicketOf blocks |}.

(** The test of the inner loop of [allTipsets]:
    [blk1.Parents.Name == blk2.Parents.Name && blk1.Height == blk2.Height]. *)
Definition sameTipset (blk1 blk2 : Block) : result bool :=
  match Parents blk1 with
  | None => Panicked NilDereference
  | Some p1 =>
      match Parents blk2 with
      | None => Panicked NilDereference
      | Some p2 => Ok (String.eqb (Name p1) (Name p2) && (Height blk1 =? Height blk2))
      end
  end.

(** The inner loop of [allTipsets] for the block [blk1] of index [i], at
    index [j], over the blocks left. *)
Fixpoint collectTipset (i : nat) (blk1 : Block) (j : nat) (blks : list Block)
         (tipset : list Block) : result (list Block) :=
  match blks with
  | [] => Ok tipset
  | blk2 :: rest =>
      if Nat.eqb i j then collectTipset i blk1 (S j) rest tipset
      else
        same ← sameTipset blk1 blk2;
        collectTipset i blk1 (S j) rest (if (same : bool) then tipset ++ [blk2] else tipset)
  end.

(** The outer loop of [allTipsets], at index [i], over the blocks left. *)
Fixpoint allTipsetsLoop (all : list Block) (i : nat) (blks : list Block)
         (tipsets : gmap string Tipset) : result (gmap string Tipset) :=
  match blks with
  | [] => Ok tipsets
  | blk1 :: rest =>
      tipset ← collectTipset i blk1 0 all [blk1];
      let key := stringifyBlocks tipset in
      allTipsetsLoop all (S i) rest
                     (match tipsets !! key with
                      | Some _ => tipsets
                      | None => <[key := NewTipset tipset]> tipsets
                      end)
  end.

(** [allTipsets] *)
Definition allTipsets (blks : list Block) : result (gmap string Tipset) :=
  allTipsetsLoop blks 0 blks ∅.

(** ** Names *)

Lemma joinDash_inj (l1 l2 : list string) :
  Forall (fun s => noDash s /\ s <> "") l1 ->
  Forall (fun s => noDash s /\ s <> "") l2 ->
  joinDash l1 = joinDash l2 -> l1 = l2.
Proof.
  revert l2. induction l1 as [|a r1 IH]; intros [|b r2] H1 H2 H.
  - reflexivity.
  - exfalso. apply Forall_cons in H2 as [[Hd Hne] _]. cbn [joinDash] in H.
    destruct r2 as [|x r2]; [apply Hne; symmetry; exact H|].
    destruct b; [apply Hne; reflexivity | discriminate H].
  - exfalso. apply Forall_cons in H1 as [[Hd Hne] _]. cbn [joinDash] in H.
    destruct r1 as [|x r1]; [apply Hne; exact H|].
    destruct a; [apply Hne; reflexivity | discriminate H].
  - apply Forall_cons in H1 as [[Hd1 _] H1]. apply Forall_cons in H2 as [[Hd2 _] H2].
    cbn [joinDash] in H. destruct r1 as [|x1 r1], r2 as [|x2 r2].
    + rewrite H. reflexivity.
    + exfalso. exact (noDash_not_joined _ _ _ Hd1 H).
    + exfalso. symmetry in H. exact (noDash_not_joined _ _ _ Hd2 H).
    + apply noDash_join in H as [-> Hrest]; [|exact Hd1 | exact Hd2].
      f_equal. apply IH; assumption.
Qed.

(** The name of a slice of blocks does not depend on their order. *)
Lemma stringifyBlocks_order (l1 l2 : list Block) :
  Permutation l1 l2 -> stringifyBlocks l1 = stringifyBlocks l2.
Proof.
  intros H. unfold stringifyBlocks, getSortedBlockNames. f_equal.
  apply (StronglySorted_unique strLe); [apply sortStrings_sorted | apply sortStrings_sorted|].
  rewrite !sortStrings_perm. apply Permutation_map, H.
Qed.

(** Slices of blocks without negative nonces that have the same name have
    the same nonces. *)
Lemma stringifyBlocks_nonces (l1 l2 : list Block) :
  Forall (fun b => 0 <= Nonce b) l1 ->
  Forall (fun b => 0 <= Nonce b) l2 ->
  stringifyBlocks l1 = stringifyBlocks l2 ->
  Permutation (map Nonce l1) (map Nonce l2).
Proof.
  intros H1 H2 H. unfold stringifyBlocks, getSortedBlockNames in H.
  assert (forall l, Forall (fun b => 0 <= Nonce b) l ->
                    Forall (fun s => noDash s /\ s <> "")
                           (sortStrings (map (fun block => Itoa (Nonce block)) l))) as Hnames.
  { intros l Hl. eapply Permutation_Forall; [apply Permutation_sym, sortStrings_perm|].
    apply Forall_forall. intros s Hs.
    apply list_elem_of_In, in_map_iff in Hs as (b & <- & Hb).
    rewrite Forall_forall in Hl. apply list_elem_of_In, Hl in Hb.
    split; [apply Itoa_noDash | apply Itoa_nonempty]; exact Hb. }
  apply joinDash_inj in H; [|apply Hnames, H1 | apply Hnames, H2].
  assert (Permutation (map Itoa (map Nonce l1)) (map Itoa (map Nonce l2))) as Hp.
  { rewrite !map_map. rewrite <- (sortStrings_perm (map _ l1)), H. apply sortStrings_perm. }
  apply Permutation_map_inv in Hp as (l3 & Hl3 & Hp).
  assert (map Nonce l1 = l3) as ->; [|apply Permutation_sym, Hp].
  clear -Hl3. revert l3 Hl3. induction (map Nonce l1) as [|x l IH]; intros [|y l3] H;
    try discriminate H; [reflexivity|].
  cbn [map] in H. injection H as Hx H. apply Itoa_inj in Hx. rewrite Hx, (IH l3 H).
  reflexivity.
Qed.

(** ** allTipsets *)

(** Blocks with parents of one name and of one height. *)
Definition sameGroup (blk1 blk2 : Block) : bool :=
  match Parents blk1, Parents blk2 with
  | Some p1, Some p2 => String.eqb (Name p1) (Name p2) && (Height blk1 =? Height blk2)
  | _, _ => false
  end.

Lemma sameGroup_refl (blk : Block) : Parents blk <> None -> sameGroup blk blk = true.
Proof.
  unfold sameGroup. destruct (Parents blk) as [p|]; [|contradiction]. intros _.
  rewrite String.eqb_refl, Z.eqb_refl. reflexivity.
Qed.

Lemma sameGroup_class (b1 b2 b : Block) :
  sameGroup b1 b = true -> sameGroup b2 b = true ->
  forall x, sameGroup b1 x = sameGroup b2 x.
Proof.
  unfold sameGroup. intros H1 H2 x.
  destruct (Parents b1) as [p1|]; [|discriminate H1].
  destruct (Parents b2) as [p2|]; [|discriminate H2].
  destruct (Parents b) as [p|]; [|discriminate H1].
  apply andb_true_iff in H1 as [Hn1 Hh1]. apply andb_true_iff in H2 as [Hn2 Hh2].
  apply String.eqb_eq in Hn1, Hn2. apply Z.eqb_eq in Hh1, Hh2.
  destruct (Parents x) as [px|]; [|reflexivity].
  rewrite Hn1, Hn2, Hh1, Hh2. reflexivity.
Qed.

(** The blocks the inner loop looks at: all but the one of index [i]. *)
Definition others (i j : nat) (blks : list Block) : list Block :=
  if (j <=? i)%nat then delete (i - j)%nat blks else blks.

Lemma collectTipset_group (i : nat) (blk1 : Block) (j : nat) (blks tipset : list Block) :
  Parents blk1 <> None ->
  Forall (fun b => Parents b <> None) blks ->
  collectTipset i blk1 j blks tipset
  = Ok (tipset ++ filter (fun b => sameGroup blk1 b = true) (others i j blks)).
Proof.
  intros H1. revert j tipset. induction blks as [|blk2 rest IH]; intros j tipset Hall.
  - unfold others. destruct (j <=? i)%nat; cbn; rewrite app_nil_r; reflexivity.
  - apply Forall_cons in Hall as [H2 Hall]. cbn [collectTipset].
    destruct (Nat.eqb_spec i j) as [->|Hne].
    + rewrite (IH _ _ Hall). unfold others.
      rewrite Nat.leb_refl, Nat.sub_diag.
      destruct (Nat.leb_spec (S j) j); [lia | reflexivity].
    + assert (sameTipset blk1 blk2 = Ok (sameGroup blk1 blk2)) as ->.
      { unfold sameTipset, sameGroup.
        destruct (Parents blk1); [|contradiction].
        destruct (Parents blk2); [reflexivity | contradiction]. }
      cbn [mbind result_bind rbind]. rewrite (IH _ _ Hall).
      assert (others i j (blk2 :: rest) = blk2 :: others i (S j) rest) as ->.
      { unfold others. destruct (Nat.leb_spec j i), (Nat.leb_spec (S j) i); try lia.
        - replace (i - j)%nat with (S (i - S j)) by lia. reflexivity.
        - reflexivity. }
      destruct (sameGroup blk1 blk2) eqn:E.
      * rewrite filter_cons_True by exact E. rewrite <- app_assoc. reflexivity.
      * rewrite filter_cons_False by (rewrite E; discriminate). reflexivity.
Qed.

(** The group of a block among [all], and the key it is filed under. *)
Definition groupOf (all : list Block) (blk : Block) : list Block :=
  filter (fun b => sameGroup blk b = true) all.

Lemma collected_group (all : list Block) (i : nat) (blk1 : Block) :
  all !! i = Some blk1 -> Parents blk1 <> None ->
  Permutation (blk1 :: filter (fun b => sameGroup blk1 b = true) (others i 0 all))
              (groupOf all blk1).
Proof.
  intros Hi Hp. unfold others, groupOf. cbn [Nat.leb]. rewrite Nat.sub_0_r.
  rewrite (delete_Permutation all i blk1 Hi) at 2.
  rewrite filter_cons_True by (apply sameGroup_refl, Hp). reflexivity.
Qed.

Lemma NewTipset_group (all tipset : list Block) (blk : Block) :
  Permutation tipset (groupOf all blk) ->
  Name (NewTipset tipset) = stringifyBlocks (groupOf all blk) /\
  Permutation (Blocks (NewTipset tipset)) (groupOf all blk).
Proof.
  intros H. cbn [NewTipset Name Blocks]. split.
  - apply stringifyBlocks_order. rewrite sortBlocks_perm. exact H.
  - rewrite sortBlocks_perm. exact H.
Qed.

(** What the map holds when the outer loop has seen the blocks [done]. *)
Definition filed (all done : list Block) (tipsets : gmap string Tipset) : Prop :=
  (forall key ts, tipsets !! key = Some ts ->
     exists blk, In blk done /\ key = stringifyBlocks (groupOf all blk) /\
                 Name ts = key /\ Permutation (Blocks ts) (groupOf all blk)) /\
  (forall blk, In blk done ->
     exists ts, tipsets !! stringifyBlocks (groupOf all blk) = Some ts).

Lemma allTipsetsLoop_filed (all done rest : list Block) (tipsets : gmap string Tipset) :
  all = done ++ rest ->
  Forall (fun b => Parents b <> None) all ->
  filed all done tipsets ->
  exists tipsets', allTipsetsLoop all (length done) rest tipsets = Ok tipsets' /\
                   filed all all tipsets'.
Proof.
  intros Hall Hp. revert done tipsets Hall.
  induction rest as [|blk1 rest IH]; intros done tipsets Hall Hf.
  - exists tipsets. split; [reflexivity|]. rewrite app_nil_r in Hall. rewrite <- Hall in Hf. exact Hf.
  - cbn [allTipsetsLoop].
    assert (all !! length done = Some blk1) as Hi
      by (rewrite Hall; apply list_lookup_middle; reflexivity).
    assert (Parents blk1 <> None) as Hp1.
    { rewrite Forall_forall in Hp. apply Hp. eapply list_elem_of_lookup_2, Hi. }
    rewrite (collectTipset_group _ _ _ _ _ Hp1 Hp). cbn [mbind result_bind rbind app].
    pose proof (collected_group all (length done) blk1 Hi Hp1) as Hg.
    set (tipset := blk1 :: filter _ _) in *.
    destruct (NewTipset_group all tipset blk1 Hg) as [Hname Hblocks].
    rewrite (stringifyBlocks_order _ _ Hg).
    replace (S (length done)) with (length (done ++ [blk1])) by (rewrite length_app; cbn; lia).
    apply IH; [rewrite <- app_assoc; exact Hall|].
    destruct Hf as [Hentries Hdone]. split.
    + intros key ts Hk.
      assert (tipsets !! key = Some ts \/
              (key = stringifyBlocks (groupOf all blk1) /\ ts = NewTipset tipset)) as [Hold|[-> ->]].
      { destruct (tipsets !! stringifyBlocks (groupOf all blk1)) eqn:E; [left; exact Hk|].
        apply lookup_insert_Some in Hk as [[<- <-]|[_ Hk]]; [right; split; reflexivity|].
        left. exact Hk. }
      * destruct (Hentries key ts Hold) as (blk & Hin & Hrest).
        exists blk. split; [apply in_or_app; left; exact Hin | exact Hrest].
      * exists blk1. split; [apply in_or_app; right; left; reflexivity|].
        split; [reflexivity|]. split; [exact Hname | exact Hblocks].
    + intros blk Hin. apply in_app_or in Hin as [Hin|[<-|[]]].
      * destruct (Hdone blk Hin) as [ts Hts].
        destruct (tipsets !! stringifyBlocks (groupOf all blk1)) eqn:E; [exists ts; exact Hts|].
        destruct (decide (stringifyBlocks (groupOf all blk1) = stringifyBlocks (groupOf all blk)))
          as [Heq|Hne].
        -- rewrite <- Heq. rewrite lookup_insert_eq. eexists. reflexivity.
        -- rewrite lookup_insert_ne by exact Hne. exists ts. exact Hts.
      * destruct (tipsets !! stringifyBlocks (groupOf all blk1)) eqn:E; [eexists; exact E|].
        rewrite lookup_insert_eq. eexists. reflexivity.
Qed.

End Tipsets.

(** ** An instance of the sorts *)

Lemma strLe_trans (s1 s2 s3 : string) : strLe s1 s2 -> strLe s2 s3 -> strLe s1 s3.
Proof.
  unfold strLe, String.leb. revert s2 s3.
  induction s1 as [|c1 s1 IH]; intros [|c2 s2] [|c3 s3]; cbn [String.compare];
    try (intros; reflexivity); try (intros H1 H2; discriminate H1 || discriminate H2).
  intros H1 H2.
  destruct (Ascii.compare c1 c2) eqn:E12; [| |discriminate H1];
    destruct (Ascii.compare c2 c3) eqn:E23; try discriminate H2.
  - apply Ascii.compare_eq_iff in E12. subst c2. rewrite E23. exact (IH s2 s3 H1 H2).
  - apply Ascii.compare_eq_iff in E12. subst c2. rewrite E23. reflexivity.
  - apply Ascii.compare_eq_iff in E23. subst c3. rewrite E12. reflexivity.
  - unfold Ascii.compare in *. rewrite N.compare_lt_iff in E12, E23.
    rewrite (proj2 (N.compare_lt_iff _ _)) by (etransitivity; eassumption). reflexivity.
Qed.

#[local] Instance strLe_dec (s1 s2 : string) : Decision (strLe s1 s2) :=
  decide (String.leb s1 s2 = true).

#[local] Instance strLe_transitive : Transitive strLe.
Proof. intros s1 s2 s3. apply strLe_trans. Qed.

#[local] Instance strLe_total : Total strLe.
Proof. intros s1 s2. apply String.leb_total. Qed.

(** Merge sorts: by [Seed] for [sort.Slice], by [strLe] for [sort.Strings]. *)
Definition seedLe (b1 b2 : Block) : Prop := Seed b1 <= Seed b2.

#[local] Instance seedLe_dec (b1 b2 : Block) : Decision (seedLe b1 b2) :=
  decide (Seed b1 <= Seed b2).

Definition demoSortBlocks : list Block -> list Block := merge_sort seedLe.
Definition demoSortStrings : list string -> list string := merge_sort strLe.

Lemma demoSortBlocks_perm (l : list Block) : Permutation (demoSortBlocks l) l.
Proof. apply merge_sort_Permutation. Qed.

Lemma demoSortStrings_perm (l : list string) : Permutation (demoSortStrings l) l.
Proof. apply merge_sort_Permutation. Qed.

Lemma demoSortStrings_sorted (l : list string) : StronglySorted strLe (demoSortStrings l).
Proof. apply StronglySorted_merge_sort; apply _. Qed.

(** Three blocks on the tipset [root]: two of height 1 and one of height 2. *)
Definition root : Tipset := {| Blocks := []; Name := "0"; MinTicket := 4 |}.

Definition blockOn (nonce height seed : Z) : Block :=
  {| Nonce := nonce; Parents := Some root; Owner := 0; Height := height; Null := false;
     Weight := 1; Seed := seed |}.

End LongSim.

(** ** One tipset for every group *)

Section LongSimTipsets.

Import LongSim.

Variable sortBlocks : list Block -> list Block.
Hypothesis sortBlocks_perm : forall l, Permutation (sortBlocks l) l.
Variable sortStrings : list string -> list string.
Hypothesis sortStrings_perm : forall l, Permutation (sortStrings l) l.
Hypothesis sortStrings_sorted : forall l, StronglySorted strLe (sortStrings l).

(** In the earlier stage [allTipsets] files one tipset for every group of
    blocks: on blocks that all have parents, with nonces that are not
    negative and differ from one another, it returns a map in which every
    entry is filed under the name of its tipset, the blocks of the tipset
    being the blocks of the slice with the parents' name and the height of
    one of them; every block of the slice is in a tipset of the map, and in
    no two of them. *)
Theorem allTipsets_one_per_group (blks : list Block) :
  Forall (fun b => Parents b <> None) blks ->
  Forall (fun b => 0 <= Nonce b) blks ->
  NoDup (map Nonce blks) ->
  exists tipsets,
    allTipsets sortBlocks sortStrings blks = Ok tipsets /\
    (forall key ts, tipsets !! key = Some ts ->
       Name ts = key /\
       exists blk, In blk blks /\
                   Permutation (Blocks ts) (filter (fun b => sameGroup blk b = true) blks)) /\
    (forall blk, In blk blks ->
       exists ts, tipsets !! (Name ts) = Some ts /\ In blk (Blocks ts)) /\
    (forall k1 k2 ts1 ts2 blk,
       tipsets !! k1 = Some ts1 -> tipsets !! k2 = Some ts2 ->
       In blk (Blocks ts1) -> In blk (Blocks ts2) -> k1 = k2).
Proof.
  intros Hp Hn Hnd.
  destruct (allTipsetsLoop_filed sortBlocks sortBlocks_perm sortStrings sortStrings_perm
              sortStrings_sorted blks [] blks ∅ eq_refl Hp)
    as (tipsets & Hrun & Hentries & Hall).
  { split; [intros key ts Hk; rewrite lookup_empty in Hk; discriminate Hk|].
    intros blk []. }
  exists tipsets. split; [exact Hrun|].
  assert (forall blk, Forall (fun b => 0 <= Nonce b) (groupOf blks blk)) as Hgn.
  { intros blk. apply Forall_forall. intros b Hb.
    apply list_elem_of_filter in Hb as [_ Hb]. rewrite Forall_forall in Hn. apply Hn, Hb. }
  split; [|split].
  - intros key ts Hk. destruct (Hentries key ts Hk) as (blk & Hin & _ & Hname & Hblocks).
    split; [exact Hname|]. exists blk. split; [exact Hin | exact Hblocks].
  - intros blk Hin. destruct (Hall blk Hin) as [ts Hts].
    destruct (Hentries _ ts Hts) as (blk0 & Hin0 & Hkey & Hname & Hblocks).
    exists ts. split; [rewrite Hname; exact Hts|].
    apply (stringifyBlocks_nonces sortStrings sortStrings_perm) in Hkey;
      [|apply Hgn | apply Hgn].
    assert (In blk (groupOf blks blk)) as Hself.
    { apply list_elem_of_In, list_elem_of_filter. split; [|apply list_elem_of_In, Hin].
      apply sameGroup_refl. rewrite Forall_forall in Hp. apply Hp, list_elem_of_In, Hin. }
    assert (In (Nonce blk) (map Nonce (groupOf blks blk0))) as Hnonce
      by (eapply Permutation_in; [exact Hkey | apply in_map, Hself]).
    apply in_map_iff in Hnonce as (b' & Hb' & Hin').
    assert (b' = blk) as ->.
    { eapply (NoDup_map_In_inj Nonce blks); [exact Hnd | | exact Hin | exact Hb'].
      apply list_elem_of_In, list_elem_of_filter in Hin' as [_ Hin'].
      apply list_elem_of_In, Hin'. }
    eapply Permutation_in; [apply Permutation_sym, Hblocks | exact Hin'].
  - intros k1 k2 ts1 ts2 blk Hk1 Hk2 Hb1 Hb2.
    destruct (Hentries k1 ts1 Hk1) as (b1 & _ & -> & _ & Hg1).
    destruct (Hentries k2 ts2 Hk2) as (b2 & _ & -> & _ & Hg2).
    eapply Permutation_in in Hb1; [|exact Hg1]. eapply Permutation_in in Hb2; [|exact Hg2].
    apply list_elem_of_In, list_elem_of_filter in Hb1 as [Hs1 _].
    apply list_elem_of_In, list_elem_of_filter in Hb2 as [Hs2 _].
    f_equal. unfold groupOf. apply list_filter_iff. intros x.
    rewrite (sameGroup_class b1 b2 blk Hs1 Hs2 x). reflexivity.
Qed.

End LongSimTipsets.

Section LongSimInstance.

Import LongSim.

Lemma allTipsets_one_per_group_witness :
  exists tipsets,
    allTipsets demoSortBlocks demoSortStrings [blockOn 12 1 7; blockOn 5 2 3; blockOn 3 1 9]
    = Ok tipsets /\
    forall blk, In blk [blockOn 12 1 7; blockOn 5 2 3; blockOn 3 1 9] ->
      exists ts, tipsets !! (Name ts) = Some ts /\ In blk (Blocks ts).
Proof.
  destruct (allTipsets_one_per_group demoSortBlocks demoSortBlocks_perm
              demoSortStrings demoSortStrings_perm demoSortStrings_sorted
              [blockOn 12 1 7; blockOn 5 2 3; blockOn 3 1 9])
    as (tipsets & Hrun & _ & Hall & _).
  - repeat constructor; discriminate.
  - repeat constructor; cbn; lia.
  - apply (bool_decide_unpack _). vm_compute. exact I.
  - exists tipsets. split; [exact Hrun | exact Hall].
Defined.

End LongSimInstance.
